(** * ASO tool: the extraction-and-scoring pipeline of [server.js]

    A shallow embedding of the data transformations of [server.js]
    (candidate extraction, install parsing, text clean-up, suggestion
    parsing, the sequential detail loop, keyword aggregation and the
    difficulty heuristic) together with the properties its specification
    states about them.

    Conventions.
    - A JavaScript string is the list of its UTF-16 code units.
    - [null] and [undefined] are [None]; a thrown exception is an explicit
      failure value of the enclosing computation.
    - A JavaScript number is [NaN], an infinity or a finite rational; the
      rounding of an exact result to a double is the operator [rnd], kept
      abstract (section [Numbers]).
    - What the browser, cheerio and the network deliver is an argument of
      the function that consumes it. *)

From Stdlib Require Import Ascii String.
From Stdlib Require Import List Bool Arith NArith ZArith QArith Qround Lia Lqa.
Import ListNotations.

Set Implicit Arguments.
Close Scope Q_scope.

(* ===================================================================== *)
(** * Strings and character classes *)
(* ===================================================================== *)

Definition char := N.
Definition jsstring := list char.

(** An ASCII literal as a JavaScript string. *)
Definition str (s : string) : jsstring :=
  map N_of_ascii (list_ascii_of_string s).
Arguments str s%_string.

Definition dquote : char := 34%N.

Definition char_eqb (a b : char) : bool := N.eqb a b.
Arguments char_eqb (a b)%_N.

Fixpoint jsstring_eqb (a b : jsstring) : bool :=
  match a, b with
  | [], [] => true
  | x :: a', y :: b' => char_eqb x y && jsstring_eqb a' b'
  | _, _ => false
  end.

Definition jsstring_eq_dec (a b : jsstring) : {a = b} + {a <> b} :=
  list_eq_dec N.eq_dec a b.

Definition in_range (lo hi c : char) : bool := (N.leb lo c && N.leb c hi)%bool.
Arguments in_range (lo hi c)%_N.

(** [\d] *)
Definition is_digit (c : char) : bool := in_range 48 57 c.

(** [\w]: [A-Za-z0-9_] *)
Definition is_word (c : char) : bool :=
  (in_range 65 90 c || in_range 97 122 c || is_digit c || char_eqb c 95)%bool.

(** Line terminators: LF, CR, U+2028, U+2029. *)
Definition is_line_terminator (c : char) : bool :=
  (char_eqb c 10 || char_eqb c 13 || char_eqb c 8232 || char_eqb c 8233)%bool.

(** [\s], which is also what [trim] removes: the white space and line
    terminator code units of ECMAScript (TAB, LF, VT, FF, CR, SP, NBSP,
    U+1680, U+2000..U+200A, U+2028, U+2029, U+202F, U+205F, U+3000,
    U+FEFF). *)
Definition is_space (c : char) : bool :=
  (in_range 9 13 c || char_eqb c 32 || char_eqb c 160 || char_eqb c 5760
   || in_range 8192 8202 c || char_eqb c 8232 || char_eqb c 8233
   || char_eqb c 8239 || char_eqb c 8287 || char_eqb c 12288
   || char_eqb c 65279)%bool.

(** A string is truthy when it is not empty. *)
Definition truthy_string (s : jsstring) : bool :=
  match s with [] => false | _ => true end.

(** [x] for an optional string in a boolean position. *)
Definition truthy_ostring (o : option jsstring) : bool :=
  match o with Some s => truthy_string s | None => false end.

Fixpoint trimStart (s : jsstring) : jsstring :=
  match s with
  | c :: t => if is_space c then trimStart t else s
  | [] => []
  end.

Definition trimEnd (s : jsstring) : jsstring := rev (trimStart (rev s)).

Definition trim (s : jsstring) : jsstring := trimEnd (trimStart s).

(** ASCII letters: the part of [toUpperCase] that the install parser can
    reach, since it upper-cases a string already reduced to the code units
    [0-9KMkmb.]. *)
Definition upper_ascii (c : char) : char :=
  if in_range 97 122 c then (c - 32)%N else c.

Definition lower_ascii (c : char) : char :=
  if in_range 65 90 c then (c + 32)%N else c.

(* ===================================================================== *)
(** * Regular expressions: a backtracking matcher *)
(* ===================================================================== *)

(** The fragment of ECMAScript patterns used in [server.js]: classes,
    concatenation, alternation (left first), greedy and lazy iteration and
    capture groups.  Matching is the backtracking search of the language
    definition: a pattern is run against the input with a continuation for
    what follows it; the first success in priority order wins. *)

Inductive regex :=
| Eps
| Chr (p : char -> bool)
| Seq (r1 r2 : regex)
| Alt (r1 r2 : regex)
| Star (greedy : bool) (r : regex)
| Group (i : nat) (r : regex).

Definition captures := list (nat * jsstring).

Fixpoint capture (i : nat) (c : captures) : option jsstring :=
  match c with
  | [] => None
  | (j, s) :: c' => if Nat.eqb i j then Some s else capture i c'
  end.

Definition cont := jsstring -> captures -> option (jsstring * captures).

Fixpoint run (r : regex) (s : jsstring) (c : captures) (k : cont)
  : option (jsstring * captures) :=
  match r with
  | Eps => k s c
  | Chr p =>
      match s with
      | x :: t => if p x then k t c else None
      | [] => None
      end
  | Seq r1 r2 => run r1 s c (fun s1 c1 => run r2 s1 c1 k)
  | Alt r1 r2 =>
      match run r1 s c k with
      | Some res => Some res
      | None => run r2 s c k
      end
  | Star greedy r1 =>
      (* one more iteration must consume input; [n] bounds the number of
         iterations by the length of what is left *)
      (fix iter (n : nat) (s : jsstring) (c : captures) {struct n} :=
         match n with
         | O => k s c
         | S n' =>
             let again s' c' :=
               if Nat.ltb (length s') (length s) then iter n' s' c' else None in
             if greedy then
               match run r1 s c again with
               | Some res => Some res
               | None => k s c
               end
             else
               match k s c with
               | Some res => Some res
               | None => run r1 s c again
               end
         end) (length s) s c
  | Group i r1 =>
      run r1 s c
        (fun s' c' => k s' ((i, firstn (length s - length s') s) :: c'))
  end.

(** Pattern shorthands. *)
Definition Lit1 (a : char) : regex := Chr (char_eqb a).
Arguments Lit1 a%_N.

(** A literal, case-sensitive. *)
Fixpoint Lit (s : jsstring) : regex :=
  match s with
  | [] => Eps
  | a :: t => Seq (Lit1 a) (Lit t)
  end.

(** A literal under the [i] flag: an ASCII letter matches in both cases. *)
Definition ci_eqb (a x : char) : bool :=
  (char_eqb a x || (is_word a && negb (is_digit a) && negb (char_eqb a 95)
                    && char_eqb (upper_ascii a) (upper_ascii x)))%bool.

Fixpoint LitI (s : jsstring) : regex :=
  match s with
  | [] => Eps
  | a :: t => Seq (Chr (ci_eqb a)) (LitI t)
  end.

Definition Plus (r : regex) : regex := Seq r (Star true r).
Definition Many (r : regex) : regex := Star true r.
Definition Opt (r : regex) : regex := Alt r Eps.
(** [.] *)
Definition Dot : regex := Chr (fun x => negb (is_line_terminator x)).

(** The result of a successful match: where it starts, the matched text
    [m[0]], the groups, and the input after the match. *)
Record match_result := {
  m_index : nat;
  m_text : jsstring;
  m_groups : captures;
  m_rest : jsstring
}.

(** A match anchored at the head of [s]. *)
Definition match_here (r : regex) (s : jsstring) : option (jsstring * captures) :=
  run r s [] (fun s' c' => Some (s', c')).

(** The leftmost match in [s], which starts at offset [i] of the whole
    input. *)
Fixpoint search (r : regex) (i : nat) (s : jsstring) : option match_result :=
  match match_here r s with
  | Some (s', c) =>
      Some {| m_index := i; m_text := firstn (length s - length s') s;
              m_groups := c; m_rest := s' |}
  | None =>
      match s with
      | [] => None
      | _ :: t => search r (S i) t
      end
  end.

(** [s.match(r)] for a pattern without the [g] flag. *)
Definition String_match (r : regex) (s : jsstring) : option match_result :=
  search r 0 s.

(** [r.test(s)] *)
Definition RegExp_test (r : regex) (s : jsstring) : bool :=
  match search r 0 s with Some _ => true | None => false end.

(** The texts [m[1]] of the successive results of [r.exec(s)], until
    [exec] returns [null], for a pattern with the [g] flag whose matches are
    never empty.  Each call resumes at [lastIndex], the end of the previous
    match; [skip] counts the code units of the previous match that are
    still ahead.  A group that did not take part gives [undefined]. *)
Fixpoint exec_all (r : regex) (skip : nat) (s : jsstring) : list (option jsstring) :=
  match s with
  | [] => []
  | _ :: t =>
      match skip with
      | S k => exec_all r k t
      | O =>
          match match_here r s with
          | Some (s', c) => capture 1 c :: exec_all r (length s - length s' - 1) t
          | None => exec_all r 0 t
          end
      end
  end.

(** [s.replace(r, by)] for a pattern with the [g] flag whose matches are
    never empty. *)
Fixpoint replace_all (r : regex) (by_ : jsstring) (skip : nat) (s : jsstring) : jsstring :=
  match s with
  | [] => []
  | x :: t =>
      match skip with
      | S k => replace_all r by_ k t
      | O =>
          match match_here r s with
          | Some (s', _) => by_ ++ replace_all r by_ (length s - length s' - 1) t
          | None => x :: replace_all r by_ 0 t
          end
      end
  end.

(** [s.replace(a, by)] for a one-character string pattern [a]: the first
    occurrence only. *)
Fixpoint replace_first (a : char) (by_ : jsstring) (s : jsstring) : jsstring :=
  match s with
  | [] => []
  | x :: t => if char_eqb x a then by_ ++ t else x :: replace_first a by_ t
  end.
Arguments replace_first a%_N by_ s.

(** [s.split(r)] for a pattern without groups whose matches are never
    empty; [cur] is the current piece, reversed. *)
Fixpoint split_re (r : regex) (skip : nat) (cur : jsstring) (s : jsstring) : list jsstring :=
  match s with
  | [] => [rev cur]
  | x :: t =>
      match skip with
      | S k => split_re r k cur t
      | O =>
          match match_here r s with
          | Some (s', _) => rev cur :: split_re r (length s - length s' - 1) [] t
          | None => split_re r 0 (x :: cur) t
          end
      end
  end.

Definition String_split (r : regex) (s : jsstring) : list jsstring :=
  split_re r 0 [] s.

(* ===================================================================== *)
(** * Numbers *)
(* ===================================================================== *)

(** A JavaScript number.  The two zeros are identified: they differ as
    divisors only, and a zero divisor is taken as [+0]. *)
Inductive number :=
| NaN
| PInf
| NInf
| Fin (q : Q).

Definition num_of_Z (z : Z) : number := Fin (inject_Z z).

Definition isFinite (a : number) : bool :=
  match a with Fin _ => true | _ => false end.

Definition isNaN (a : number) : bool :=
  match a with NaN => true | _ => false end.

(** A number in a boolean position: [0] and [NaN] are falsy. *)
Definition truthy_number (a : number) : bool :=
  match a with
  | NaN => false
  | Fin q => negb (Qeq_bool q 0)
  | _ => true
  end.

(** [a <= b] and [a < b]; both are false when an operand is [NaN]. *)
Definition num_leb (a b : number) : bool :=
  match a, b with
  | NaN, _ | _, NaN => false
  | NInf, _ | _, PInf => true
  | Fin p, Fin q => Qle_bool p q
  | _, _ => false
  end.

Definition num_ltb (a b : number) : bool :=
  match a, b with
  | NaN, _ | _, NaN => false
  | Fin p, Fin q => negb (Qle_bool q p)
  | NInf, NInf | PInf, PInf => false
  | NInf, _ | _, PInf => true
  | _, _ => false
  end.

Definition Math_min (a b : number) : number :=
  match a, b with
  | NaN, _ | _, NaN => NaN
  | _, _ => if num_leb a b then a else b
  end.

Definition Math_max (a b : number) : number :=
  match a, b with
  | NaN, _ | _, NaN => NaN
  | _, _ => if num_leb a b then b else a
  end.

(** [Math.round]: the nearest integer, halves upwards. *)
Definition Math_round (a : number) : number :=
  match a with
  | Fin q => num_of_Z (Qfloor (q + (1 # 2))%Q)
  | _ => a
  end.

Definition Qpos_b (q : Q) : bool := Z.ltb 0 (Qnum q).
Definition Qzero_b (q : Q) : bool := Z.eqb 0 (Qnum q).

(** [10^e] *)
Definition pow10 (e : Z) : Q :=
  if Z.leb 0 e then inject_Z (10 ^ e) else (1 # Z.to_pos (10 ^ (- e)))%Q.

Fixpoint take_while (p : char -> bool) (s : jsstring) : jsstring :=
  match s with
  | x :: t => if p x then x :: take_while p t else []
  | [] => []
  end.

Fixpoint drop_while (p : char -> bool) (s : jsstring) : jsstring :=
  match s with
  | x :: t => if p x then drop_while p t else s
  | [] => []
  end.

(** The value of a string of decimal digits. *)
Definition digits_value (ds : jsstring) : Z :=
  fold_left (fun acc d => (acc * 10 + (Z.of_N d - 48))%Z) ds 0%Z.

Fixpoint starts_with (p s : jsstring) : bool :=
  match p, s with
  | [], _ => true
  | a :: p', x :: s' => char_eqb a x && starts_with p' s'
  | _ :: _, [] => false
  end.

Section Numbers.

(** The double nearest to an exact result (an infinity on overflow). *)
Variable rnd : Q -> number.

Definition num_add (a b : number) : number :=
  match a, b with
  | NaN, _ | _, NaN => NaN
  | PInf, NInf | NInf, PInf => NaN
  | PInf, _ | _, PInf => PInf
  | NInf, _ | _, NInf => NInf
  | Fin p, Fin q => rnd (p + q)%Q
  end.

Definition num_mul (a b : number) : number :=
  match a, b with
  | NaN, _ | _, NaN => NaN
  | Fin p, Fin q => rnd (p * q)%Q
  | PInf, PInf | NInf, NInf => PInf
  | PInf, NInf | NInf, PInf => NInf
  | PInf, Fin q | Fin q, PInf =>
      if Qzero_b q then NaN else if Qpos_b q then PInf else NInf
  | NInf, Fin q | Fin q, NInf =>
      if Qzero_b q then NaN else if Qpos_b q then NInf else PInf
  end.

Definition num_div (a b : number) : number :=
  match a, b with
  | NaN, _ | _, NaN => NaN
  | Fin p, Fin q =>
      if Qzero_b q then
        if Qzero_b p then NaN else if Qpos_b p then PInf else NInf
      else rnd (p / q)%Q
  | Fin _, _ => Fin 0
  | PInf, Fin q => if Qpos_b q || Qzero_b q then PInf else NInf
  | NInf, Fin q => if Qpos_b q || Qzero_b q then NInf else PInf
  | _, _ => NaN
  end.

(** [parseInt(s, 10)]: leading white space, a sign, then the longest run
    of decimal digits; [NaN] when there is no digit. *)
Definition parseInt (s : jsstring) : number :=
  let s1 := trimStart s in
  let '(neg, s2) :=
    match s1 with
    | x :: t => if char_eqb x 45 then (true, t)
                else if char_eqb x 43 then (false, t) else (false, s1)
    | [] => (false, s1)
    end in
  match take_while is_digit s2 with
  | [] => NaN
  | ds => let v := digits_value ds in
          rnd (inject_Z (if neg then - v else v))
  end.

(** The exponent part of a decimal literal, when a digit follows. *)
Definition exponent_part (s : jsstring) : Z :=
  match s with
  | e :: t =>
      if char_eqb e 101 || char_eqb e 69 then
        let '(neg, t') :=
          match t with
          | x :: u => if char_eqb x 45 then (true, u)
                      else if char_eqb x 43 then (false, u) else (false, t)
          | [] => (false, t)
          end in
        match take_while is_digit t' with
        | [] => 0%Z
        | ds => if neg then (- digits_value ds)%Z else digits_value ds
        end
      else 0%Z
  | [] => 0%Z
  end.

(** [parseFloat(s)]: leading white space, a sign, then [Infinity] or the
    longest prefix that is a decimal literal; [NaN] when there is none. *)
Definition parseFloat (s : jsstring) : number :=
  let s1 := trimStart s in
  let '(neg, s2) :=
    match s1 with
    | x :: t => if char_eqb x 45 then (true, t)
                else if char_eqb x 43 then (false, t) else (false, s1)
    | [] => (false, s1)
    end in
  if starts_with (str "Infinity") s2 then (if neg then NInf else PInf)
  else
    let ip := take_while is_digit s2 in
    let s3 := drop_while is_digit s2 in
    let '(fp, s4) :=
      match s3 with
      | x :: t => if char_eqb x 46
                  then (take_while is_digit t, drop_while is_digit t)
                  else ([], s3)
      | [] => ([], s3)
      end in
    match ip ++ fp with
    | [] => NaN
    | ds =>
        let e := (exponent_part s4 - Z.of_nat (length fp))%Z in
        let v := (inject_Z (digits_value ds) * pow10 e)%Q in
        rnd (if neg then - v else v)%Q
    end.

End Numbers.

(** What rounding to the nearest double guarantees: it preserves the order,
    and integers up to [2^53] are doubles. *)
Definition monotone (rnd : Q -> number) : Prop :=
  forall p q : Q, (p <= q)%Q -> num_leb (rnd p) (rnd q) = true.

Definition exact_on_integers (rnd : Q -> number) : Prop :=
  forall z : Z, (Z.abs z <= 2 ^ 53)%Z -> rnd (inject_Z z) = Fin (inject_Z z).

(** Exact arithmetic: the rounding that only reduces the fraction, for
    running the code on inputs whose results are doubles anyway. *)
Definition exact_rounding (q : Q) : number := Fin (Qred q).

(* ===================================================================== *)
(** * [parseInstallString] and [cleanText] *)
(* ===================================================================== *)

(** The class [[\dKMkmb\.]]; the pattern of [parseInstallString] is its
    complement. *)
Definition install_char (c : char) : bool :=
  (is_digit c || char_eqb c 75 || char_eqb c 77 || char_eqb c 107
   || char_eqb c 109 || char_eqb c 98 || char_eqb c 46)%bool.

(** [toUpperCase] on ASCII; [parseInstallString] applies it to code units
    of the class above only. *)
Definition toUpperCase (s : jsstring) : jsstring := map upper_ascii s.

(** [s.replace(/[^\dKMkmb\.]/g, '').toUpperCase()] *)
Definition normalized (s : jsstring) : jsstring :=
  toUpperCase (replace_all (Chr (fun c => negb (install_char c))) [] 0 s).

Section ParseInstalls.

Variable rnd : Q -> number.

Definition parseInstallString (s : option jsstring) : option number :=
  if negb (truthy_ostring s) then None
  else
    let s := match s with Some s => s | None => [] end in
    let normalized := normalized s in
    if RegExp_test (Lit1 77) normalized then
      Some (num_mul rnd (parseFloat rnd (replace_first 77 [] normalized))
              (num_of_Z 1000000))
    else if RegExp_test (Lit1 75) normalized then
      Some (num_mul rnd (parseFloat rnd (replace_first 75 [] normalized))
              (num_of_Z 1000))
    else
      let digits :=
        replace_all (Chr (fun c => char_eqb c 44 || char_eqb c 43)) [] 0
          normalized in
      let n := parseInt rnd digits in
      if isNaN n then None else Some n.

End ParseInstalls.

(** The class [[\u200B-\u200D\uFEFF]]. *)
Definition zero_width (c : char) : bool :=
  (in_range 8203 8205 c || char_eqb c 65279)%bool.

Definition cleanText (s : option jsstring) : jsstring :=
  if negb (truthy_ostring s) then []
  else
    let s := match s with Some s => s | None => [] end in
    trim (replace_all (Chr zero_width) [] 0
            (replace_all (Plus (Chr is_space)) (str " ") 0 s)).

(* ===================================================================== *)
(** * JSON values and [GET /api/suggest] *)
(* ===================================================================== *)

#[warnings="-register-all"]
Inductive json :=
| JNull
| JBool (b : bool)
| JNum (literal : jsstring)
| JStr (s : jsstring)
| JArr (items : list json)
| JObj (members : list (jsstring * json)).

(** The property of an object under a key: the last member with that key. *)
Fixpoint member (key : jsstring) (ms : list (jsstring * json)) : option json :=
  match ms with
  | [] => None
  | (k, v) :: ms' =>
      match member key ms' with
      | Some v' => Some v'
      | None => if jsstring_eqb k key then Some v else None
      end
  end.

(** [data[1]].  The outer [None] is the [TypeError] of reading a property
    of [null]; the inner one is [undefined]. *)
Definition index_1 (data : json) : option (option json) :=
  match data with
  | JNull => None
  | JArr items => Some (nth_error items 1)
  | JStr s => Some (option_map (fun c => JStr [c]) (nth_error s 1))
  | JObj ms => Some (member (str "1") ms)
  | JBool _ | JNum _ => Some None
  end.

Definition Array_isArray (v : option json) : bool :=
  match v with Some (JArr _) => true | _ => false end.

(** [/\[".*?",\s*(\[[^\]]+\])/] *)
Definition suggest_regex : regex :=
  Seq (Lit1 91) (Seq (Lit1 34) (Seq (Star false Dot)
  (Seq (Lit1 34) (Seq (Lit1 44) (Seq (Many (Chr is_space))
  (Group 1 (Seq (Lit1 91)
           (Seq (Plus (Chr (fun x => negb (char_eqb x 93)))) (Lit1 93))))))))).

(** What the handler answers. *)
Inductive suggest_response :=
| Suggestions (v : json)   (* res.json({ suggestions: v }) *)
| SuggestFailed.           (* res.status(500).json({ error: 'Suggest failed', .. }) *)

Section Suggest.

(** [JSON.parse], a builtin; [None] is its [SyntaxError]. *)
Variable JSON_parse : jsstring -> option json.

(** The inner [try] block: [None] when it throws. *)
Definition suggest_try (txt : jsstring) : option suggest_response :=
  match JSON_parse txt with
  | None => None
  | Some data =>
      match index_1 data with
      | None => None
      | Some d1 =>
          Some (Suggestions (if Array_isArray d1
                             then match d1 with Some v => v | None => JArr [] end
                             else JArr []))
      end
  end.

(** The inner [catch] block: [None] when it throws in turn. *)
Definition suggest_catch (txt : jsstring) : option suggest_response :=
  match String_match suggest_regex txt with
  | Some m =>
      match capture 1 (m_groups m) with
      | Some c =>
          match JSON_parse c with
          | Some v => Some (Suggestions v)
          | None => None
          end
      | None => None (* [JSON.parse(undefined)] throws *)
      end
  | None => Some (Suggestions (JArr []))
  end.

(** The handler from the response text on; the outer [catch] answers
    with the failure. *)
Definition suggest_of_text (txt : jsstring) : suggest_response :=
  match suggest_try txt with
  | Some r => r
  | None =>
      match suggest_catch txt with
      | Some r => r
      | None => SuggestFailed
      end
  end.

(** The whole handler: the query [q], and what [fetch] and [r.text()]
    deliver ([None] when either rejects). *)
Definition suggest (q : option jsstring) (fetched : option jsstring)
  : suggest_response :=
  let q := trim (match q with Some s => s | None => [] end) in
  if negb (truthy_string q) then Suggestions (JArr [])
  else
    match fetched with
    | None => SuggestFailed
    | Some txt => suggest_of_text txt
    end.

End Suggest.

(** ** A JSON reader

    [JSON.parse] is not code of this repository.  The reader below follows
    the JSON grammar (ECMA-404) and serves to run [suggest] on concrete
    response texts. *)

Definition json_ws (c : char) : bool :=
  (char_eqb c 32 || char_eqb c 9 || char_eqb c 10 || char_eqb c 13)%bool.

Definition skip_ws (s : jsstring) : jsstring := drop_while json_ws s.

Definition hex_value (c : char) : option N :=
  if is_digit c then Some (c - 48)%N
  else if in_range 97 102 c then Some (c - 87)%N
  else if in_range 65 70 c then Some (c - 55)%N
  else None.

Definition simple_escape (c : char) : option char :=
  if char_eqb c 34 then Some 34%N
  else if char_eqb c 92 then Some 92%N
  else if char_eqb c 47 then Some 47%N
  else if char_eqb c 98 then Some 8%N
  else if char_eqb c 102 then Some 12%N
  else if char_eqb c 110 then Some 10%N
  else if char_eqb c 114 then Some 13%N
  else if char_eqb c 116 then Some 9%N
  else None.

(** The characters of a string literal after its opening quote. *)
Fixpoint parse_chars (s acc : jsstring) : option (jsstring * jsstring) :=
  match s with
  | [] => None
  | x :: t =>
      if char_eqb x 34 then Some (rev acc, t)
      else if char_eqb x 92 then
        match t with
        | e :: t1 =>
            if char_eqb e 117 then
              match t1 with
              | a :: b :: c :: d :: t2 =>
                  match hex_value a, hex_value b, hex_value c, hex_value d with
                  | Some a, Some b, Some c, Some d =>
                      parse_chars t2 (((a * 16 + b) * 16 + c) * 16 + d :: acc)%N
                  | _, _, _, _ => None
                  end
              | _ => None
              end
            else
              match simple_escape e with
              | Some v => parse_chars t1 (v :: acc)
              | None => None
              end
        | [] => None
        end
      else if N.ltb x 32 then None
      else parse_chars t (x :: acc)
  end.

(** A number literal: its text and what follows it. *)
Definition parse_number (s : jsstring) : option (jsstring * jsstring) :=
  let '(sign, s1) :=
    match s with
    | x :: t => if char_eqb x 45 then ([x], t) else ([], s)
    | [] => ([], s)
    end in
  let ip := take_while is_digit s1 in
  let s2 := drop_while is_digit s1 in
  match ip with
  | [] => None
  | d :: ds =>
      if char_eqb d 48 && truthy_string ds then None
      else
        let frac :=
          match s2 with
          | x :: t =>
              if char_eqb x 46 then
                match take_while is_digit t with
                | [] => None
                | fp => Some (x :: fp, drop_while is_digit t)
                end
              else Some ([], s2)
          | [] => Some ([], s2)
          end in
        match frac with
        | None => None
        | Some (fp, s3) =>
            match s3 with
            | e :: t =>
                if char_eqb e 101 || char_eqb e 69 then
                  let '(es, t') :=
                    match t with
                    | x :: u => if char_eqb x 45 || char_eqb x 43
                                then ([x], u) else ([], t)
                    | [] => ([], t)
                    end in
                  match take_while is_digit t' with
                  | [] => None
                  | ed => Some (sign ++ ip ++ fp ++ e :: es ++ ed,
                                drop_while is_digit t')
                  end
                else Some (sign ++ ip ++ fp, s3)
            | [] => Some (sign ++ ip ++ fp, s3)
            end
        end
  end.

Fixpoint parse_value (n : nat) (s : jsstring) {struct n} : option (json * jsstring) :=
  match n with
  | O => None
  | S n =>
      match skip_ws s with
      | [] => None
      | x :: t =>
          if char_eqb x 91 then
            match skip_ws t with
            | y :: t' => if char_eqb y 93 then Some (JArr [], t')
                         else parse_items n t []
            | [] => None
            end
          else if char_eqb x 123 then
            match skip_ws t with
            | y :: t' => if char_eqb y 125 then Some (JObj [], t')
                         else parse_members n t []
            | [] => None
            end
          else if char_eqb x 34 then
            match parse_chars t [] with
            | Some (v, r) => Some (JStr v, r)
            | None => None
            end
          else if starts_with (str "true") (x :: t) then Some (JBool true, skipn 4 (x :: t))
          else if starts_with (str "false") (x :: t) then Some (JBool false, skipn 5 (x :: t))
          else if starts_with (str "null") (x :: t) then Some (JNull, skipn 4 (x :: t))
          else
            match parse_number (x :: t) with
            | Some (lit, r) => Some (JNum lit, r)
            | None => None
            end
      end
  end
with parse_items (n : nat) (s : jsstring) (acc : list json) {struct n}
  : option (json * jsstring) :=
  match n with
  | O => None
  | S n =>
      match parse_value n s with
      | Some (v, r) =>
          match skip_ws r with
          | y :: t => if char_eqb y 44 then parse_items n t (v :: acc)
                      else if char_eqb y 93 then Some (JArr (rev (v :: acc)), t)
                      else None
          | [] => None
          end
      | None => None
      end
  end
with parse_members (n : nat) (s : jsstring) (acc : list (jsstring * json)) {struct n}
  : option (json * jsstring) :=
  match n with
  | O => None
  | S n =>
      match skip_ws s with
      | q :: t =>
          if char_eqb q 34 then
            match parse_chars t [] with
            | Some (key, r) =>
                match skip_ws r with
                | c :: r' =>
                    if char_eqb c 58 then
                      match parse_value n r' with
                      | Some (v, r2) =>
                          match skip_ws r2 with
                          | y :: t2 =>
                              if char_eqb y 44 then parse_members n t2 ((key, v) :: acc)
                              else if char_eqb y 125
                                   then Some (JObj (rev ((key, v) :: acc)), t2)
                              else None
                          | [] => None
                          end
                      | None => None
                      end
                    else None
                | [] => None
                end
            | None => None
            end
          else None
      | [] => None
      end
  end.

(** The whole text must be one value between white space.  Every call
    consumes a code unit before it recurses, so twice the length is more
    recursion depth than any text needs. *)
Definition json_parse (s : jsstring) : option json :=
  match parse_value (2 * length s + 2) s with
  | Some (v, r) => match skip_ws r with [] => Some v | _ => None end
  | None => None
  end.

(* ===================================================================== *)
(** * [GET /api/analyze]: candidate extraction *)
(* ===================================================================== *)

(** A [Set] of strings: its elements in insertion order. *)
Definition Set_has (x : jsstring) (s : list jsstring) : bool :=
  existsb (jsstring_eqb x) s.

Definition Set_add (x : jsstring) (s : list jsstring) : list jsstring :=
  if Set_has x s then s else s ++ [x].

(** [/\/store\/apps\/details\?id=([^&/]+)/] *)
Definition href_regex : regex :=
  Seq (Lit (str "/store/apps/details?id="))
      (Group 1 (Plus (Chr (fun x => negb (char_eqb x 38 || char_eqb x 47))))).

(** [/\/store\/apps\/details\?id=([\w\.]+)/g] *)
Definition html_regex : regex :=
  Seq (Lit (str "/store/apps/details?id="))
      (Group 1 (Plus (Chr (fun x => is_word x || char_eqb x 46)))).

(** [pkgSet.size >= limit] and [pkgSet.size < limit] *)
Definition size_reached (pkgSet : list jsstring) (limit : Z) : bool :=
  Z.leb limit (Z.of_nat (length pkgSet)).

Definition size_below (pkgSet : list jsstring) (limit : Z) : bool :=
  Z.ltb (Z.of_nat (length pkgSet)) limit.

(** The body of the [each] callback for one anchor, given its [href]
    attribute. *)
Definition scan_anchor (limit : Z) (pkgSet : list jsstring)
    (href : option jsstring) : list jsstring :=
  if size_reached pkgSet limit then pkgSet
  else
    match href with
    | Some h =>
        if truthy_string h then
          match String_match href_regex h with
          | Some m =>
              match capture 1 (m_groups m) with
              | Some id => if truthy_string id then Set_add id pkgSet else pkgSet
              | None => pkgSet
              end
          | None => pkgSet
          end
        else pkgSet
    | None => pkgSet
    end.

(** The [while] loop over the successive results of [regex.exec]: it ends
    when [exec] answers [null] or the set is full.  Group 1 takes part in
    every match of [html_regex] (lemma [html_regex_group]), so [match[1]]
    is a string. *)
Fixpoint scan_html (limit : Z) (pkgSet : list jsstring)
    (matches : list (option jsstring)) : list jsstring :=
  match matches with
  | [] => pkgSet
  | m1 :: rest =>
      if size_below pkgSet limit then
        scan_html limit
          (match m1 with Some id => Set_add id pkgSet | None => pkgSet end) rest
      else pkgSet
  end.

(** [arr.slice(0, limit)] for an integer [limit]; a negative one counts
    from the end. *)
Definition slice_0 (A : Type) (l : list A) (limit : Z) : list A :=
  if Z.ltb limit 0
  then firstn (Z.to_nat (Z.of_nat (length l) + limit)) l
  else firstn (Z.to_nat limit) l.

(** The identifier that one anchor contributes, if any. *)
Definition anchor_id (href : option jsstring) : option jsstring :=
  match href with
  | Some h =>
      if truthy_string h then
        match String_match href_regex h with
        | Some m =>
            match capture 1 (m_groups m) with
            | Some id => if truthy_string id then Some id else None
            | None => None
            end
        | None => None
        end
      else None
  | None => None
  end.

(** The defined elements of a list, in order. *)
Definition defined (A : Type) (l : list (option A)) : list A :=
  flat_map (fun o => match o with Some a => [a] | None => [] end) l.

(** A sequence reduced to the first appearance of each of its elements. *)
Fixpoint first_appearances (l : list jsstring) : list jsstring :=
  match l with
  | [] => []
  | x :: t => x :: filter (fun y => negb (jsstring_eqb x y)) (first_appearances t)
  end.

(** The set once a list of identifiers is added, without a limit and with
    the test [pkgSet.size >= limit] before each addition. *)
Definition add_all (ids s : list jsstring) : list jsstring :=
  fold_left (fun s x => Set_add x s) ids s.

Definition add_upto (limit : Z) (ids s : list jsstring) : list jsstring :=
  fold_left (fun s x => if size_reached s limit then s else Set_add x s) ids s.

Section Candidates.

(** cheerio: the [href] attributes of the elements that
    [a[href*="/store/apps/details?id="]] selects in the markup, in
    document order. *)
Variable anchor_hrefs : jsstring -> list (option jsstring).

Definition packages (searchHtml : jsstring) (limit : Z) : list jsstring :=
  let pkgSet := fold_left (scan_anchor limit) (anchor_hrefs searchHtml) [] in
  let pkgSet :=
    if size_below pkgSet limit
    then scan_html limit pkgSet (exec_all html_regex 0 searchHtml)
    else pkgSet in
  slice_0 pkgSet limit.

(** The identifiers met by the two passes, all of them, in the order in
    which the passes meet them. *)
Definition discovered (searchHtml : jsstring) : list jsstring :=
  defined (map anchor_id (anchor_hrefs searchHtml))
  ++ defined (exec_all html_regex 0 searchHtml).

End Candidates.

(* ===================================================================== *)
(** * [GET /api/analyze]: the detail page of one candidate *)
(* ===================================================================== *)

(** The object that [detailPage.evaluate] returns. *)
Record page_meta := {
  meta_ld : jsstring;
  meta_title : option jsstring;
  meta_description : option jsstring;
  meta_rating : option jsstring;
  meta_installs : option jsstring;
  meta_developer : option jsstring
}.

(** A loaded detail page: [meta] and the four cheerio queries on its
    markup. *)
Record detail_page := {
  dp_meta : page_meta;
  (* $d('[itemprop="description"]').text() *)
  dp_description_text : jsstring;
  (* $d('div:contains("Downloads"), div:contains("Downloads")').text() *)
  dp_downloads_text : jsstring;
  (* $d('meta[itemprop="interactionCount"]').attr('content') *)
  dp_interaction_count : option jsstring;
  (* $d('div:contains("+ downloads")').text() *)
  dp_plus_downloads_text : jsstring
}.

(** An element of [results].  The property [raw: undefined] of the records
    of loaded pages holds no data and is left out. *)
Record competitor := {
  package : jsstring;
  title : jsstring;
  description : jsstring;
  installs : option number;
  rating : option number;
  developer : option jsstring
}.

Definition digit_or_dot (c : char) : bool := (is_digit c || char_eqb c 46)%bool.

(** [/[\d,.]+(?:\+)?\s*(?:downloads|installs)?|[\d\.]+\s*M|\d+\s*K/i] *)
Definition installs_regex : regex :=
  Alt (Seq (Plus (Chr (fun c => is_digit c || char_eqb c 44 || char_eqb c 46)))
      (Seq (Opt (Lit1 43))
      (Seq (Many (Chr is_space))
           (Opt (Alt (LitI (str "downloads")) (LitI (str "installs")))))))
 (Alt (Seq (Plus (Chr digit_or_dot)) (Seq (Many (Chr is_space)) (LitI (str "M"))))
      (Seq (Plus (Chr is_digit)) (Seq (Many (Chr is_space)) (LitI (str "K"))))).

(** [/([\d.]+)\s*out of\s*5/i] *)
Definition rating_out_of_5 : regex :=
  Seq (Group 1 (Plus (Chr digit_or_dot)))
      (Seq (Many (Chr is_space))
      (Seq (LitI (str "out of")) (Seq (Many (Chr is_space)) (Lit1 53)))).

(** [/([\d.]+)\s*star/i] *)
Definition rating_star : regex :=
  Seq (Group 1 (Plus (Chr digit_or_dot)))
      (Seq (Many (Chr is_space)) (LitI (str "star"))).

(** [/Rated\s*([\d.]+)/i] *)
Definition rating_rated : regex :=
  Seq (LitI (str "Rated"))
      (Seq (Many (Chr is_space)) (Group 1 (Plus (Chr digit_or_dot)))).

(** [a || b] on match results. *)
Definition or_else (A : Type) (a b : option A) : option A :=
  match a with Some _ => a | None => b end.

(** [arr.join(sep)] *)
Definition join (sep : jsstring) (l : list jsstring) : jsstring :=
  match l with
  | [] => []
  | x :: t => x ++ flat_map (fun y => sep ++ y) t
  end.

(** [arr.filter(Boolean)] on optional strings. *)
Definition filter_Boolean (l : list (option jsstring)) : list jsstring :=
  flat_map (fun o => match o with
                     | Some s => if truthy_string s then [s] else []
                     | None => []
                     end) l.

Section Detail.

Variable rnd : Q -> number.

(** The record pushed for a page that loaded: the code between
    [detailPage.content()] and [results.push]. *)
Definition extract (pkg : jsstring) (page : detail_page) : competitor :=
  let meta := dp_meta page in
  (* let description = meta.description || null *)
  let description :=
    if truthy_ostring (meta_description meta) then meta_description meta
    else None in
  let description :=
    if negb (truthy_ostring description) then
      let descNode := dp_description_text page in
      if truthy_string descNode then Some (cleanText (Some descNode))
      else description
    else description in
  (* installs *)
  let instTextCandidates :=
    join (str " | ")
      (filter_Boolean [meta_installs meta;
                       Some (dp_downloads_text page);
                       dp_interaction_count page;
                       Some (dp_plus_downloads_text page)]) in
  let installs :=
    if truthy_string instTextCandidates then
      match String_match installs_regex instTextCandidates with
      | Some im => Some (m_text im)
      | None => Some instTextCandidates
      end
    else None in
  (* rating *)
  let rating :=
    if truthy_ostring (meta_rating meta) then
      let r := match meta_rating meta with Some r => r | None => [] end in
      match or_else (String_match rating_out_of_5 r)
              (or_else (String_match rating_star r)
                       (String_match rating_rated r)) with
      | Some m => capture 1 (m_groups m)
      | None => None
      end
    else None in
  (* final cleanup *)
  let description :=
    if truthy_ostring description then cleanText description else [] in
  let title :=
    if truthy_ostring (meta_title meta) then Some (cleanText (meta_title meta))
    else match meta_title meta with
         | Some [] => None
         | other => other
         end in
  (* installs = parseInstallString(installs) || null *)
  let installs :=
    match parseInstallString rnd installs with
    | Some n => if truthy_number n then Some n else None
    | None => None
    end in
  let rating :=
    if truthy_ostring rating then Some (parseFloat rnd
                                          (match rating with Some r => r | None => [] end))
    else None in
  {| package := pkg;
     title := if truthy_ostring title
              then match title with Some t => t | None => [] end
              else pkg;
     description := description;
     installs := installs;
     rating := rating;
     developer := if truthy_ostring (meta_developer meta)
                  then meta_developer meta else None |}.

End Detail.

(** The minimal record of the [catch] block. *)
Definition minimal (pkg : jsstring) : competitor :=
  {| package := pkg; title := pkg; description := []; installs := None;
     rating := None; developer := None |}.

(* ===================================================================== *)
(** * [GET /api/analyze]: the sequential loop over the candidates *)
(* ===================================================================== *)

(** What the browser does with the detail page of one candidate: a step
    before [results.push] rejects ([newPage], [setUserAgent], [goto],
    [evaluate], [content]), or the page loads and [detailPage.close()]
    then resolves or rejects. *)
Inductive page_outcome :=
| PageFails
| PageLoads (page : detail_page) (closes : bool).

(** Computations on the array [results] that may throw: the new array and
    a value, or [None] for an exception. *)
Definition action (A : Type) : Type := list competitor -> option A * list competitor.

Definition ret (A : Type) (a : A) : action A := fun rs => (Some a, rs).

Definition throw (A : Type) : action A := fun rs => (None, rs).

Definition bind (A B : Type) (m : action A) (f : A -> action B) : action B :=
  fun rs => match m rs with
            | (Some a, rs') => f a rs'
            | (None, rs') => (None, rs')
            end.

Definition try_catch (A : Type) (body handler : action A) : action A :=
  fun rs => match body rs with
            | (Some a, rs') => (Some a, rs')
            | (None, rs') => handler rs'
            end.

(** [results.push(r)] *)
Definition push (r : competitor) : action unit := fun rs => (Some tt, rs ++ [r]).

Declare Scope action_scope.
Delimit Scope action_scope with action.
Notation "x <- m ;; k" := (bind m (fun x => k))
  (at level 61, m at next level, right associativity) : action_scope.
Notation "m ;; k" := (bind m (fun _ => k))
  (at level 61, right associativity) : action_scope.

Section Loop.

Variable rnd : Q -> number.
Variable browser : jsstring -> page_outcome.

(** The awaited calls up to [detailPage.content()]. *)
Definition load (pkg : jsstring) : action detail_page :=
  match browser pkg with
  | PageFails => throw _
  | PageLoads page _ => ret page
  end.

(** [await detailPage.close()] *)
Definition close (pkg : jsstring) : action unit :=
  match browser pkg with
  | PageLoads _ false => throw _
  | _ => ret tt
  end.

(** One turn of the [for] loop: the [try] block and its [catch]. *)
Definition visit (pkg : jsstring) : action unit :=
  try_catch
    (page <- load pkg ;;
     push (extract rnd pkg page) ;;
     close pkg)%action
    (push (minimal pkg)).

Fixpoint visit_all (packages : list jsstring) : action unit :=
  match packages with
  | [] => ret tt
  | pkg :: rest => (visit pkg ;; visit_all rest)%action
  end.

(** [results] after the loop. *)
Definition detail_results (packages : list jsstring) : list competitor :=
  snd (visit_all packages []).

End Loop.

(** An element of [competitors] in the response. *)
Record ranked := {
  rank : nat;
  r_package : jsstring;
  r_title : jsstring;
  r_rating : option number;
  r_installs : option number;
  r_developer : option jsstring
}.

(** [results.map((r, i) => ({ rank: i + 1, ... }))], from index [i] on. *)
Fixpoint competitors_from (i : nat) (results : list competitor) : list ranked :=
  match results with
  | [] => []
  | r :: rest =>
      {| rank := i + 1; r_package := package r; r_title := title r;
         r_rating := rating r; r_installs := installs r;
         r_developer := developer r |} :: competitors_from (S i) rest
  end.

Definition competitors (results : list competitor) : list ranked :=
  competitors_from 0 results.

(* ===================================================================== *)
(** * [GET /api/analyze]: keyword frequencies *)
(* ===================================================================== *)

Definition TITLE_BOOST : Z := 3.

Definition stopwords : list jsstring :=
  map str
    ["the"; "and"; "for"; "with"; "from"; "this"; "that"; "have"; "your";
     "more"; "what"; "when"; "where"; "which"; "will"; "app"; "apps";
     "android"; "mobile"; "free"; "pro"; "plus"; "-"; "a"; "an"; "in"; "on";
     "of"; "to"; "by"; "is"; "are"]%string.

(** A [Map] from strings to scores: its entries in insertion order.  The
    scores are sums of the weights 1, 3 and 6, kept as integers. *)
Definition freq_map := list (jsstring * Z).

Fixpoint Map_get (k : jsstring) (m : freq_map) : option Z :=
  match m with
  | [] => None
  | (k', v) :: m' => if jsstring_eqb k' k then Some v else Map_get k m'
  end.

Fixpoint Map_set (k : jsstring) (v : Z) (m : freq_map) : freq_map :=
  match m with
  | [] => [(k, v)]
  | (k', v') :: m' =>
      if jsstring_eqb k' k then (k', v) :: m' else (k', v') :: Map_set k v m'
  end.

(** [freqMap.get(k) || 0] *)
Definition get_or_0 (k : jsstring) (m : freq_map) : Z :=
  match Map_get k m with
  | Some v => if Z.eqb v 0 then 0 else v
  | None => 0
  end.

(** [[\u2018\u2019\u201c\u201d]] *)
Definition curly_quote (c : char) : bool :=
  (char_eqb c 8216 || char_eqb c 8217 || char_eqb c 8220 || char_eqb c 8221)%bool.

(** [[^a-z0-9\s']] *)
Definition not_token_char (c : char) : bool :=
  negb (in_range 97 122 c || is_digit c || is_space c || char_eqb c 39).

Section Keywords.

(** [String.prototype.toLowerCase], a builtin. *)
Variable toLowerCase : jsstring -> jsstring.

Definition tokenize (s : jsstring) : list jsstring :=
  if negb (truthy_string s) then []
  else
    filter truthy_string
      (map trim
         (String_split (Plus (Chr is_space))
            (replace_all (Chr not_token_char) (str " ") 0
               (replace_all (Chr curly_quote) (str "'") 0 (toLowerCase s))))).

(** The body of the two inner [for] loops, with the weight added. *)
Definition count_token (weight : Z) (freqMap : freq_map) (tk : jsstring) : freq_map :=
  if Nat.ltb (length tk) 3 || Set_has tk stopwords then freqMap
  else Map_set tk (get_or_0 tk freqMap + weight) freqMap.

(** One turn of [for (const r of results)]. *)
Definition count_record (freqMap : freq_map) (r : competitor) : freq_map :=
  let tTokens := tokenize (title r) in
  let freqMap := fold_left (count_token TITLE_BOOST) tTokens freqMap in
  let dTokens := tokenize (description r) in
  fold_left (count_token 1) dTokens freqMap.

(** [keyword.split(/\s+/).map(x => x.trim().toLowerCase()).filter(Boolean)] *)
Definition baseTokens (keyword : jsstring) : list jsstring :=
  filter truthy_string
    (map (fun x => toLowerCase (trim x))
       (String_split (Plus (Chr is_space)) keyword)).

(** The body of [for (const t of baseTokens)]. *)
Definition count_seed (freqMap : freq_map) (t : jsstring) : freq_map :=
  if Nat.leb 3 (length t)
  then Map_set t (get_or_0 t freqMap + TITLE_BOOST * 2) freqMap
  else freqMap.

Definition add_seed (keyword : jsstring) (freqMap : freq_map) : freq_map :=
  fold_left count_seed (baseTokens keyword) freqMap.

(** [freqMap] once the competitors and then the keyword are counted. *)
Definition frequencies (results : list competitor) (keyword : jsstring) : freq_map :=
  add_seed keyword (fold_left count_record results []).

End Keywords.

(** [toLowerCase] on ASCII, for keywords and titles written in ASCII. *)
Definition toLowerCase_ascii (s : jsstring) : jsstring := map lower_ascii s.

(** [arr.sort((a, b) => b.score - a.score)]: descending scores, entries
    of equal score in their former order. *)
Fixpoint insert_by_score (e : jsstring * Z) (l : freq_map) : freq_map :=
  match l with
  | [] => [e]
  | h :: t => if Z.ltb (snd e) (snd h) then h :: insert_by_score e t
              else e :: h :: t
  end.

Definition sort_by_score (m : freq_map) : freq_map :=
  fold_right insert_by_score [] m.

(* ===================================================================== *)
(** * [GET /api/analyze]: the difficulty heuristic *)
(* ===================================================================== *)

Record suggestion := {
  s_keyword : jsstring;
  s_score : Z;
  s_difficulty : number
}.

Section Difficulty.

Variable rnd : Q -> number.

(** [results.map(r => r.installs || 0).filter(n => n > 0)] *)
Definition installsList (results : list competitor) : list number :=
  filter (fun n => num_ltb (Fin 0) n)
    (map (fun r => match installs r with
                   | Some n => if truthy_number n then n else Fin 0
                   | None => Fin 0
                   end) results).

Definition avgInstalls (results : list competitor) : number :=
  let l := installsList results in
  match l with
  | [] => Fin 0
  | _ => num_div rnd (fold_left (num_add rnd) l (Fin 0))
           (num_of_Z (Z.of_nat (length l)))
  end.

(** The body of the [map] callback, for the score of one entry. *)
Definition difficulty (avgInstalls score : number) : number :=
  let scale := Math_max (Fin 1) (num_div rnd avgInstalls (Fin 100000)) in
  let difficultyRaw :=
    num_div rnd (num_div rnd avgInstalls (num_add rnd (Fin 1) score))
      (Math_max (Fin 1) scale) in
  let difficulty := Math_round (Math_min (Fin 100) difficultyRaw) in
  if negb (isFinite difficulty) || num_leb difficulty (Fin 0)
  then Math_min (Fin 100)
         (Math_max (Fin 1)
            (Math_round (num_div rnd (Fin 50) (num_add rnd (Fin 1) score))))
  else difficulty.

Definition suggestions (results : list competitor) (freqMap : freq_map)
  : list suggestion :=
  let avg := avgInstalls results in
  map (fun sug => {| s_keyword := fst sug; s_score := snd sug;
                     s_difficulty := difficulty avg (num_of_Z (snd sug)) |})
    (firstn 120 (sort_by_score freqMap)).

End Difficulty.

(* ===================================================================== *)
(** * [GET /api/analyze]: the response *)
(* ===================================================================== *)

Record analysis := {
  a_keyword : jsstring;
  a_country : jsstring;
  a_limit : Z;
  a_topCount : nat;
  a_avgInstalls : number;
  a_competitors : list ranked;
  a_suggestions : list suggestion
}.

Section Analyze.

Variable rnd : Q -> number.
Variable toLowerCase : jsstring -> jsstring.
Variable anchor_hrefs : jsstring -> list (option jsstring).
Variable browser : jsstring -> page_outcome.

(** The handler once the search page is loaded, up to the response, for
    a keyword that is not empty and when [browser.close()] resolves. *)
Definition analyze (keyword country : jsstring) (limit : Z)
    (searchHtml : jsstring) : analysis :=
  let packages := packages anchor_hrefs searchHtml limit in
  let results := detail_results rnd browser packages in
  let freqMap := frequencies toLowerCase results keyword in
  {| a_keyword := keyword;
     a_country := country;
     a_limit := limit;
     a_topCount := length results;
     a_avgInstalls := Math_round (avgInstalls rnd results);
     a_competitors := competitors results;
     a_suggestions := suggestions rnd results freqMap |}.

End Analyze.

(* ===================================================================== *)
(** * Notions and inputs for the statements below *)
(* ===================================================================== *)

(** The seed tokens that are counted: those of three code units or more. *)
Definition counted (tokens : list jsstring) : list jsstring :=
  filter (fun t => Nat.leb 3 (length t)) tokens.

(** The seed tokens as the specification words them: the keyword split on
    white space, each piece in lower case, the empty ones left out. *)
Definition seed_tokens (toLowerCase : jsstring -> jsstring)
    (keyword : jsstring) : list jsstring :=
  filter truthy_string
    (map toLowerCase (String_split (Plus (Chr is_space)) keyword)).


(** The pattern ends with the capture group [i]. *)
Fixpoint closes_with (i : nat) (r : regex) : bool :=
  match r with
  | Group j _ => Nat.eqb i j
  | Seq _ r2 => closes_with i r2
  | _ => false
  end.

(** A search page with three links to one application and one link to
    another, and the [href] attributes that cheerio selects in it. *)
Definition sample_html : jsstring :=
  str "<a href='/store/apps/details?id=com.a&hl=en'>A</a><a href='/store/apps/details?id=com.a'>A</a><a href='https://play.google.com/store/apps/details?id=com.b&gl=us'>B</a><a href='/store/apps/details?id=com.a&x=1'>A</a>".

Definition sample_hrefs (html : jsstring) : list (option jsstring) :=
  match html with
  | [] => []
  | _ => [Some (str "/store/apps/details?id=com.a&hl=en");
          Some (str "/store/apps/details?id=com.a");
          Some (str "https://play.google.com/store/apps/details?id=com.b&gl=us");
          Some (str "/store/apps/details?id=com.a&x=1")]
  end.

(** A response text that is not JSON and in which the pattern finds an
    array that is not JSON either: [["a",[x]]. *)
Definition broken_array : jsstring :=
  str "[" ++ [dquote] ++ str "a" ++ [dquote] ++ str ",[x]".

(** Three candidates whose pages all load; the page of the second then
    fails to close. *)
Definition three_candidates : list jsstring :=
  [str "com.a"; str "com.b"; str "com.c"].

Definition close_fails_on_b (page : detail_page) (pkg : jsstring) : page_outcome :=
  PageLoads page (negb (jsstring_eqb pkg (str "com.b"))).

(** The pages of a list of candidates all close once loaded. *)
Definition pages_close (browser : jsstring -> page_outcome)
    (packages : list jsstring) : Prop :=
  forall pkg page, In pkg packages -> browser pkg <> PageLoads page false.

(** The record that the loop is meant to leave for a candidate. *)
Definition record_of (rnd : Q -> number) (browser : jsstring -> page_outcome)
    (pkg : jsstring) : competitor :=
  match browser pkg with
  | PageFails => minimal pkg
  | PageLoads page _ => extract rnd pkg page
  end.

(** A zero-width space between two spaces: an [a], a space, U+200B, a space and a [b]. *)
Definition spaced_zero_width : jsstring :=
  str "a " ++ [8203%N] ++ str " b".

(** A detail page known by the two labels read from its DOM: the text
    that mentions installs or downloads, and the rating label. *)
Definition page_with (installs_text rating_label : option jsstring) : detail_page :=
  {| dp_meta := {| meta_ld := []; meta_title := Some (str "Sample App");
                   meta_description := Some (str "A  sample   description");
                   meta_rating := rating_label; meta_installs := installs_text;
                   meta_developer := Some (str "Sample Dev") |};
     dp_description_text := []; dp_downloads_text := [];
     dp_interaction_count := None; dp_plus_downloads_text := [] |}.

(** A response of the suggestion source, and the same inside a call. *)
Definition suggest_json_text : jsstring :=
  str "[" ++ [dquote] ++ str "photo" ++ [dquote] ++ str ",["
  ++ [dquote] ++ str "photo editor" ++ [dquote] ++ str ","
  ++ [dquote] ++ str "photo lab" ++ [dquote] ++ str "]]".

Definition suggest_call_text : jsstring :=
  str "window.google.ac.h(" ++ suggest_json_text ++ str ")".

(** A string in which white space is single space characters apart. *)
Fixpoint tidy (s : jsstring) : bool :=
  match s with
  | [] => true
  | x :: t =>
      if is_space x
      then char_eqb x 32
           && match t with y :: _ => negb (is_space y) | [] => true end
           && tidy t
      else tidy t
  end.

(** [s.replace(/\s+/g, ' ')] *)
Definition collapse (s : jsstring) : jsstring :=
  replace_all (Plus (Chr is_space)) (str " ") 0 s.

(* ===================================================================== *)
(** * Notions for the further properties *)
(* ===================================================================== *)

(** The words of a pattern. *)
Inductive lang : regex -> jsstring -> Prop :=
| lang_Eps : lang Eps []
| lang_Chr (p : char -> bool) (x : char) : p x = true -> lang (Chr p) [x]
| lang_Seq (r1 r2 : regex) (w1 w2 : jsstring) :
    lang r1 w1 -> lang r2 w2 -> lang (Seq r1 r2) (w1 ++ w2)
| lang_Alt_l (r1 r2 : regex) (w : jsstring) : lang r1 w -> lang (Alt r1 r2) w
| lang_Alt_r (r1 r2 : regex) (w : jsstring) : lang r2 w -> lang (Alt r1 r2) w
| lang_Star_nil (g : bool) (r : regex) : lang (Star g r) []
| lang_Star_cons (g : bool) (r : regex) (w1 w2 : jsstring) :
    lang r w1 -> lang (Star g r) w2 -> lang (Star g r) (w1 ++ w2)
| lang_Group (i : nat) (r : regex) (w : jsstring) : lang r w -> lang (Group i r) w.

(** Every group of the pattern captures words that satisfy [G]. *)
Fixpoint groups_ok (G : nat -> jsstring -> Prop) (r : regex) : Prop :=
  match r with
  | Eps | Chr _ => True
  | Seq r1 r2 | Alt r1 r2 => groups_ok G r1 /\ groups_ok G r2
  | Star _ r1 => groups_ok G r1
  | Group i r1 => (forall w, lang r1 w -> G i w) /\ groups_ok G r1
  end.

(** The captures at hand satisfy [G]. *)
Definition captures_ok (G : nat -> jsstring -> Prop) (c : captures) : Prop :=
  forall i w, In (i, w) c -> G i w.

(** The code units that the two identifier patterns can both capture:
    all but [&] and [/]. *)
Definition id_char (c : char) : bool := negb (char_eqb c 38 || char_eqb c 47).

(** The identifiers that the anchors of a page contribute, in document
    order. *)
Definition anchor_ids (anchor_hrefs : jsstring -> list (option jsstring))
    (searchHtml : jsstring) : list jsstring :=
  defined (map anchor_id (anchor_hrefs searchHtml)).

(** The text holds none of the letters and of the period that
    [parseInstallString] keeps: what it keeps of the text is digits. *)
Definition plain_count (s : jsstring) : Prop :=
  forall c, In c s -> install_char c = true -> is_digit c = true.

(** A result of [parseInstallString] that is not negative: [null], [NaN]
    or a number from zero up. *)
Definition not_negative (r : option number) : Prop :=
  match r with
  | None => True
  | Some n => n = NaN \/ num_leb (Fin 0) n = true
  end.

(** What [cleanText] guarantees of its result: the only white space is
    the space character, there is no zero-width character, and no white
    space at either end. *)
Definition clean (s : jsstring) : Prop :=
  (forall c, In c s -> is_space c = true -> c = 32%N)
  /\ (forall c, In c s -> zero_width c = false)
  /\ trim s = s.

(** A text between square brackets with no closing bracket inside. *)
Definition bracketed (c : jsstring) : Prop :=
  exists body, c = 91%N :: body ++ [93%N] /\ body <> []
               /\ forallb (fun x => negb (char_eqb x 93)) body = true.

(** The records that one turn of the loop leaves for a candidate. *)
Definition records_for (rnd : Q -> number) (browser : jsstring -> page_outcome)
    (pkg : jsstring) : list competitor :=
  match browser pkg with
  | PageFails => [minimal pkg]
  | PageLoads page true => [extract rnd pkg page]
  | PageLoads page false => [extract rnd pkg page; minimal pkg]
  end.

(** The code units of a token: [a-z0-9']. *)
Definition token_char (c : char) : bool :=
  (in_range 97 122 c || is_digit c || char_eqb c 39)%bool.

(** The tokens of a title or a description that are counted: three code
    units or more, and no stopword. *)
Definition qualifies (tk : jsstring) : bool :=
  negb (Nat.ltb (length tk) 3 || Set_has tk stopwords).

(** The number of times a token occurs in a list of tokens. *)
Definition occurrences (key : jsstring) (tokens : list jsstring) : Z :=
  Z.of_nat (count_occ jsstring_eq_dec tokens key).

Definition sum (l : list Z) : Z := fold_right Z.add 0%Z l.

(** The score that the counting rules give a token: 3 for each occurrence
    in a title and 1 for each occurrence in a description when the token
    qualifies, 6 for each occurrence in the keyword when it has three code
    units or more. *)
Definition score_of (toLowerCase : jsstring -> jsstring)
    (results : list competitor) (keyword key : jsstring) : Z :=
  ((if qualifies key
    then sum (map (fun r => 3 * occurrences key (tokenize toLowerCase (title r))
                            + occurrences key (tokenize toLowerCase (description r)))
                  results)
    else 0)
   + (if Nat.leb 3 (length key)
      then 6 * occurrences key (baseTokens toLowerCase keyword)
      else 0))%Z.

(** The value of a key grew by [a], a weight that is zero or more; with
    [a = 0] the key is as it was. *)
Definition grew_by (key : jsstring) (a : Z) (m m' : freq_map) : Prop :=
  (0 <= a)%Z
  /\ Map_get key m' = (if Z.eqb a 0 then Map_get key m
                       else Some (get_or_0 key m + a)%Z).

(** The keys of a map are pairwise distinct. *)
Definition keys (m : freq_map) : list jsstring := map fst m.

(** Scores from the highest to the lowest. *)
Fixpoint descending (l : list Z) : Prop :=
  match l with
  | [] => True
  | x :: t => (forall y, In y t -> (y <= x)%Z) /\ descending t
  end.

(** The entries of a given score, in their order. *)
Definition of_score (z : Z) (m : freq_map) : freq_map :=
  filter (fun e => Z.eqb (snd e) z) m.

Definition entry (s : suggestion) : jsstring * Z := (s_keyword s, s_score s).

(** A browser whose pages all load and close, with the same content. *)
Definition same_page (page : detail_page) (pkg : jsstring) : page_outcome :=
  PageLoads page true.

(** A browser on which the page of [com.b] fails to load, while the
    others load and close. *)
Definition load_fails_on_b (page : detail_page) (pkg : jsstring) : page_outcome :=
  if jsstring_eqb pkg (str "com.b") then PageFails else PageLoads page true.

(** Records with the install counts 1000 and 2001, and one without. *)
Definition installs_sample : list competitor :=
  [ {| package := str "com.a"; title := str "A"; description := [];
       installs := Some (Fin 1000); rating := None; developer := None |};
    minimal (str "com.b");
    {| package := str "com.c"; title := str "C"; description := [];
       installs := Some (Fin 2001); rating := None; developer := None |} ].

(** [Math.floor] *)
Definition Math_floor (a : number) : number :=
  match a with
  | Fin q => num_of_Z (Qfloor q)
  | _ => a
  end.

Definition REQUEST_DELAY_MS : Z := 700.
Definition EXTRA_DELAY_VARIATION : Z := 600.

(** [randDelay], for the value [random] that [Math.random()] returns. *)
Definition randDelay (rnd : Q -> number) (random : Q) : number :=
  num_add rnd (num_of_Z REQUEST_DELAY_MS)
    (Math_floor (num_mul rnd (Fin random) (num_of_Z EXTRA_DELAY_VARIATION))).

(** [x || d] for a query parameter that is a string or is absent. *)
Definition or_default (x : option jsstring) (d : jsstring) : jsstring :=
  match x with
  | Some s => if truthy_string s then s else d
  | None => d
  end.

(** [(req.query.keyword || '').trim()] *)
Definition request_keyword (keyword : option jsstring) : jsstring :=
  trim (or_default keyword []).

(** [if (!keyword) return res.status(400).json({ error: 'keyword required' })] *)
Definition keyword_required (keyword : option jsstring) : bool :=
  negb (truthy_string (request_keyword keyword)).

(** [Math.min(50, parseInt(req.query.limit || '20', 10))] *)
Definition request_limit (rnd : Q -> number) (limit : option jsstring) : number :=
  Math_min (Fin 50) (parseInt rnd (or_default limit (str "20"))).

(* ===================================================================== *)
(** * Properties: strings, sets and the matcher *)
(* ===================================================================== *)

Lemma jsstring_eqb_spec (a b : jsstring) : reflect (a = b) (jsstring_eqb a b).
Proof.
  revert b; induction a as [|x a IH]; intros [|y b]; simpl;
    try (constructor; congruence).
  unfold char_eqb. destruct (N.eqb_spec x y) as [->|Hxy]; simpl.
  - destruct (IH b) as [->|Hab]; constructor; congruence.
  - constructor; congruence.
Qed.

Lemma jsstring_eqb_refl (a : jsstring) : jsstring_eqb a a = true.
Proof. destruct (jsstring_eqb_spec a a); congruence. Qed.

Lemma jsstring_eqb_neq (a b : jsstring) : a <> b -> jsstring_eqb a b = false.
Proof. destruct (jsstring_eqb_spec a b); congruence. Qed.

Lemma Set_has_In (x : jsstring) (s : list jsstring) :
  Set_has x s = true <-> In x s.
Proof.
  unfold Set_has. rewrite existsb_exists. split.
  - intros [y [Hy He]]. destruct (jsstring_eqb_spec x y); congruence.
  - intros H. exists x. split; [assumption | apply jsstring_eqb_refl].
Qed.

Lemma Set_has_not_In (x : jsstring) (s : list jsstring) :
  Set_has x s = false <-> ~ In x s.
Proof.
  rewrite <- Set_has_In. destruct (Set_has x s); split; congruence.
Qed.

Lemma Set_add_NoDup (x : jsstring) (s : list jsstring) :
  NoDup s -> NoDup (Set_add x s).
Proof.
  intros H. unfold Set_add. destruct (Set_has x s) eqn:E; [assumption|].
  apply Set_has_not_In in E.
  apply NoDup_rev in H. rewrite <- (rev_involutive (s ++ [x])).
  apply NoDup_rev. rewrite rev_app_distr. simpl. constructor; [|assumption].
  now rewrite <- in_rev.
Qed.

Lemma Set_add_length (x : jsstring) (s : list jsstring) :
  (length (Set_add x s) <= S (length s))%nat.
Proof.
  unfold Set_add. destruct (Set_has x s); [lia|].
  rewrite length_app. simpl. lia.
Qed.

(** ** The set filled without a limit *)

Lemma add_all_extends (ids s : list jsstring) :
  exists t, add_all ids s = s ++ t.
Proof.
  unfold add_all. revert s; induction ids as [|x ids IH]; intros s; simpl.
  - exists []. now rewrite app_nil_r.
  - destruct (IH (Set_add x s)) as [t Ht]. rewrite Ht.
    unfold Set_add. destruct (Set_has x s).
    + now exists t.
    + exists (x :: t). now rewrite <- app_assoc.
Qed.

Lemma filter_filter_absorb (s : list jsstring) (x : jsstring) (l : list jsstring) :
  In x s ->
  filter (fun y => negb (Set_has y s)) (filter (fun y => negb (jsstring_eqb x y)) l)
  = filter (fun y => negb (Set_has y s)) l.
Proof.
  intros Hx. induction l as [|y l IH]; simpl; [reflexivity|].
  destruct (jsstring_eqb_spec x y) as [<-|Hne]; simpl.
  - apply Set_has_In in Hx. rewrite Hx. simpl. exact IH.
  - destruct (Set_has y s); simpl; [exact IH | now rewrite IH].
Qed.

Lemma filter_snoc_split (s : list jsstring) (x : jsstring) (l : list jsstring) :
  filter (fun y => negb (Set_has y (s ++ [x]))) l
  = filter (fun y => negb (Set_has y s)) (filter (fun y => negb (jsstring_eqb x y)) l).
Proof.
  induction l as [|y l IH]; simpl; [reflexivity|].
  unfold Set_has at 1. rewrite existsb_app. simpl. rewrite orb_false_r.
  fold (Set_has y s).
  replace (jsstring_eqb y x) with (jsstring_eqb x y).
  2:{ destruct (jsstring_eqb_spec x y) as [->|H].
      - now rewrite jsstring_eqb_refl.
      - symmetry. apply jsstring_eqb_neq. congruence. }
  destruct (jsstring_eqb x y); simpl.
  - rewrite orb_true_r. simpl. exact IH.
  - rewrite orb_false_r. destruct (Set_has y s); simpl; [exact IH | now rewrite IH].
Qed.

Lemma add_all_first_appearances (ids s : list jsstring) :
  add_all ids s
  = s ++ filter (fun y => negb (Set_has y s)) (first_appearances ids).
Proof.
  unfold add_all. revert s; induction ids as [|x ids IH]; intros s; simpl.
  - now rewrite app_nil_r.
  - rewrite IH. unfold Set_add.
    destruct (Set_has x s) eqn:E; simpl.
    + f_equal. symmetry. apply filter_filter_absorb. now apply Set_has_In.
    + rewrite <- app_assoc. simpl. f_equal. f_equal. apply filter_snoc_split.
Qed.

Lemma first_appearances_add_all (ids : list jsstring) :
  add_all ids [] = first_appearances ids.
Proof.
  rewrite add_all_first_appearances. simpl.
  induction (first_appearances ids) as [|y l IH]; simpl; congruence.
Qed.

Lemma first_appearances_In (x : jsstring) (l : list jsstring) :
  In x (first_appearances l) <-> In x l.
Proof.
  induction l as [|y l IH]; simpl; [tauto|].
  rewrite filter_In, IH. split.
  - intros [H|[H _]]; auto.
  - intros [H|H]; auto.
    destruct (jsstring_eqb_spec y x) as [E|E]; auto.
Qed.

Lemma first_appearances_NoDup (l : list jsstring) : NoDup (first_appearances l).
Proof.
  induction l as [|y l IH]; simpl; constructor.
  - rewrite filter_In. intros [_ H]. now rewrite jsstring_eqb_refl in H.
  - now apply NoDup_filter.
Qed.

(** ** The matcher *)

(** The matcher moves forward: what follows a pattern is run on the input
    or on a suffix of it, and a result of the whole is a result of what
    follows. *)
Lemma run_forward (P : jsstring * captures -> Prop) (r : regex) :
  forall (s : jsstring) (c : captures) (k : cont),
    (forall s1 c1 res, length s1 <= length s -> k s1 c1 = Some res -> P res) ->
    forall res, run r s c k = Some res -> P res.
Proof.
  induction r as [|p|r1 IH1 r2 IH2|r1 IH1 r2 IH2|g r1 IH1|i r1 IH1];
    intros s c k Hk res; simpl.
  - now apply Hk.
  - destruct s as [|x t]; [discriminate|].
    destruct (p x); [apply Hk; simpl; lia | discriminate].
  - apply IH1. intros s1 c1 res1 Hs1. apply IH2.
    intros s2 c2 res2 Hs2. apply Hk. lia.
  - destruct (run r1 s c k) eqn:E1.
    + intros [= <-]. eapply IH1; eassumption.
    + now apply IH2.
  - assert (Hiter : forall n s0 c0 res0, length s0 <= length s ->
      (fix iter (n : nat) (s : jsstring) (c : captures) {struct n} :=
         match n with
         | O => k s c
         | S n' =>
             let again s' c' :=
               if Nat.ltb (length s') (length s) then iter n' s' c' else None in
             if g then
               match run r1 s c again with
               | Some res => Some res
               | None => k s c
               end
             else
               match k s c with
               | Some res => Some res
               | None => run r1 s c again
               end
         end) n s0 c0 = Some res0 -> P res0).
    { induction n as [|n IHn]; intros s0 c0 res0 Hs0; [now apply Hk|].
      assert (Hagain : forall s1 c1 res1, length s1 <= length s0 ->
        (if Nat.ltb (length s1) (length s0)
         then (fix iter (n : nat) (s : jsstring) (c : captures) {struct n} :=
                 match n with
                 | O => k s c
                 | S n' =>
                     let again s' c' :=
                       if Nat.ltb (length s') (length s) then iter n' s' c' else None in
                     if g then
                       match run r1 s c again with
                       | Some res => Some res
                       | None => k s c
                       end
                     else
                       match k s c with
                       | Some res => Some res
                       | None => run r1 s c again
                       end
                 end) n s1 c1
         else None) = Some res1 -> P res1).
      { intros s1 c1 res1 _.
        destruct (Nat.ltb_spec (length s1) (length s0)); [|discriminate].
        apply IHn. lia. }
      destruct g; cbv zeta.
      - match goal with |- match ?m with _ => _ end = _ -> _ =>
          destruct m eqn:E1 end.
        + intros [= <-]. eapply IH1; [|exact E1]. exact Hagain.
        + now apply Hk.
      - destruct (k s0 c0) eqn:E1.
        + intros [= <-]. eapply Hk; eassumption.
        + apply IH1. exact Hagain. }
    apply Hiter. lia.
  - apply IH1. intros s1 c1 res1 Hs1. now apply Hk.
Qed.

Lemma run_result (P : jsstring * captures -> Prop) (r : regex)
    (s : jsstring) (c : captures) (k : cont) :
  (forall s1 c1 res, k s1 c1 = Some res -> P res) ->
  forall res, run r s c k = Some res -> P res.
Proof.
  intros Hk. apply run_forward. intros s1 c1 res _. apply Hk.
Qed.

(** A match never ends before the point where it starts. *)
Lemma match_here_forward (r : regex) (s s' : jsstring) (c : captures) :
  match_here r s = Some (s', c) -> length s' <= length s.
Proof.
  unfold match_here.
  apply (run_forward (fun res => length (fst res) <= length s)).
  intros s1 c1 res Hs1 [= <-]. exact Hs1.
Qed.

(** A pattern that opens with a character class has no empty match. *)
Lemma match_here_consumes (p : char -> bool) (r1 r2 : regex)
    (s s' : jsstring) (c : captures) :
  match_here (Seq (Seq (Chr p) r1) r2) s = Some (s', c) -> length s' < length s.
Proof.
  unfold match_here. intros H.
  change (run (Chr p) s []
            (fun s1 c1 => run r1 s1 c1
               (fun s2 c2 => run r2 s2 c2 (fun s3 c3 => Some (s3, c3))))
          = Some (s', c)) in H.
  destruct s as [|x t]; [discriminate|]. simpl in H.
  destruct (p x); [|discriminate].
  revert H. apply (run_forward (fun res => length (fst res) < length (x :: t))).
  intros s1 c1 res Hs1.
  apply (run_forward (fun res => length (fst res) < length (x :: t))).
  intros s2 c2 res2 Hs2 [= <-]. simpl. lia.
Qed.

(** The matches of [html_regex] are not empty, so that each [exec] of the
    loop resumes further in the markup. *)
Lemma html_match_nonempty (s s' : jsstring) (c : captures) :
  match_here html_regex s = Some (s', c) -> length s' < length s.
Proof.
  change html_regex
    with (Seq (Seq (Chr (char_eqb 47)) (Lit (str "store/apps/details?id=")))
              (Group 1 (Plus (Chr (fun x => is_word x || char_eqb x 46))))).
  apply match_here_consumes.
Qed.

(** A group that closes a pattern takes part in each of its matches. *)
Lemma closing_group_run (i : nat) (P : jsstring * captures -> Prop) (r : regex) :
  closes_with i r = true ->
  forall (s : jsstring) (c : captures) (k : cont),
    (forall s1 c1 res, (exists id, capture i c1 = Some id) ->
                       k s1 c1 = Some res -> P res) ->
    forall res, run r s c k = Some res -> P res.
Proof.
  induction r as [|p|r1 IH1 r2 IH2|r1 IH1 r2 IH2|g r1 IH1|j r1 IH1];
    simpl; try discriminate; intros Hr s c k Hk.
  - apply run_result. intros s1 c1. now apply IH2.
  - apply run_result. intros s1 c1 res. apply Hk. simpl.
    rewrite Hr. eauto.
Qed.

Lemma closing_group (i : nat) (r : regex) (s s' : jsstring) (c : captures) :
  closes_with i r = true ->
  match_here r s = Some (s', c) -> exists id, capture i c = Some id.
Proof.
  intros Hr. unfold match_here.
  apply (@closing_group_run i (fun res => exists id, capture i (snd res) = Some id)
           r Hr).
  intros s1 c1 res Hc [= <-]. exact Hc.
Qed.

(** Group 1 takes part in every match of the patterns that read an
    identifier or an array. *)
Lemma html_regex_group (s s' : jsstring) (c : captures) :
  match_here html_regex s = Some (s', c) -> exists id, capture 1 c = Some id.
Proof. now apply closing_group. Qed.

Lemma href_regex_group (s s' : jsstring) (c : captures) :
  match_here href_regex s = Some (s', c) -> exists id, capture 1 c = Some id.
Proof. now apply closing_group. Qed.

Lemma suggest_regex_group (s s' : jsstring) (c : captures) :
  match_here suggest_regex s = Some (s', c) -> exists a, capture 1 c = Some a.
Proof. now apply closing_group. Qed.

Lemma exec_all_html_defined (s : jsstring) (skip : nat) :
  Forall (fun m1 => exists id, m1 = Some id) (exec_all html_regex skip s).
Proof.
  revert skip; induction s as [|x t IH]; intros skip; simpl; [constructor|].
  destruct skip as [|k]; [|apply IH].
  destruct (match_here html_regex (x :: t)) as [[s' c]|] eqn:E; [|apply IH].
  constructor; [|apply IH].
  destruct (html_regex_group _ E) as [id Hid]. eauto.
Qed.

(* ===================================================================== *)
(** * Candidate extraction *)
(* ===================================================================== *)

(** ** The set filled up to the limit *)

Lemma size_below_reached (s : list jsstring) (limit : Z) :
  size_below s limit = negb (size_reached s limit).
Proof. unfold size_below, size_reached. apply Z.ltb_antisym. Qed.

Lemma add_upto_full (limit : Z) (ids s : list jsstring) :
  size_reached s limit = true -> add_upto limit ids s = s.
Proof.
  intros H. unfold add_upto. induction ids as [|x ids IH]; simpl; [reflexivity|].
  now rewrite H.
Qed.

Lemma scan_anchor_id (limit : Z) (s : list jsstring) (href : option jsstring) :
  scan_anchor limit s href
  = match anchor_id href with
    | Some id => if size_reached s limit then s else Set_add id s
    | None => s
    end.
Proof.
  unfold scan_anchor, anchor_id.
  destruct (size_reached s limit);
    repeat match goal with
           | |- context [match ?x with _ => _ end] => destruct x
           end; reflexivity.
Qed.

Lemma scan_anchors_add_upto (limit : Z) (hrefs : list (option jsstring))
    (s : list jsstring) :
  fold_left (scan_anchor limit) hrefs s
  = add_upto limit (defined (map anchor_id hrefs)) s.
Proof.
  unfold add_upto. revert s; induction hrefs as [|h hrefs IH]; intros s; simpl;
    [reflexivity|].
  rewrite IH, scan_anchor_id. unfold defined. simpl.
  rewrite fold_left_app.
  destruct (anchor_id h); reflexivity.
Qed.

Lemma scan_html_add_upto (limit : Z) (ms : list (option jsstring))
    (s : list jsstring) :
  scan_html limit s ms = add_upto limit (defined ms) s.
Proof.
  revert s; induction ms as [|m1 ms IH]; intros s; simpl; [reflexivity|].
  rewrite size_below_reached. destruct (size_reached s limit) eqn:E; simpl.
  - symmetry. now apply add_upto_full.
  - rewrite IH. unfold add_upto, defined. simpl. rewrite fold_left_app.
    destruct m1; simpl; [now rewrite E | reflexivity].
Qed.

Lemma firstn_exact (A : Type) (s t : list A) (n : nat) :
  length s = n -> firstn n (s ++ t) = s.
Proof.
  intros <-. rewrite firstn_app, Nat.sub_diag, firstn_all. simpl.
  apply app_nil_r.
Qed.

Lemma firstn_NoDup (A : Type) (l : list A) (n : nat) :
  NoDup l -> NoDup (firstn n l).
Proof.
  intros H. rewrite <- (firstn_skipn n l) in H.
  now apply NoDup_app_remove_r in H.
Qed.

Lemma add_upto_firstn (limit : Z) (ids s : list jsstring) :
  (0 <= limit)%Z -> (length s <= Z.to_nat limit)%nat ->
  add_upto limit ids s = firstn (Z.to_nat limit) (add_all ids s).
Proof.
  intros Hl. unfold add_upto, add_all.
  revert s; induction ids as [|x ids IH]; intros s Hs; simpl.
  - symmetry. now apply firstn_all2.
  - destruct (size_reached s limit) eqn:E.
    + unfold size_reached in E. apply Z.leb_le in E.
      assert (Hlen : length s = Z.to_nat limit) by lia.
      rewrite IH by assumption.
      destruct (add_all_extends ids s) as [t Ht].
      destruct (add_all_extends ids (Set_add x s)) as [t' Ht'].
      unfold add_all in Ht, Ht'. rewrite Ht, Ht'.
      rewrite (firstn_exact s t Hlen).
      unfold Set_add. destruct (Set_has x s).
      * now rewrite (firstn_exact s t' Hlen).
      * rewrite <- app_assoc. now rewrite (firstn_exact s _ Hlen).
    + apply IH. unfold size_reached in E. apply Z.leb_gt in E.
      pose proof (Set_add_length x s). lia.
Qed.

Section CandidatesFacts.

Variable anchor_hrefs : jsstring -> list (option jsstring).

Lemma packages_first_appearances (searchHtml : jsstring) (limit : Z) :
  (0 <= limit)%Z ->
  packages anchor_hrefs searchHtml limit
  = firstn (Z.to_nat limit)
      (first_appearances (discovered anchor_hrefs searchHtml)).
Proof.
  intros Hl. unfold packages, discovered.
  rewrite scan_anchors_add_upto.
  set (s1 := add_upto limit _ []).
  assert (H2 : (if size_below s1 limit
                then scan_html limit s1 (exec_all html_regex 0 searchHtml)
                else s1)
               = add_upto limit (defined (exec_all html_regex 0 searchHtml)) s1).
  { rewrite scan_html_add_upto, size_below_reached.
    destruct (size_reached s1 limit) eqn:E; simpl; [|reflexivity].
    symmetry. now apply add_upto_full. }
  rewrite H2. subst s1. unfold add_upto at 1 2. rewrite <- fold_left_app.
  fold (add_upto limit
          (defined (map anchor_id (anchor_hrefs searchHtml))
           ++ defined (exec_all html_regex 0 searchHtml)) []).
  rewrite add_upto_firstn by (simpl; lia).
  rewrite first_appearances_add_all.
  unfold slice_0. destruct (Z.ltb_spec limit 0); [lia|].
  rewrite firstn_firstn. now rewrite Nat.min_id.
Qed.

(** C1.  For every markup and every limit from 1 to 50, the candidate
    extraction returns at most [limit] identifiers, without duplicates:
    the first [limit] of the identifiers met by the anchor scan and then
    by the scan of the raw markup, each at its first appearance.  When
    the markup is empty (and so has no anchor) the result is empty. *)
Theorem packages_bounded_unique_ordered (searchHtml : jsstring) (limit : Z) :
  (1 <= limit <= 50)%Z ->
  (Z.of_nat (length (packages anchor_hrefs searchHtml limit)) <= limit)%Z
  /\ NoDup (packages anchor_hrefs searchHtml limit)
  /\ packages anchor_hrefs searchHtml limit
     = firstn (Z.to_nat limit)
         (first_appearances (discovered anchor_hrefs searchHtml))
  /\ (anchor_hrefs [] = [] -> packages anchor_hrefs [] limit = []).
Proof.
  intros Hl.
  assert (H0 : (0 <= limit)%Z) by lia.
  split; [|split; [|split]].
  - rewrite packages_first_appearances by assumption.
    pose proof (firstn_le_length (Z.to_nat limit)
                  (first_appearances (discovered anchor_hrefs searchHtml))).
    lia.
  - rewrite packages_first_appearances by assumption.
    apply firstn_NoDup. apply first_appearances_NoDup.
  - now apply packages_first_appearances.
  - intros He. rewrite packages_first_appearances by assumption.
    unfold discovered. rewrite He. simpl. apply firstn_nil.
Qed.

End CandidatesFacts.

Lemma packages_bounded_unique_ordered_witness :
  (1 <= 10 <= 50)%Z
  /\ sample_hrefs [] = []
  /\ (Z.of_nat (length (packages sample_hrefs sample_html 10)) <= 10)%Z
  /\ NoDup (packages sample_hrefs sample_html 10)
  /\ packages sample_hrefs sample_html 10
     = firstn (Z.to_nat 10) (first_appearances (discovered sample_hrefs sample_html))
  /\ packages sample_hrefs [] 10 = [].
Proof.
  assert (H : (1 <= 10 <= 50)%Z) by lia.
  destruct (packages_bounded_unique_ordered sample_hrefs sample_html H)
    as [H1 [H2 [H3 H4]]].
  split; [exact H|]. split; [reflexivity|]. split; [exact H1|].
  split; [exact H2|]. split; [exact H3|]. apply H4. reflexivity.
Defined.

(** Three links to one identifier and one to another, limit 10: the two
    identifiers in the order in which they are first seen. *)
Example packages_sample :
  packages sample_hrefs sample_html 10 = [str "com.a"; str "com.b"].
Proof. reflexivity. Qed.

(** A limit of 1 keeps the first identifier only. *)
Example packages_sample_limit_1 :
  packages sample_hrefs sample_html 1 = [str "com.a"].
Proof. reflexivity. Qed.

(* ===================================================================== *)
(** * The exact rounding *)
(* ===================================================================== *)

Lemma exact_rounding_monotone : monotone exact_rounding.
Proof.
  intros p q H. unfold exact_rounding. simpl. apply Qle_bool_iff.
  now rewrite !Qred_correct.
Defined.

Lemma Qred_inject_Z (z : Z) : Qred (inject_Z z) = inject_Z z.
Proof.
  unfold Qred, inject_Z.
  pose proof (Z.ggcd_gcd z 1) as Hg.
  pose proof (Z.ggcd_correct_divisors z 1) as Hd.
  destruct (Z.ggcd z 1) as [g [aa bb]]. simpl in *.
  rewrite Z.gcd_1_r in Hg. subst g. destruct Hd as [Ha Hb].
  replace aa with z by lia. replace bb with 1%Z by lia. reflexivity.
Defined.

Lemma exact_rounding_integers : exact_on_integers exact_rounding.
Proof. intros z _. unfold exact_rounding. now rewrite Qred_inject_Z. Defined.


(* ===================================================================== *)
(** * The difficulty heuristic *)
(* ===================================================================== *)


(** ** Rounding to an integer *)

Lemma inject_Z_le_inv (a b : Z) : (inject_Z a <= inject_Z b)%Q -> (a <= b)%Z.
Proof. unfold Qle. simpl. lia. Qed.

Lemma num_of_Z_positive (z : Z) :
  num_leb (num_of_Z z) (Fin 0) = false -> (1 <= z)%Z.
Proof.
  unfold num_of_Z, num_leb. intros H.
  destruct (Z.le_gt_cases z 0) as [Hz|Hz]; [|lia].
  assert (Hq : (inject_Z z <= 0)%Q) by (unfold Qle; simpl; lia).
  apply Qle_bool_iff in Hq. congruence.
Qed.

Lemma round_upper (q : Q) (b : Z) :
  (q <= inject_Z b)%Q -> (Qfloor (q + (1 # 2)) <= b)%Z.
Proof.
  intros H. pose proof (Qfloor_le (q + (1 # 2))) as Hf.
  assert (Hle : (inject_Z (Qfloor (q + (1 # 2))) <= inject_Z b + (1 # 2))%Q) by lra.
  revert Hle. generalize (Qfloor (q + (1 # 2))). intros f.
  unfold Qle. simpl. lia.
Qed.

Lemma round_lower (q : Q) : (0 <= q)%Q -> (0 <= Qfloor (q + (1 # 2)))%Z.
Proof.
  intros H. change 0%Z with (Qfloor 0). apply Qfloor_resp_le. lra.
Qed.

(** The first estimate, when it is kept, is an integer from 1 to 100,
    whatever the raw value is. *)
Lemma kept_estimate (raw : number) :
  let d := Math_round (Math_min (Fin 100) raw) in
  negb (isFinite d) || num_leb d (Fin 0) = false ->
  exists z : Z, (1 <= z <= 100)%Z /\ d = num_of_Z z.
Proof.
  intros d H. apply orb_false_elim in H. destruct H as [Hfin Hpos].
  assert (Hd : exists q, (q <= 100)%Q /\ d = num_of_Z (Qfloor (q + (1 # 2)))).
  { subst d. destruct raw as [| | |q]; simpl in *; try discriminate.
    - exists 100%Q. split; [lra | reflexivity].
    - destruct (Qle_bool 100 q) eqn:E; simpl.
      + exists 100%Q. split; [lra | reflexivity].
      + exists q. split; [|reflexivity].
        destruct (Qlt_le_dec 100 q) as [Hlt|Hle]; [|assumption].
        assert (Hq : (100 <= q)%Q) by lra.
        apply Qle_bool_iff in Hq. congruence. }
  destruct Hd as [q [Hq Hd]]. rewrite Hd in Hpos |- *.
  exists (Qfloor (q + (1 # 2))). split; [|reflexivity].
  split.
  - now apply num_of_Z_positive.
  - now apply (@round_upper q 100).
Qed.

(** The substitute is an integer from 1 to 100 whenever it rounds a value
    from 0 to 50. *)
Lemma clamp_round (y : Q) :
  (0 <= y <= 50)%Q ->
  exists z : Z, (1 <= z <= 100)%Z /\
    Math_min (Fin 100) (Math_max (Fin 1) (Math_round (Fin y))) = num_of_Z z.
Proof.
  intros [H0 H50].
  change (Math_round (Fin y)) with (num_of_Z (Qfloor (y + (1 # 2)))).
  pose proof (round_lower H0) as Hl.
  pose proof (@round_upper y 50 H50) as Hu.
  set (z := Qfloor (y + (1 # 2))) in *.
  assert (Hmax : exists z', (1 <= z' <= 50)%Z /\
                   Math_max (Fin 1) (num_of_Z z) = num_of_Z z').
  { unfold Math_max, num_of_Z, num_leb.
    destruct (Qle_bool 1 (inject_Z z)) eqn:E.
    - exists z. split; [|reflexivity]. apply Qle_bool_iff in E.
      apply (@inject_Z_le_inv 1 z) in E. lia.
    - exists 1%Z. split; [lia | reflexivity]. }
  destruct Hmax as [z' [Hz' ->]]. exists z'. split; [lia|].
  unfold Math_min, num_of_Z, num_leb.
  destruct (Qle_bool 100 (inject_Z z')) eqn:E; [|reflexivity].
  apply Qle_bool_iff in E. apply (@inject_Z_le_inv 100 z') in E. lia.
Qed.

Section DifficultyFacts.

Variable rnd : Q -> number.
Hypothesis rnd_monotone : monotone rnd.
Hypothesis rnd_integers : exact_on_integers rnd.

Lemma num_leb_Fin_l (a : Q) (x : number) :
  num_leb (Fin a) x = true -> x = PInf \/ exists d, x = Fin d /\ (a <= d)%Q.
Proof.
  destruct x as [| | |d]; simpl; try discriminate; auto.
  intros H. right. exists d. split; [reflexivity | now apply Qle_bool_iff].
Qed.

Lemma between (a b : Z) (q : Q) :
  (Z.abs a <= 2 ^ 53)%Z -> (Z.abs b <= 2 ^ 53)%Z ->
  (inject_Z a <= q <= inject_Z b)%Q ->
  exists y, rnd q = Fin y /\ (inject_Z a <= y <= inject_Z b)%Q.
Proof.
  intros Ha Hb [H1 H2].
  assert (M1 := H1). apply rnd_monotone in M1.
  assert (M2 := H2). apply rnd_monotone in M2.
  rewrite rnd_integers in M1 by assumption. rewrite rnd_integers in M2 by assumption.
  destruct (rnd q) as [| | |y]; simpl in *; try discriminate.
  exists y. split; [reflexivity|]. split; now apply Qle_bool_iff.
Qed.

Lemma one_plus_score (score : number) :
  num_leb (Fin 0) score = true ->
  num_leb (Fin 1) (num_add rnd (Fin 1) score) = true.
Proof.
  intros H. destruct (@num_leb_Fin_l _ _ H) as [->|[s [-> Hs]]]; [reflexivity|].
  simpl num_add.
  assert (H1 : (inject_Z 1 <= 1 + s)%Q) by (change (inject_Z 1) with 1%Q; lra).
  assert (M := H1). apply rnd_monotone in M.
  rewrite rnd_integers in M by (simpl; lia).
  exact M.
Qed.

Lemma substitute_estimate (score : number) :
  num_leb (Fin 0) score = true ->
  exists z : Z, (1 <= z <= 100)%Z /\
    Math_min (Fin 100)
      (Math_max (Fin 1)
         (Math_round (num_div rnd (Fin 50) (num_add rnd (Fin 1) score))))
    = num_of_Z z.
Proof.
  intros H. pose proof (@one_plus_score _ H) as H1.
  destruct (@num_leb_Fin_l _ _ H1) as [->|[d [-> Hd]]].
  - simpl num_div. apply clamp_round. lra.
  - unfold num_div.
    assert (Hz : Qzero_b d = false).
    { unfold Qzero_b. apply Z.eqb_neq. unfold Qle in Hd. simpl in Hd. lia. }
    rewrite Hz.
    assert (Hdpos : (0 < d)%Q) by lra.
    destruct (@between 0 50 (50 / d)) as [y [-> Hy]]; try (simpl; lia).
    + change (inject_Z 0) with 0%Q. change (inject_Z 50) with 50%Q. split.
      * apply Qle_shift_div_l; [assumption | lra].
      * apply Qle_shift_div_r; [assumption | lra].
    + apply clamp_round. exact Hy.
Qed.

(** C2.  For every score [S >= 0] and every average [A >= 0] the
    difficulty is an integer from 1 to 100, for any rounding of the
    arithmetic that is monotone and exact on integers. *)
Theorem difficulty_in_1_100 (avg score : number) :
  num_leb (Fin 0) score = true ->
  num_leb (Fin 0) avg = true ->
  exists z : Z, (1 <= z <= 100)%Z /\ difficulty rnd avg score = num_of_Z z.
Proof.
  intros Hs _. unfold difficulty.
  match goal with
  | |- context [if ?b then _ else _] => destruct b eqn:E
  end.
  - now apply substitute_estimate.
  - now apply kept_estimate.
Qed.

End DifficultyFacts.

Lemma difficulty_in_1_100_witness :
  monotone exact_rounding
  /\ exact_on_integers exact_rounding
  /\ num_leb (Fin 0) (Fin 6) = true
  /\ num_leb (Fin 0) (Fin 2500000) = true
  /\ exists z : Z, (1 <= z <= 100)%Z
       /\ difficulty exact_rounding (Fin 2500000) (Fin 6) = num_of_Z z.
Proof.
  split; [exact exact_rounding_monotone|].
  split; [exact exact_rounding_integers|].
  split; [reflexivity|]. split; [reflexivity|].
  apply (@difficulty_in_1_100 exact_rounding exact_rounding_monotone
           exact_rounding_integers (Fin 2500000) (Fin 6)); reflexivity.
Defined.

(** Average installs of 2,500,000 and a score of 6 give 100; without any
    install count the substitute [50 / (1 + S)] is used. *)
Example difficulty_samples :
  difficulty exact_rounding (Fin 2500000) (Fin 6) = Fin 100
  /\ difficulty exact_rounding (Fin 0) (Fin 6) = Fin 7
  /\ difficulty exact_rounding (Fin 0) (Fin 200) = Fin 1
  /\ difficulty exact_rounding (Fin 120) (Fin 3) = Fin 30.
Proof. repeat split; reflexivity. Qed.

(* ===================================================================== *)
(** * [parseInstallString] *)
(* ===================================================================== *)

(** C3.  [parseInstallString] returns [NaN], not [null], on an input
    whose normalized form has an [M] or a [K] and no digit: on ["M"], on
    ["k"], and on the text ["Most downloads"] of a page without a count. *)
Theorem parseInstallString_NaN (rnd : Q -> number) :
  parseInstallString rnd (Some (str "M")) = Some NaN
  /\ parseInstallString rnd (Some (str "k")) = Some NaN
  /\ parseInstallString rnd (Some (str "Most downloads")) = Some NaN.
Proof. repeat split; reflexivity. Qed.

Section ParseInstallsFacts.

Variable rnd : Q -> number.
Hypothesis rnd_integers : exact_on_integers rnd.


End ParseInstallsFacts.

(** C10.  The [installs] of a record made from a loaded page is [null] or
    a truthy number: never [NaN], never zero. *)
Theorem extract_installs_truthy (rnd : Q -> number) (pkg : jsstring)
    (page : detail_page) :
  installs (extract rnd pkg page) = None
  \/ exists n, installs (extract rnd pkg page) = Some n
               /\ truthy_number n = true
               /\ n <> NaN
               /\ (forall q, n = Fin q -> ~ (q == 0)%Q).
Proof.
  unfold extract. cbn [installs].
  match goal with
  | |- context [parseInstallString rnd ?i] =>
      destruct (parseInstallString rnd i) as [n|]; [|now left]
  end.
  destruct (truthy_number n) eqn:E; [|now left].
  right. exists n. repeat split; try assumption.
  - intros ->. discriminate.
  - intros q -> Hq. simpl in E. apply Qeq_bool_iff in Hq. rewrite Hq in E.
    discriminate.
Qed.

(* ===================================================================== *)
(** * [GET /api/suggest] *)
(* ===================================================================== *)

Section SuggestFacts.

Variable JSON_parse : jsstring -> option json.

(** The text is JSON (and not [null]): the second element when it is an
    array, the empty list otherwise. *)
Lemma suggest_json (txt : jsstring) (data : json) :
  JSON_parse txt = Some data -> data <> JNull ->
  suggest_of_text JSON_parse txt
  = Suggestions (match index_1 data with
                 | Some (Some (JArr items)) => JArr items
                 | _ => JArr []
                 end).
Proof.
  intros Hp Hn. unfold suggest_of_text, suggest_try. rewrite Hp.
  destruct data as [|b|l|s|items|ms]; try congruence;
    unfold index_1; try reflexivity.
  - destruct (nth_error s 1); reflexivity.
  - destruct (nth_error items 1) as [[]|]; reflexivity.
  - destruct (member (str "1") ms) as [[]|]; reflexivity.
Qed.

(** The text is not JSON and the pattern finds nothing: the empty list. *)
Lemma suggest_no_match (txt : jsstring) :
  JSON_parse txt = None -> String_match suggest_regex txt = None ->
  suggest_of_text JSON_parse txt = Suggestions (JArr []).
Proof.
  intros Hp Hm. unfold suggest_of_text, suggest_try, suggest_catch.
  now rewrite Hp, Hm.
Qed.

(** The text is not JSON, the pattern finds an array and that array is
    JSON: the array. *)
Lemma suggest_match (txt : jsstring) (m : match_result) (c : jsstring) (v : json) :
  JSON_parse txt = None -> String_match suggest_regex txt = Some m ->
  capture 1 (m_groups m) = Some c -> JSON_parse c = Some v ->
  suggest_of_text JSON_parse txt = Suggestions v.
Proof.
  intros Hp Hm Hc Hv. unfold suggest_of_text, suggest_try, suggest_catch.
  now rewrite Hp, Hm, Hc, Hv.
Qed.

(** C4.  When the text is not JSON and the array that the pattern finds
    is not JSON either, the handler answers with the failure
    [Suggest failed], not with an empty list; [["a",[x]] is such a
    text. *)
Theorem suggest_fallback_throws (txt : jsstring) (m : match_result) (c : jsstring) :
  JSON_parse txt = None -> String_match suggest_regex txt = Some m ->
  capture 1 (m_groups m) = Some c -> JSON_parse c = None ->
  suggest_of_text JSON_parse txt = SuggestFailed
  /\ suggest_of_text JSON_parse txt <> Suggestions (JArr []).
Proof.
  intros Hp Hm Hc Hv. unfold suggest_of_text, suggest_try, suggest_catch.
  rewrite Hp, Hm, Hc, Hv. split; [reflexivity | discriminate].
Qed.

End SuggestFacts.

Lemma suggest_fallback_throws_witness :
  json_parse broken_array = None
  /\ String_match suggest_regex broken_array
     = Some {| m_index := 0; m_text := broken_array;
               m_groups := [(1, str "[x]")]; m_rest := [] |}
  /\ capture 1 [(1, str "[x]")] = Some (str "[x]")
  /\ json_parse (str "[x]") = None
  /\ suggest_of_text json_parse broken_array = SuggestFailed
  /\ suggest_of_text json_parse broken_array <> Suggestions (JArr []).
Proof.
  split; [reflexivity|]. split; [reflexivity|]. split; [reflexivity|].
  split; [reflexivity|].
  apply (@suggest_fallback_throws json_parse broken_array
           {| m_index := 0; m_text := broken_array;
              m_groups := [(1, str "[x]")]; m_rest := [] |} (str "[x]"));
    reflexivity.
Defined.

(* ===================================================================== *)
(** * Keyword frequencies *)
(* ===================================================================== *)

Lemma Map_get_set_same (k : jsstring) (v : Z) (m : freq_map) :
  Map_get k (Map_set k v m) = Some v.
Proof.
  induction m as [|[k' v'] m IH]; simpl.
  - now rewrite jsstring_eqb_refl.
  - destruct (jsstring_eqb k' k) eqn:E; simpl; rewrite E; [reflexivity | exact IH].
Qed.

Lemma Map_get_set_other (k k0 : jsstring) (v : Z) (m : freq_map) :
  k0 <> k -> Map_get k (Map_set k0 v m) = Map_get k m.
Proof.
  intros Hne. induction m as [|[k' v'] m IH]; simpl.
  - now rewrite jsstring_eqb_neq.
  - destruct (jsstring_eqb_spec k' k0) as [->|H0]; simpl.
    + now rewrite jsstring_eqb_neq.
    + destruct (jsstring_eqb k' k); [reflexivity | exact IH].
Qed.

Lemma get_or_0_value (k : jsstring) (v : Z) (m : freq_map) :
  Map_get k m = Some v -> get_or_0 k m = v.
Proof.
  unfold get_or_0. intros ->. destruct (Z.eqb_spec v 0); congruence.
Qed.

Lemma counted_cons (t : jsstring) (tokens : list jsstring) :
  counted (t :: tokens)
  = if Nat.leb 3 (length t) then t :: counted tokens else counted tokens.
Proof. reflexivity. Qed.

Lemma count_seed_fold (tokens : list jsstring) (key : jsstring) :
  forall freqMap : freq_map,
    Map_get key (fold_left count_seed tokens freqMap)
    = match count_occ jsstring_eq_dec (counted tokens) key with
      | O => Map_get key freqMap
      | S n => Some (get_or_0 key freqMap + TITLE_BOOST * 2 * Z.of_nat (S n))%Z
      end.
Proof.
  induction tokens as [|t tokens IH]; intros freqMap; [reflexivity|].
  cbn [fold_left]. rewrite IH, counted_cons. unfold count_seed.
  destruct (Nat.leb 3 (length t)) eqn:El; [|reflexivity].
  cbn [count_occ].
  destruct (jsstring_eq_dec t key) as [->|Hne].
  - set (m' := Map_set key (get_or_0 key freqMap + TITLE_BOOST * 2)%Z freqMap).
    assert (Hg : Map_get key m' = Some (get_or_0 key freqMap + TITLE_BOOST * 2)%Z)
      by apply Map_get_set_same.
    rewrite (get_or_0_value _ _ Hg), Hg.
    destruct (count_occ jsstring_eq_dec (counted tokens) key); f_equal; lia.
  - unfold get_or_0. rewrite (Map_get_set_other _ _ Hne). reflexivity.
Qed.

(* ===================================================================== *)
(** * The sequential loop *)
(* ===================================================================== *)

Section LoopFacts.

Variable rnd : Q -> number.

Lemma visit_all_app (browser : jsstring -> page_outcome)
    (packages : list jsstring) (rs : list competitor) :
  exists added,
    visit_all rnd browser packages rs = (Some tt, rs ++ added)
    /\ added = snd (visit_all rnd browser packages []).
Proof.
  revert rs. induction packages as [|pkg rest IH]; intros rs.
  - exists []. simpl. unfold ret. now rewrite app_nil_r.
  - cbn [visit_all]. unfold bind at 1.
    assert (Hv : forall rs0, exists one,
               visit rnd browser pkg rs0 = (Some tt, rs0 ++ one)
               /\ one = snd (visit rnd browser pkg [])).
    { intros rs0. unfold visit, try_catch, bind, load, close, push, ret, throw.
      destruct (browser pkg) as [|page [|]]; simpl;
        eexists; split; try reflexivity.
      now rewrite <- app_assoc. }
    destruct (Hv rs) as [one [E1 H1]]. rewrite E1.
    destruct (IH (rs ++ one)) as [more [E2 H2]]. rewrite E2.
    exists (one ++ more). split; [now rewrite app_assoc|].
    unfold bind. destruct (Hv []) as [one' [E1' H1']]. rewrite E1'.
    simpl. destruct (IH one') as [more' [E2' H2']]. rewrite E2'. simpl.
    congruence.
Qed.

(** When every loaded page closes, the loop leaves one record per
    candidate, in the order of the candidates, and the minimal record
    for each page that failed to load. *)
Lemma detail_results_when_pages_close (browser : jsstring -> page_outcome)
    (packages : list jsstring) :
  pages_close browser packages ->
  detail_results rnd browser packages = map (record_of rnd browser) packages.
Proof.
  unfold detail_results. induction packages as [|pkg rest IH]; intros Hc;
    [reflexivity|].
  cbn [visit_all map]. unfold bind at 1.
  assert (Hv : visit rnd browser pkg [] = (Some tt, [record_of rnd browser pkg])).
  { unfold visit, record_of, try_catch, bind, load, close, push, ret, throw.
    destruct (browser pkg) as [|page [|]] eqn:E; simpl; try reflexivity.
    exfalso. apply (Hc pkg page); [now left | exact E]. }
  rewrite Hv.
  destruct (visit_all_app browser rest [record_of rnd browser pkg])
    as [added [E Ha]].
  rewrite E. simpl. f_equal. rewrite Ha. apply IH.
  intros p pg Hin. apply Hc. now right.
Qed.

Lemma competitors_from_ranks (results : list competitor) (i : nat) :
  map rank (competitors_from i results) = seq (i + 1) (length results)
  /\ map r_package (competitors_from i results) = map package results.
Proof.
  revert i; induction results as [|r rest IH]; intros i; simpl; [auto|].
  destruct (IH (S i)) as [H1 H2]. rewrite H1, H2.
  replace (S i + 1)%nat with (S (i + 1)) by lia. auto.
Qed.

(** When every loaded page closes, the competitors are the candidates in
    their order, ranked from 1. *)
Lemma ranks_when_pages_close (browser : jsstring -> page_outcome)
    (packages : list jsstring) :
  pages_close browser packages ->
  map r_package (competitors (detail_results rnd browser packages)) = packages
  /\ map rank (competitors (detail_results rnd browser packages))
     = seq 1 (length packages).
Proof.
  intros Hc. unfold competitors.
  destruct (competitors_from_ranks (detail_results rnd browser packages) 0)
    as [H1 H2].
  rewrite H1, H2, detail_results_when_pages_close by assumption.
  rewrite length_map, map_map. split; [|reflexivity].
  rewrite <- (map_id packages) at 2. apply map_ext. intros pkg.
  unfold record_of. destruct (browser pkg); reflexivity.
Qed.

(** C7.  When the pages of three candidates load and the page of the
    second then fails to close, the loop leaves four records: that
    candidate has both the record of its page and the minimal record. *)
Theorem close_failure_adds_record (page : detail_page) :
  detail_results rnd (close_fails_on_b page) three_candidates
  = [extract rnd (str "com.a") page; extract rnd (str "com.b") page;
     minimal (str "com.b"); extract rnd (str "com.c") page]
  /\ length (detail_results rnd (close_fails_on_b page) three_candidates) = 4%nat.
Proof. split; reflexivity. Qed.

(** C8.  In that run the third candidate has rank 4, and rank 3 goes to
    the second record of the second candidate. *)
Theorem close_failure_shifts_ranks (page : detail_page) :
  map (fun c => (rank c, r_package c))
    (competitors (detail_results rnd (close_fails_on_b page) three_candidates))
  = [(1%nat, str "com.a"); (2%nat, str "com.b"); (3%nat, str "com.b");
     (4%nat, str "com.c")]
  /\ nth_error three_candidates 2 = Some (str "com.c").
Proof. split; reflexivity. Qed.

End LoopFacts.

(** ** The two replacements of [cleanText], read directly *)

Lemma match_here_Chr (p : char -> bool) (s : jsstring) :
  match_here (Chr p) s
  = match s with
    | x :: t => if p x then Some (t, []) else None
    | [] => None
    end.
Proof. reflexivity. Qed.

Lemma star_class (p : char -> bool) (t : jsstring) (c : captures) :
  run (Star true (Chr p)) t c (fun s' c' => Some (s', c'))
  = Some (drop_while p t, c).
Proof.
  simpl. generalize (Nat.le_refl (length t)).
  generalize (length t) at 2 3. intros n. revert t.
  induction n as [|n IH]; intros t Hn.
  - destruct t; [reflexivity | simpl in Hn; lia].
  - cbv zeta. destruct t as [|y t']; [reflexivity|]. simpl.
    destruct (p y); [|reflexivity].
    destruct (Nat.ltb_spec (length t') (S (length t'))) as [_|Hl]; [|lia].
    rewrite IH by (simpl in Hn; lia). reflexivity.
Qed.

Lemma match_here_Plus (p : char -> bool) (s : jsstring) :
  match_here (Plus (Chr p)) s
  = match s with
    | x :: t => if p x then Some (drop_while p t, []) else None
    | [] => None
    end.
Proof.
  unfold match_here, Plus.
  change (run (Seq (Chr p) (Star true (Chr p))) s [] (fun s' c' => Some (s', c')))
    with (run (Chr p) s []
            (fun s1 c1 => run (Star true (Chr p)) s1 c1 (fun s' c' => Some (s', c')))).
  destruct s as [|x t]; [reflexivity|].
  change (run (Chr p) (x :: t) []
            (fun s1 c1 => run (Star true (Chr p)) s1 c1 (fun s' c' => Some (s', c'))))
    with (if p x then run (Star true (Chr p)) t [] (fun s' c' => Some (s', c'))
          else None).
  destruct (p x); [apply star_class | reflexivity].
Qed.

Lemma replace_all_skip (r : regex) (by_ : jsstring) (k : nat) (s : jsstring) :
  replace_all r by_ k s = replace_all r by_ 0 (skipn k s).
Proof.
  revert k; induction s as [|x t IH]; intros [|k]; try reflexivity.
  simpl. apply IH.
Qed.

Lemma length_take_drop (p : char -> bool) (t : jsstring) :
  length t = length (take_while p t) + length (drop_while p t).
Proof.
  induction t as [|y t IH]; simpl; [reflexivity|].
  destruct (p y); simpl; lia.
Qed.

Lemma skipn_take_while (p : char -> bool) (t : jsstring) :
  skipn (length (take_while p t)) t = drop_while p t.
Proof.
  induction t as [|y t IH]; simpl; [reflexivity|].
  destruct (p y); simpl; [exact IH | reflexivity].
Qed.

Lemma drop_while_head (p : char -> bool) (t : jsstring) :
  match drop_while p t with y :: _ => p y = false | [] => True end.
Proof.
  induction t as [|y t IH]; simpl; [exact I|].
  destruct (p y) eqn:E; [exact IH | exact E].
Qed.

Lemma collapse_space (x : char) (t : jsstring) :
  is_space x = true ->
  collapse (x :: t) = 32%N :: collapse (drop_while is_space t).
Proof.
  intros Hx. unfold collapse. cbn [replace_all].
  rewrite match_here_Plus, Hx.
  change (str " " ++ ?l) with (32%N :: l). f_equal.
  rewrite replace_all_skip. f_equal.
  replace (length (x :: t) - length (drop_while is_space t) - 1)
    with (length (take_while is_space t))
    by (pose proof (length_take_drop is_space t); cbn [length]; lia).
  apply skipn_take_while.
Qed.

Lemma collapse_other (x : char) (t : jsstring) :
  is_space x = false -> collapse (x :: t) = x :: collapse t.
Proof.
  intros Hx. unfold collapse. cbn [replace_all].
  now rewrite match_here_Plus, Hx.
Qed.

Lemma replace_all_class (p : char -> bool) (s : jsstring) :
  replace_all (Chr p) [] 0 s = filter (fun x => negb (p x)) s.
Proof.
  induction s as [|x t IH]; [reflexivity|].
  cbn [replace_all filter]. rewrite match_here_Chr.
  destruct (p x); simpl negb; cbv iota.
  - replace (length (x :: t) - length t - 1) with 0 by (cbn [length]; lia).
    exact IH.
  - now rewrite IH.
Qed.

(** The normalized form, read directly: the code units of the class, upper-cased. *)
Lemma normalized_filter (s : jsstring) :
  normalized s = map upper_ascii (filter install_char s).
Proof.
  unfold normalized, toUpperCase. rewrite replace_all_class. f_equal.
  apply filter_ext. intros c. apply negb_involutive.
Qed.

(** ** Tidy strings *)

Lemma tidy_tail (x : char) (t : jsstring) : tidy (x :: t) = true -> tidy t = true.
Proof.
  simpl. destruct (is_space x); [|auto].
  intros H. now apply andb_prop in H as [_ H].
Qed.

Lemma tidy_suffix (a m : jsstring) : tidy (a ++ m) = true -> tidy m = true.
Proof.
  induction a as [|x a IH]; [auto|]. intros H. apply IH.
  now apply tidy_tail in H.
Qed.

Lemma tidy_prefix (m b : jsstring) : tidy (m ++ b) = true -> tidy m = true.
Proof.
  induction m as [|x m IH]; [reflexivity|]. simpl.
  destruct (is_space x); [|exact IH].
  intros H. apply andb_prop in H as [H H3]. apply andb_prop in H as [H1 H2].
  rewrite H1, (IH H3). destruct m; [reflexivity|]. simpl in H2.
  now rewrite H2.
Qed.

Lemma collapse_nil : collapse [] = [].
Proof. reflexivity. Qed.

Lemma collapse_tidy (s : jsstring) : tidy (collapse s) = true.
Proof.
  remember (length s) as n eqn:Hn.
  assert (Hle : length s <= n) by lia. clear Hn. revert s Hle.
  induction n as [|n IH]; intros s Hle.
  - destruct s; [reflexivity | simpl in Hle; lia].
  - destruct s as [|x t]; [reflexivity|]. simpl in Hle.
    destruct (is_space x) eqn:Hx.
    + rewrite (@collapse_space x t Hx).
      pose proof (length_take_drop is_space t) as Hl.
      pose proof (drop_while_head is_space t) as Hh.
      change (tidy (32%N :: ?l))
        with (match l with y :: _ => negb (is_space y) | [] => true end && tidy l).
      rewrite (IH (drop_while is_space t)) by lia. rewrite andb_true_r.
      destruct (drop_while is_space t) as [|y t'] eqn:E; [reflexivity|].
      rewrite (@collapse_other y t' Hh). now rewrite Hh.
    + rewrite (@collapse_other x t Hx). simpl. rewrite Hx. apply IH. lia.
Qed.

Lemma collapse_fixes_tidy (s : jsstring) : tidy s = true -> collapse s = s.
Proof.
  induction s as [|x t IH]; [reflexivity|]. intros H.
  pose proof (@tidy_tail x t H) as Ht. simpl in H.
  destruct (is_space x) eqn:Hx.
  - apply andb_prop in H as [H _]. apply andb_prop in H as [H1 H2].
    apply N.eqb_eq in H1. subst x. rewrite (@collapse_space _ t Hx).
    f_equal. destruct t as [|y t']; [reflexivity|].
    apply negb_true_iff in H2. simpl drop_while. rewrite H2. now apply IH.
  - rewrite (@collapse_other x t Hx). f_equal. now apply IH.
Qed.

Lemma collapse_chars (c : char) (s : jsstring) (k : nat) :
  In c (replace_all (Plus (Chr is_space)) (str " ") k s) ->
  c = 32%N \/ (In c s /\ is_space c = false).
Proof.
  revert k; induction s as [|x t IH]; intros k; [intros []|].
  cbn [replace_all]. destruct k as [|k].
  - rewrite match_here_Plus. destruct (is_space x) eqn:Hx.
    + intros [<-|H]; [now left|]. apply IH in H. simpl. tauto.
    + intros [<-|H]; [right; simpl; auto|]. apply IH in H. simpl. tauto.
  - intros H. apply IH in H. simpl. tauto.
Qed.

(** ** [trim] *)

Lemma trimStart_suffix (l : jsstring) : exists a, l = a ++ trimStart l.
Proof.
  induction l as [|x l [a Ha]]; [now exists []|]. simpl.
  destruct (is_space x).
  - exists (x :: a). simpl. now f_equal.
  - now exists [].
Qed.

Lemma trimEnd_prefix (l : jsstring) : exists b, l = trimEnd l ++ b.
Proof.
  unfold trimEnd. destruct (trimStart_suffix (rev l)) as [a Ha].
  exists (rev a). rewrite <- rev_app_distr, <- Ha. now rewrite rev_involutive.
Qed.

Lemma trimStart_head (l : jsstring) :
  match trimStart l with y :: _ => is_space y = false | [] => True end.
Proof.
  induction l as [|x l IH]; simpl; [exact I|].
  destruct (is_space x) eqn:E; [exact IH | exact E].
Qed.

Lemma trimStart_fixes (l : jsstring) :
  match l with y :: _ => is_space y = false | [] => True end ->
  trimStart l = l.
Proof. destruct l as [|y l]; [reflexivity|]. simpl. now intros ->. Qed.

Lemma trimStart_idempotent (l : jsstring) : trimStart (trimStart l) = trimStart l.
Proof. apply trimStart_fixes, trimStart_head. Qed.

Lemma trim_idempotent (l : jsstring) : trim (trim l) = trim l.
Proof.
  unfold trim. set (a := trimStart l).
  assert (Hs : trimStart (trimEnd a) = trimEnd a).
  { apply trimStart_fixes. destruct (trimEnd_prefix a) as [b Hb].
    pose proof (trimStart_head l) as Hh. fold a in Hh.
    destruct (trimEnd a) as [|y e]; [exact I|].
    rewrite Hb in Hh. exact Hh. }
  rewrite Hs. unfold trimEnd. now rewrite rev_involutive, trimStart_idempotent.
Qed.

Lemma trim_infix (l : jsstring) : exists a b, l = a ++ trim l ++ b.
Proof.
  unfold trim. destruct (trimStart_suffix l) as [a Ha].
  destruct (trimEnd_prefix (trimStart l)) as [b Hb].
  exists a, b. now rewrite <- Hb.
Qed.

(** ** [cleanText] on strings without zero-width characters *)

Lemma filter_all (A : Type) (f : A -> bool) (l : list A) :
  (forall x, In x l -> f x = true) -> filter f l = l.
Proof.
  induction l as [|x l IH]; [reflexivity|]. intros H. simpl.
  rewrite (H x (or_introl eq_refl)). f_equal. apply IH. intros y Hy.
  apply H. now right.
Qed.

(** [cleanText] is idempotent on the strings that hold none of U+200B,
    U+200C and U+200D. *)
Lemma cleanText_idempotent_without_zero_width (s : jsstring) :
  (forall c, In c s -> in_range 8203 8205 c = false) ->
  cleanText (Some (cleanText (Some s))) = cleanText (Some s).
Proof.
  intros Hs.
  assert (Hz : forall c, In c (collapse s) -> negb (zero_width c) = true).
  { intros c Hc. apply collapse_chars in Hc. apply negb_true_iff.
    destruct Hc as [->|[Hin Hsp]]; [reflexivity|].
    unfold zero_width. rewrite (Hs c Hin). simpl.
    destruct (char_eqb c 65279) eqn:E; [|reflexivity].
    apply N.eqb_eq in E. subst c. discriminate. }
  assert (H1 : cleanText (Some s) = trim (collapse s)).
  { unfold cleanText. destruct s as [|x t]; [reflexivity|].
    cbn [truthy_ostring truthy_string negb].
    fold (collapse (x :: t)). rewrite replace_all_class.
    now rewrite (@filter_all _ _ _ Hz). }
  rewrite H1. set (c1 := trim (collapse s)).
  destruct (trim_infix (collapse s)) as [a [b Hab]]. fold c1 in Hab.
  assert (Ht : tidy c1 = true).
  { pose proof (collapse_tidy s) as H. rewrite Hab in H.
    apply tidy_suffix in H. now apply tidy_prefix in H. }
  assert (Hz1 : forall c, In c c1 -> negb (zero_width c) = true).
  { intros c Hc. apply Hz. rewrite Hab. apply in_or_app. right.
    apply in_or_app. now left. }
  unfold cleanText. destruct c1 as [|x t] eqn:E; [reflexivity|].
  cbn [truthy_ostring truthy_string negb].
  fold (collapse (x :: t)). rewrite (@collapse_fixes_tidy _ Ht).
  rewrite replace_all_class, (@filter_all _ _ _ Hz1).
  rewrite <- E. apply trim_idempotent.
Qed.

(* ===================================================================== *)
(** * [cleanText] *)
(* ===================================================================== *)

(** C9.  [cleanText] maps [null] and the empty string to the empty string,
    but it is not idempotent: on an [a], a space, U+200B, a space and a [b] it
    leaves two spaces, which a second pass collapses. *)
Theorem cleanText_not_idempotent :
  cleanText None = []
  /\ cleanText (Some []) = []
  /\ cleanText (Some spaced_zero_width) = str "a  b"
  /\ cleanText (Some (cleanText (Some spaced_zero_width))) = str "a b"
  /\ cleanText (Some (cleanText (Some spaced_zero_width)))
     <> cleanText (Some spaced_zero_width).
Proof. repeat split; try reflexivity. discriminate. Qed.

(* ===================================================================== *)
(** * Worked examples *)
(* ===================================================================== *)

(** The record of a loaded page: the fields pass through [cleanText], the
    install text ["1,000+ downloads"] becomes 1000 and the label
    ["Rated 4.5 out of 5 stars"] becomes 4.5. *)
Example extract_sample :
  extract exact_rounding (str "com.a")
    (page_with (Some (str "1,000+ downloads"))
               (Some (str "Rated 4.5 out of 5 stars")))
  = {| package := str "com.a"; title := str "Sample App";
       description := str "A sample description";
       installs := Some (Fin 1000); rating := Some (Fin (9 # 2));
       developer := Some (str "Sample Dev") |}.
Proof. reflexivity. Qed.

(** An install text that parses to zero or to [NaN] leaves [installs]
    at [null]. *)
Example extract_installs_coerced (rnd : Q -> number) :
  parseInstallString rnd (Some (str "Most downloads")) = Some NaN
  /\ installs (extract rnd (str "com.a")
                 (page_with (Some (str "Most downloads")) None)) = None
  /\ parseInstallString exact_rounding (Some (str "0 downloads")) = Some (Fin 0)
  /\ installs (extract exact_rounding (str "com.a")
                 (page_with (Some (str "0 downloads")) None)) = None.
Proof. repeat split; reflexivity. Qed.

(** The suggestion source answers with JSON, with JSON inside a call, or
    with [null]. *)
Example suggest_samples :
  suggest_of_text json_parse suggest_json_text
  = Suggestions (JArr [JStr (str "photo editor"); JStr (str "photo lab")])
  /\ json_parse suggest_call_text = None
  /\ suggest_of_text json_parse suggest_call_text
     = Suggestions (JArr [JStr (str "photo editor"); JStr (str "photo lab")])
  /\ json_parse (str "null") = Some JNull
  /\ suggest_of_text json_parse (str "null") = Suggestions (JArr [])
  /\ suggest json_parse (Some (str "  ")) None = Suggestions (JArr [])
  /\ suggest json_parse (Some (str "photo")) None = SuggestFailed.
Proof. repeat split; reflexivity. Qed.

(** Two competitors and the seed ["photo editor"]: title tokens weigh 3,
    description tokens 1, seed tokens 6; stopwords and short tokens of
    the competitors are left out. *)
Example frequencies_sample :
  frequencies toLowerCase_ascii
    [ {| package := str "com.a"; title := str "Photo Editor Pro";
         description := str "Edit the photo"; installs := None;
         rating := None; developer := None |};
      minimal (str "com.b") ]
    (str "photo editor")
  = [(str "photo", 10%Z); (str "editor", 9%Z); (str "edit", 1%Z);
     (str "com", 3%Z)].
Proof. reflexivity. Qed.

(* ===================================================================== *)
(** * Further properties: the matcher finds words of the pattern *)
(* ===================================================================== *)

Lemma lang_Star_snoc (g : bool) (r : regex) (w w1 : jsstring) :
  lang (Star g r) w -> lang r w1 -> lang (Star g r) (w ++ w1).
Proof.
  intros H H1. remember (Star g r) as sr eqn:E. revert E.
  induction H; intros E; try discriminate.
  - injection E as -> ->. rewrite <- (app_nil_r ([] ++ w1)). simpl.
    apply lang_Star_cons; [assumption | apply lang_Star_nil].
  - injection E as -> ->. rewrite <- app_assoc.
    apply lang_Star_cons; [assumption | now apply IHlang2].
Qed.

Lemma firstn_consumed (w s2 : jsstring) :
  firstn (length (w ++ s2) - length s2) (w ++ s2) = w.
Proof.
  rewrite length_app, Nat.add_sub. apply firstn_exact. reflexivity.
Qed.

Lemma groups_ok_trivial (r : regex) : groups_ok (fun _ _ => True) r.
Proof. induction r; simpl; auto. Qed.

(** What follows a pattern is run on the input less a word of the
    pattern, with captures that are words of their groups. *)
Lemma run_sound (G : nat -> jsstring -> Prop)
    (P : jsstring * captures -> Prop) (r : regex) :
  groups_ok G r ->
  forall (s : jsstring) (c : captures) (k : cont),
    captures_ok G c ->
    (forall w s1 c1 res, lang r w -> s = w ++ s1 -> captures_ok G c1 ->
                         k s1 c1 = Some res -> P res) ->
    forall res, run r s c k = Some res -> P res.
Proof.
  induction r as [|p|r1 IH1 r2 IH2|r1 IH1 r2 IH2|g r1 IH1|i r1 IH1];
    intros Hr s c k Hc Hk res; simpl.
  - apply (Hk [] s c res); [constructor | reflexivity | assumption].
  - destruct s as [|x t]; [discriminate|].
    destruct (p x) eqn:E; [|discriminate].
    apply (Hk [x] t c res); [now constructor | reflexivity | assumption].
  - destruct Hr as [Hr1 Hr2]. apply IH1; [assumption..|].
    intros w1 s1 c1 res1 L1 E1 Hc1. apply IH2; [assumption..|].
    intros w2 s2 c2 res2 L2 E2 Hc2. apply (Hk (w1 ++ w2) s2 c2 res2).
    + now constructor.
    + subst. now rewrite app_assoc.
    + assumption.
  - destruct Hr as [Hr1 Hr2]. destruct (run r1 s c k) eqn:E1.
    + intros [= <-]. eapply IH1; [exact Hr1 | exact Hc | | exact E1].
      intros w s1 c1 res1 L E Hc1.
      apply (Hk w s1 c1 res1); [now apply lang_Alt_l | assumption..].
    + apply IH2; [assumption..|]. intros w s1 c1 res1 L E Hc1.
      apply (Hk w s1 c1 res1); [now apply lang_Alt_r | assumption..].
  - simpl in Hr.
    assert (Hiter : forall n w0 s0 c0 res0,
      lang (Star g r1) w0 -> s = w0 ++ s0 -> captures_ok G c0 ->
      (fix iter (n : nat) (s : jsstring) (c : captures) {struct n} :=
         match n with
         | O => k s c
         | S n' =>
             let again s' c' :=
               if Nat.ltb (length s') (length s) then iter n' s' c' else None in
             if g then
               match run r1 s c again with
               | Some res => Some res
               | None => k s c
               end
             else
               match k s c with
               | Some res => Some res
               | None => run r1 s c again
               end
         end) n s0 c0 = Some res0 -> P res0).
    { induction n as [|n IHn]; intros w0 s0 c0 res0 L0 E0 Hc0;
        [now apply (Hk w0 s0 c0 res0)|].
      assert (Hagain : forall w s1 c1 res1, lang r1 w -> s0 = w ++ s1 ->
        captures_ok G c1 ->
        (if Nat.ltb (length s1) (length s0)
         then (fix iter (n : nat) (s : jsstring) (c : captures) {struct n} :=
                 match n with
                 | O => k s c
                 | S n' =>
                     let again s' c' :=
                       if Nat.ltb (length s') (length s) then iter n' s' c' else None in
                     if g then
                       match run r1 s c again with
                       | Some res => Some res
                       | None => k s c
                       end
                     else
                       match k s c with
                       | Some res => Some res
                       | None => run r1 s c again
                       end
                 end) n s1 c1
         else None) = Some res1 -> P res1).
      { intros w s1 c1 res1 L E Hc1.
        destruct (Nat.ltb (length s1) (length s0)); [|discriminate].
        apply (IHn (w0 ++ w)); [now apply lang_Star_snoc| |assumption].
        subst. now rewrite app_assoc. }
      destruct g; cbv zeta.
      - match goal with |- match ?m with _ => _ end = _ -> _ =>
          destruct m eqn:E1 end.
        + intros [= <-]. eapply IH1; [exact Hr | exact Hc0 | exact Hagain | exact E1].
        + now apply (Hk w0 s0 c0 res0).
      - destruct (k s0 c0) eqn:E1.
        + intros [= <-]. now apply (Hk w0 s0 c0 p).
        + apply IH1; [exact Hr | exact Hc0 | exact Hagain]. }
    apply (Hiter (length s) [] s c res);
      [apply lang_Star_nil | reflexivity | assumption].
  - destruct Hr as [HG Hr1]. apply IH1; [assumption..|].
    intros w s1 c1 res1 L E Hc1. subst s. rewrite firstn_consumed.
    apply (Hk w s1 ((i, w) :: c1) res1); [now constructor | reflexivity |].
    intros j v [[= <- <-]|Hin]; [now apply HG | now apply Hc1].
Qed.

(** A match consumes a word of the pattern, and its captures are words of
    their groups. *)
Lemma match_here_sound (G : nat -> jsstring -> Prop) (r : regex)
    (s s' : jsstring) (c : captures) :
  groups_ok G r ->
  match_here r s = Some (s', c) ->
  (exists w, lang r w /\ s = w ++ s') /\ captures_ok G c.
Proof.
  intros Hr. unfold match_here.
  apply (@run_sound G (fun res => (exists w, lang r w /\ s = w ++ fst res)
                                  /\ captures_ok G (snd res)) r Hr).
  - intros i w [].
  - intros w s1 c1 res L E Hc [= <-]. simpl. eauto.
Qed.

Lemma capture_In (i : nat) (c : captures) (w : jsstring) :
  capture i c = Some w -> In (i, w) c.
Proof.
  induction c as [|[j v] c IH]; simpl; [discriminate|].
  destruct (Nat.eqb_spec i j) as [->|Hne].
  - intros [= ->]. now left.
  - intros H. right. now apply IH.
Qed.

Lemma search_eq (r : regex) (i : nat) (s : jsstring) :
  search r i s
  = match match_here r s with
    | Some (s', c) =>
        Some {| m_index := i; m_text := firstn (length s - length s') s;
                m_groups := c; m_rest := s' |}
    | None =>
        match s with
        | [] => None
        | _ :: t => search r (S i) t
        end
    end.
Proof. destruct s; reflexivity. Qed.

(** The first match in a string: it is a match at some offset, and the
    text [m[0]] is the word consumed there. *)
Lemma search_sound (G : nat -> jsstring -> Prop) (r : regex) (i : nat)
    (s : jsstring) (m : match_result) :
  groups_ok G r ->
  search r i s = Some m ->
  lang r (m_text m) /\ captures_ok G (m_groups m)
  /\ exists before, s = before ++ m_text m ++ m_rest m.
Proof.
  intros Hr. revert i m. induction s as [|x t IH]; intros i m; rewrite search_eq.
  - destruct (match_here r []) as [[s' c]|] eqn:E; [|discriminate].
    intros Hm.
    destruct (@match_here_sound G r _ _ _ Hr E) as [[w [L Ew]] Hc].
    symmetry in Ew. apply app_eq_nil in Ew as [-> ->].
    assert (Em : m = {| m_index := i; m_text := []; m_groups := c; m_rest := [] |})
      by (simpl in Hm; congruence).
    subst m. cbn [m_text m_groups m_rest].
    repeat split; try assumption. now exists [].
  - destruct (match_here r (x :: t)) as [[s' c]|] eqn:E.
    + intros Hm.
      destruct (@match_here_sound G r _ _ _ Hr E) as [[w [L Ew]] Hc].
      assert (Em : m = {| m_index := i; m_text := w; m_groups := c; m_rest := s' |}).
      { rewrite Ew, firstn_consumed in Hm. congruence. }
      subst m. cbn [m_text m_groups m_rest].
      repeat split; try assumption. now exists [].
    + intros H. destruct (IH _ _ H) as [L [Hc [before Hb]]].
      repeat split; try assumption. exists (x :: before). simpl. now f_equal.
Qed.

Lemma lang_Chr_inv (p : char -> bool) (w : jsstring) :
  lang (Chr p) w -> exists x, w = [x] /\ p x = true.
Proof. intros H. inversion H; subst. eauto. Qed.

Lemma lang_Seq_inv (r1 r2 : regex) (w : jsstring) :
  lang (Seq r1 r2) w -> exists w1 w2, w = w1 ++ w2 /\ lang r1 w1 /\ lang r2 w2.
Proof. intros H. inversion H; subst. eauto. Qed.

Lemma lang_Star_class (g : bool) (p : char -> bool) (w : jsstring) :
  lang (Star g (Chr p)) w -> forallb p w = true.
Proof.
  intros H. remember (Star g (Chr p)) as sr eqn:E. revert E.
  induction H; intros E; try discriminate; [reflexivity|].
  injection E as -> ->. rewrite forallb_app, IHlang2 by reflexivity.
  apply lang_Chr_inv in H as [x [-> Hx]]. simpl. now rewrite Hx.
Qed.

Lemma lang_Plus_class (p : char -> bool) (w : jsstring) :
  lang (Plus (Chr p)) w -> w <> [] /\ forallb p w = true.
Proof.
  unfold Plus. intros H. apply lang_Seq_inv in H as [w1 [w2 [-> [H1 H2]]]].
  apply lang_Chr_inv in H1 as [x [-> Hx]]. apply lang_Star_class in H2.
  simpl. split; [discriminate|]. now rewrite Hx, H2.
Qed.

Lemma groups_ok_Lit (G : nat -> jsstring -> Prop) (s : jsstring) :
  groups_ok G (Lit s).
Proof. induction s; simpl; auto. Qed.

Lemma groups_ok_LitI (G : nat -> jsstring -> Prop) (s : jsstring) :
  groups_ok G (LitI s).
Proof. induction s; simpl; auto. Qed.

(* ===================================================================== *)
(** * Further properties: candidate extraction *)
(* ===================================================================== *)

Lemma forallb_weaken (p q : char -> bool) (w : jsstring) :
  (forall x, p x = true -> q x = true) -> forallb p w = true ->
  forallb q w = true.
Proof.
  intros Hpq. rewrite !forallb_forall. auto.
Qed.

Lemma href_regex_groups :
  groups_ok (fun _ w => w <> [] /\ forallb id_char w = true) href_regex.
Proof.
  unfold href_regex. split; [apply groups_ok_Lit|].
  split; [|simpl; auto]. intros w L. now apply lang_Plus_class in L.
Qed.

Lemma html_regex_groups :
  groups_ok (fun _ w => w <> [] /\ forallb id_char w = true) html_regex.
Proof.
  unfold html_regex. split; [apply groups_ok_Lit|].
  split; [|simpl; auto]. intros w L. apply lang_Plus_class in L as [Hn Hw].
  split; [assumption|]. revert Hw. apply forallb_weaken.
  intros x Hx. unfold id_char.
  destruct (char_eqb x 38) eqn:E1.
  { apply N.eqb_eq in E1. subst x. discriminate. }
  destruct (char_eqb x 47) eqn:E2; [|reflexivity].
  apply N.eqb_eq in E2. subst x. discriminate.
Qed.

Lemma anchor_id_shape (href : option jsstring) (id : jsstring) :
  anchor_id href = Some id -> id <> [] /\ forallb id_char id = true.
Proof.
  unfold anchor_id. destruct href as [h|]; [|discriminate].
  destruct (truthy_string h); [|discriminate].
  destruct (String_match href_regex h) as [m|] eqn:E; [|discriminate].
  destruct (capture 1 (m_groups m)) as [w|] eqn:Ec; [|discriminate].
  destruct (truthy_string w); [|discriminate]. intros [= <-].
  destruct (@search_sound _ _ _ _ _ href_regex_groups E) as [_ [Hc _]].
  apply (Hc 1). now apply capture_In.
Qed.

Lemma exec_all_html_shape (s : jsstring) (skip : nat) (id : jsstring) :
  In (Some id) (exec_all html_regex skip s) ->
  id <> [] /\ forallb id_char id = true.
Proof.
  revert skip; induction s as [|x t IH]; intros skip; simpl; [intros []|].
  destruct skip as [|k]; [|apply IH].
  destruct (match_here html_regex (x :: t)) as [[s' c]|] eqn:E; [|apply IH].
  intros [Hc|Hin]; [|now apply IH in Hin].
  destruct (@match_here_sound _ _ _ _ _ html_regex_groups E) as [_ Hok].
  apply (Hok 1). now apply capture_In.
Qed.

Lemma defined_In (A : Type) (l : list (option A)) (a : A) :
  In a (defined l) <-> In (Some a) l.
Proof.
  unfold defined. rewrite in_flat_map. split.
  - intros [[b|] [Hin Hb]]; simpl in Hb; [|contradiction].
    destruct Hb as [->|[]]. exact Hin.
  - intros H. exists (Some a). split; [assumption | now left].
Qed.

Lemma discovered_shape (anchor_hrefs : jsstring -> list (option jsstring))
    (searchHtml id : jsstring) :
  In id (discovered anchor_hrefs searchHtml) ->
  id <> [] /\ forallb id_char id = true.
Proof.
  unfold discovered. rewrite in_app_iff, !defined_In, in_map_iff.
  intros [[h [Hh _]]|H].
  - now apply anchor_id_shape in Hh.
  - now apply exec_all_html_shape in H.
Qed.

Lemma packages_not_positive (anchor_hrefs : jsstring -> list (option jsstring))
    (searchHtml : jsstring) (limit : Z) :
  (limit <= 0)%Z -> packages anchor_hrefs searchHtml limit = [].
Proof.
  intros Hl. unfold packages.
  assert (Hr : size_reached [] limit = true)
    by (unfold size_reached; apply Z.leb_le; simpl; lia).
  rewrite scan_anchors_add_upto, (@add_upto_full limit _ [] Hr).
  rewrite size_below_reached, Hr. simpl negb. cbv iota.
  unfold slice_0. now rewrite !firstn_nil, Tauto.if_same.
Qed.

Lemma firstn_In (A : Type) (n : nat) (l : list A) (a : A) :
  In a (firstn n l) -> In a l.
Proof.
  intros H. rewrite <- (firstn_skipn n l). apply in_or_app. now left.
Qed.

(** X1.  Every identifier that the candidate extraction returns, for any
    markup and any limit, is a non-empty string without [&] and [/]. *)
Theorem packages_identifiers_shape
    (anchor_hrefs : jsstring -> list (option jsstring))
    (searchHtml : jsstring) (limit : Z) (id : jsstring) :
  In id (packages anchor_hrefs searchHtml limit) ->
  id <> [] /\ forallb id_char id = true
  /\ In id (discovered anchor_hrefs searchHtml).
Proof.
  destruct (Z.le_gt_cases limit 0) as [Hl|Hl].
  - rewrite packages_not_positive by assumption. intros [].
  - rewrite packages_first_appearances by lia. intros H.
    apply firstn_In in H. apply -> first_appearances_In in H.
    destruct (@discovered_shape _ _ _ H) as [H1 H2]. auto.
Qed.

(** X2.  A limit of zero or less gives no candidate at all. *)
Theorem packages_limit_not_positive
    (anchor_hrefs : jsstring -> list (option jsstring))
    (searchHtml : jsstring) (limit : Z) :
  (limit <= 0)%Z -> packages anchor_hrefs searchHtml limit = [].
Proof. apply packages_not_positive. Qed.

Lemma first_appearances_app (a b : list jsstring) :
  first_appearances (a ++ b)
  = first_appearances a
    ++ filter (fun y => negb (Set_has y (first_appearances a))) (first_appearances b).
Proof.
  transitivity (add_all b (add_all a [])).
  - rewrite <- first_appearances_add_all. unfold add_all. apply fold_left_app.
  - rewrite add_all_first_appearances. now rewrite first_appearances_add_all.
Qed.

(** X3.  When the anchors alone hold [limit] distinct identifiers, the
    scan of the raw markup changes nothing: the result is the first
    [limit] identifiers of the anchors. *)
Theorem packages_anchors_suffice
    (anchor_hrefs : jsstring -> list (option jsstring))
    (searchHtml : jsstring) (limit : Z) :
  (0 <= limit)%Z ->
  (limit <= Z.of_nat (length (first_appearances (anchor_ids anchor_hrefs searchHtml))))%Z ->
  packages anchor_hrefs searchHtml limit
  = firstn (Z.to_nat limit) (first_appearances (anchor_ids anchor_hrefs searchHtml)).
Proof.
  intros H0 Hlen. rewrite packages_first_appearances by assumption.
  unfold discovered. fold (anchor_ids anchor_hrefs searchHtml).
  rewrite first_appearances_app, firstn_app.
  replace (Z.to_nat limit - length (first_appearances (anchor_ids anchor_hrefs searchHtml)))
    with 0 by lia.
  simpl. apply app_nil_r.
Qed.

Lemma packages_identifiers_shape_witness :
  In (str "com.b") (packages sample_hrefs sample_html 10)
  /\ str "com.b" <> []
  /\ forallb id_char (str "com.b") = true
  /\ In (str "com.b") (discovered sample_hrefs sample_html).
Proof.
  assert (H : In (str "com.b") (packages sample_hrefs sample_html 10))
    by (right; left; reflexivity).
  split; [exact H|].
  exact (@packages_identifiers_shape sample_hrefs sample_html 10 (str "com.b") H).
Defined.

Lemma packages_anchors_suffice_witness :
  (0 <= 2)%Z
  /\ (2 <= Z.of_nat (length (first_appearances (anchor_ids sample_hrefs sample_html))))%Z
  /\ packages sample_hrefs sample_html 2
     = firstn (Z.to_nat 2) (first_appearances (anchor_ids sample_hrefs sample_html)).
Proof.
  assert (H0 : (0 <= 2)%Z) by lia.
  assert (H1 : (2 <= Z.of_nat (length (first_appearances
                                         (anchor_ids sample_hrefs sample_html))))%Z)
    by (vm_compute; discriminate).
  split; [exact H0|]. split; [exact H1|].
  exact (packages_anchors_suffice sample_hrefs sample_html H0 H1).
Defined.

Lemma packages_limit_not_positive_witness :
  (0 <= 0)%Z /\ packages sample_hrefs sample_html 0 = [].
Proof.
  split; [lia|]. apply (packages_limit_not_positive sample_hrefs sample_html). lia.
Defined.

(* ===================================================================== *)
(** * Further properties: [parseInstallString] *)
(* ===================================================================== *)

Lemma test_Lit1 (a : char) (s : jsstring) (i : nat) :
  match search (Lit1 a) i s with Some _ => true | None => false end
  = existsb (char_eqb a) s.
Proof.
  revert i; induction s as [|x t IH]; intros i; rewrite search_eq;
    unfold Lit1; rewrite match_here_Chr; [reflexivity|].
  simpl. destruct (char_eqb a x); [reflexivity|]. apply IH.
Qed.

Lemma RegExp_test_Lit1 (a : char) (s : jsstring) :
  RegExp_test (Lit1 a) s = existsb (char_eqb a) s.
Proof. apply test_Lit1. Qed.

Lemma digit_not_lower (c : char) : is_digit c = true -> upper_ascii c = c.
Proof.
  unfold is_digit, upper_ascii, in_range. intros H.
  apply andb_prop in H as [_ H]. apply N.leb_le in H.
  destruct (N.leb_spec 97 c); [lia | reflexivity].
Qed.

Lemma digit_not_space (c : char) : is_digit c = true -> is_space c = false.
Proof.
  unfold is_digit, in_range. intros H. apply andb_prop in H as [H1 H2].
  apply N.leb_le in H1, H2. unfold is_space, in_range, char_eqb.
  repeat match goal with
         | |- context [N.leb ?a ?b] => destruct (N.leb_spec a b); try lia
         | |- context [N.eqb ?a ?b] => destruct (N.eqb_spec a b); try lia
         end; reflexivity.
Qed.

Lemma digit_not (a : char) (c : char) :
  (a < 48 \/ 57 < a)%N -> is_digit c = true -> char_eqb a c = false.
Proof.
  unfold is_digit, in_range, char_eqb. intros Ha H.
  apply andb_prop in H as [H1 H2]. apply N.leb_le in H1, H2.
  apply N.eqb_neq. lia.
Qed.

Lemma take_while_all (p : char -> bool) (s : jsstring) :
  forallb p s = true -> take_while p s = s.
Proof.
  induction s as [|x t IH]; simpl; [reflexivity|].
  intros H. apply andb_prop in H as [Hx Ht]. now rewrite Hx, IH.
Qed.

Lemma filter_id (A : Type) (f : A -> bool) (l : list A) :
  forallb f l = true -> filter f l = l.
Proof.
  induction l as [|x l IH]; simpl; [reflexivity|].
  intros H. apply andb_prop in H as [Hx Hl]. now rewrite Hx, IH.
Qed.

Lemma existsb_none (a : char) (s : jsstring) :
  (a < 48 \/ 57 < a)%N -> forallb is_digit s = true ->
  existsb (char_eqb a) s = false.
Proof.
  intros Ha. induction s as [|x t IH]; simpl; [reflexivity|].
  intros H. apply andb_prop in H as [Hx Ht].
  now rewrite (@digit_not a x Ha Hx), IH.
Qed.

Section ParseInstallsMore.

Variable rnd : Q -> number.
Hypothesis rnd_monotone : monotone rnd.

Lemma parseInt_digits (ds : jsstring) :
  ds <> [] -> forallb is_digit ds = true ->
  parseInt rnd ds = rnd (inject_Z (digits_value ds)).
Proof.
  intros Hne Hd. unfold parseInt.
  destruct ds as [|x t]; [congruence|].
  simpl in Hd. apply andb_prop in Hd as [Hx Ht].
  assert (Htrim : trimStart (x :: t) = x :: t)
    by (simpl; now rewrite (@digit_not_space x Hx)).
  rewrite Htrim.
  assert (H45 : char_eqb x 45 = false).
  { unfold char_eqb. rewrite N.eqb_sym. apply (@digit_not 45%N x); [lia | exact Hx]. }
  assert (H43 : char_eqb x 43 = false).
  { unfold char_eqb. rewrite N.eqb_sym. apply (@digit_not 43%N x); [lia | exact Hx]. }
  rewrite H45, H43.
  rewrite take_while_all by (simpl; now rewrite Hx, Ht). reflexivity.
Qed.

Lemma parseInstallString_digits (s : jsstring) :
  plain_count s -> filter is_digit s <> [] ->
  parseInstallString rnd (Some s)
  = Some (rnd (inject_Z (digits_value (filter is_digit s)))).
Proof.
  intros Hp Hne.
  assert (Hf : filter install_char s = filter is_digit s).
  { clear Hne. induction s as [|x t IH]; [reflexivity|]. simpl.
    assert (Ht : plain_count t) by (intros c Hc; apply Hp; now right).
    destruct (install_char x) eqn:Ei.
    - rewrite (Hp x (or_introl eq_refl) Ei). now rewrite IH.
    - assert (Hd : is_digit x = false).
      { destruct (is_digit x) eqn:Ed; [|reflexivity].
        unfold install_char in Ei. now rewrite Ed in Ei. }
      rewrite Hd. now apply IH. }
  set (ds := filter is_digit s) in *.
  assert (Hds : forallb is_digit ds = true).
  { apply forallb_forall. intros c Hc. unfold ds in Hc.
    now apply filter_In in Hc. }
  assert (Hn : normalized s = ds).
  { rewrite normalized_filter, Hf. rewrite <- (map_id ds) at 2.
    apply map_ext_in. intros c Hc. apply digit_not_lower.
    rewrite forallb_forall in Hds. now apply Hds. }
  unfold parseInstallString.
  assert (Hs : truthy_ostring (Some s) = true).
  { destruct s; [now elim Hne | reflexivity]. }
  rewrite Hs. cbn [negb]. cbv zeta. rewrite Hn.
  rewrite !RegExp_test_Lit1.
  rewrite (@existsb_none 77%N ds) by (try lia; assumption).
  rewrite (@existsb_none 75%N ds) by (try lia; assumption).
  rewrite replace_all_class, filter_id.
  - rewrite (@parseInt_digits ds Hne Hds).
    assert (Hm := Qle_refl (inject_Z (digits_value ds))). apply rnd_monotone in Hm.
    destruct (rnd (inject_Z (digits_value ds))); try reflexivity.
    discriminate.
  - apply forallb_forall. intros c Hc. rewrite forallb_forall in Hds.
    apply Hds in Hc. apply negb_true_iff.
    unfold char_eqb. rewrite (N.eqb_sym c 44), (N.eqb_sym c 43).
    fold (char_eqb 44 c). fold (char_eqb 43 c).
    rewrite (@digit_not 44%N c), (@digit_not 43%N c); auto; lia.
Qed.


Hypothesis rnd_integers : exact_on_integers rnd.

Lemma rnd_not_negative (q : Q) : (0 <= q)%Q -> num_leb (Fin 0) (rnd q) = true.
Proof.
  intros H. apply rnd_monotone in H.
  change 0%Q with (inject_Z 0) in H. rewrite rnd_integers in H by (simpl; lia).
  exact H.
Qed.

Lemma digits_fold_not_negative (ds : jsstring) (acc : Z) :
  forallb is_digit ds = true -> (0 <= acc)%Z ->
  (0 <= fold_left (fun acc d => acc * 10 + (Z.of_N d - 48)) ds acc)%Z.
Proof.
  revert acc; induction ds as [|d ds IH]; intros acc H Hacc; simpl; [auto|].
  simpl in H. apply andb_prop in H as [Hd Hds]. apply IH; [assumption|].
  unfold is_digit, in_range in Hd. apply andb_prop in Hd as [H1 _].
  apply N.leb_le in H1. lia.
Qed.

Lemma digits_value_not_negative (ds : jsstring) :
  forallb is_digit ds = true -> (0 <= digits_value ds)%Z.
Proof. intros H. now apply digits_fold_not_negative. Qed.

Lemma take_while_forallb (p : char -> bool) (s : jsstring) :
  forallb p (take_while p s) = true.
Proof.
  induction s as [|x t IH]; simpl; [reflexivity|].
  destruct (p x) eqn:E; [simpl; now rewrite E | reflexivity].
Qed.

Lemma pow10_positive (e : Z) : (0 < pow10 e)%Q.
Proof.
  unfold pow10. destruct (Z.leb_spec 0 e).
  - unfold Qlt. simpl. rewrite Z.mul_1_r. now apply Z.pow_pos_nonneg.
  - reflexivity.
Qed.

Lemma trimStart_head_In (t : jsstring) (x : char) (u : jsstring) :
  trimStart t = x :: u -> In x t.
Proof.
  intros H. destruct (trimStart_suffix t) as [a Ha]. rewrite Ha, H.
  apply in_or_app. right. now left.
Qed.

Lemma parseFloat_unsigned (t : jsstring) :
  (forall c, In c t -> c <> 45%N) ->
  parseFloat rnd t = NaN \/ num_leb (Fin 0) (parseFloat rnd t) = true.
Proof.
  intros Hu. unfold parseFloat.
  set (s1 := trimStart t).
  assert (Hsign : exists s2,
            match s1 with
            | x :: t0 => if char_eqb x 45 then (true, t0)
                         else if char_eqb x 43 then (false, t0) else (false, s1)
            | [] => (false, s1)
            end = (false, s2)).
  { destruct s1 as [|x u] eqn:E; [eauto|].
    assert (Hx : char_eqb x 45 = false).
    { apply N.eqb_neq. apply Hu. apply (@trimStart_head_In t x u). exact E. }
    rewrite Hx. destruct (char_eqb x 43); eauto. }
  destruct Hsign as [s2 ->].
  destruct (starts_with (str "Infinity") s2); [now right|].
  set (ip := take_while is_digit s2).
  match goal with
  | |- context [let '(fp, s4) := ?m in _] => set (frac := m)
  end.
  assert (Hfp : forallb is_digit (fst frac) = true).
  { unfold frac. destruct (drop_while is_digit s2) as [|x u]; [reflexivity|].
    destruct (char_eqb x 46); [apply take_while_forallb | reflexivity]. }
  destruct frac as [fp s4]. simpl in Hfp.
  assert (Hds : forallb is_digit (ip ++ fp) = true)
    by (rewrite forallb_app; unfold ip; now rewrite take_while_forallb).
  destruct (ip ++ fp) as [|d ds] eqn:E; [now left|]. right.
  apply rnd_not_negative. apply Qmult_le_0_compat.
  - apply digits_value_not_negative in Hds. unfold Qle. simpl. lia.
  - apply Qlt_le_weak, pow10_positive.
Qed.

Lemma parseInt_unsigned (t : jsstring) :
  (forall c, In c t -> c <> 45%N) ->
  parseInt rnd t = NaN \/ num_leb (Fin 0) (parseInt rnd t) = true.
Proof.
  intros Hu. unfold parseInt.
  set (s1 := trimStart t).
  assert (Hsign : exists s2,
            match s1 with
            | x :: t0 => if char_eqb x 45 then (true, t0)
                         else if char_eqb x 43 then (false, t0) else (false, s1)
            | [] => (false, s1)
            end = (false, s2)).
  { destruct s1 as [|x u] eqn:E; [eauto|].
    assert (Hx : char_eqb x 45 = false).
    { apply N.eqb_neq. apply Hu. apply (@trimStart_head_In t x u). exact E. }
    rewrite Hx. destruct (char_eqb x 43); eauto. }
  destruct Hsign as [s2 ->].
  pose proof (take_while_forallb is_digit s2) as Hds.
  destruct (take_while is_digit s2) as [|d ds] eqn:E; [now left|]. right.
  apply rnd_not_negative. apply digits_value_not_negative in Hds.
  unfold Qle. simpl. lia.
Qed.

Lemma num_mul_not_negative (x : number) (z : Z) :
  (0 < z)%Z -> x = NaN \/ num_leb (Fin 0) x = true ->
  num_mul rnd x (num_of_Z z) = NaN
  \/ num_leb (Fin 0) (num_mul rnd x (num_of_Z z)) = true.
Proof.
  intros Hz [->|Hx]; [now left|]. right.
  destruct x as [| | |p]; try discriminate.
  - destruct z; try lia. reflexivity.
  - simpl. apply rnd_not_negative. apply Qle_bool_iff in Hx.
    apply Qmult_le_0_compat; [assumption|]. unfold Qle. simpl. lia.
Qed.

Lemma normalized_unsigned (s : jsstring) (c : char) :
  In c (normalized s) -> c <> 45%N.
Proof.
  rewrite normalized_filter, in_map_iff. intros [c0 [<- Hc0]].
  apply filter_In in Hc0 as [_ Hc0]. unfold install_char in Hc0.
  unfold is_digit, in_range, char_eqb in Hc0. unfold upper_ascii, in_range.
  repeat match type of Hc0 with
         | (_ || _)%bool = true => apply orb_prop in Hc0 as [Hc0|Hc0]
         end;
    try (apply N.eqb_eq in Hc0; subst c0; discriminate).
  apply andb_prop in Hc0 as [H1 H2]. apply N.leb_le in H1, H2.
  destruct (N.leb_spec 97 c0); simpl; lia.
Qed.

Lemma replace_first_In (a : char) (t : jsstring) (c : char) :
  In c (replace_first a [] t) -> In c t.
Proof.
  induction t as [|x t IH]; simpl; [auto|].
  destruct (char_eqb x a); simpl; [auto|]. intros [H|H]; auto.
Qed.

Lemma parseInstallString_sign (s : option jsstring) :
  not_negative (parseInstallString rnd s).
Proof.
  unfold parseInstallString.
  destruct (negb (truthy_ostring s)); [exact I|]. cbv zeta.
  set (t := match s with Some s0 => s0 | None => [] end).
  destruct (RegExp_test (Lit1 77) (normalized t)).
  - apply num_mul_not_negative; [lia|]. apply parseFloat_unsigned.
    intros c Hc. apply replace_first_In in Hc. now apply normalized_unsigned in Hc.
  - destruct (RegExp_test (Lit1 75) (normalized t)).
    + apply num_mul_not_negative; [lia|]. apply parseFloat_unsigned.
      intros c Hc. apply replace_first_In in Hc.
      now apply normalized_unsigned in Hc.
    + match goal with |- context [parseInt rnd ?d] =>
        destruct (@parseInt_unsigned d) as [E|E] end.
      * intros c Hc. rewrite replace_all_class in Hc.
        apply filter_In in Hc as [Hc _]. now apply normalized_unsigned in Hc.
      * rewrite E. exact I.
      * destruct (isNaN (parseInt rnd _)); [exact I | now right].
Qed.

(** X4.  For a text that holds a digit and none of the letters K, M, B
    and of the period that the function keeps, the result is the rounding
    of the integer that the digits of the text form, and that integer
    itself when it is at most 2^53: separators, signs and words are
    passed over. *)
Theorem parseInstallString_plain_count (s : jsstring) :
  plain_count s -> filter is_digit s <> [] ->
  parseInstallString rnd (Some s)
  = Some (rnd (inject_Z (digits_value (filter is_digit s))))
  /\ ((digits_value (filter is_digit s) <= 2 ^ 53)%Z ->
      parseInstallString rnd (Some s)
      = Some (num_of_Z (digits_value (filter is_digit s)))).
Proof.
  intros Hp Hne.
  pose proof (@parseInstallString_digits s Hp Hne) as H.
  split; [exact H|]. intros Hle. rewrite H. f_equal.
  apply rnd_integers.
  assert (H0 : (0 <= digits_value (filter is_digit s))%Z).
  { apply digits_value_not_negative. apply forallb_forall. intros c Hc.
    now apply filter_In in Hc. }
  now rewrite Z.abs_eq.
Qed.

(** X5.  The result is never a negative number, whatever the text:
    [null], [NaN], or a number from zero up. *)
Theorem parseInstallString_not_negative (s : option jsstring) :
  not_negative (parseInstallString rnd s).
Proof. apply parseInstallString_sign. Qed.

End ParseInstallsMore.

Lemma parseInstallString_plain_count_witness :
  monotone exact_rounding /\ exact_on_integers exact_rounding
  /\ plain_count (str "1,000,000+ downloads")
  /\ filter is_digit (str "1,000,000+ downloads") <> []
  /\ (digits_value (filter is_digit (str "1,000,000+ downloads")) <= 2 ^ 53)%Z
  /\ parseInstallString exact_rounding (Some (str "1,000,000+ downloads"))
     = Some (num_of_Z 1000000).
Proof.
  assert (Hp : plain_count (str "1,000,000+ downloads")).
  { intros c Hc. simpl in Hc.
    repeat (destruct Hc as [<-|Hc]; [vm_compute; congruence|]). destruct Hc. }
  assert (Hd : filter is_digit (str "1,000,000+ downloads") <> [])
    by (vm_compute; discriminate).
  assert (Hle : (digits_value (filter is_digit (str "1,000,000+ downloads"))
                 <= 2 ^ 53)%Z) by (vm_compute; discriminate).
  split; [exact exact_rounding_monotone|].
  split; [exact exact_rounding_integers|].
  split; [exact Hp|]. split; [exact Hd|]. split; [exact Hle|].
  exact (proj2 (@parseInstallString_plain_count exact_rounding
                  exact_rounding_monotone exact_rounding_integers
                  (str "1,000,000+ downloads") Hp Hd) Hle).
Defined.

Lemma parseInstallString_not_negative_witness :
  monotone exact_rounding /\ exact_on_integers exact_rounding
  /\ not_negative (parseInstallString exact_rounding (Some (str "-2.5M"))).
Proof.
  split; [exact exact_rounding_monotone|].
  split; [exact exact_rounding_integers|].
  exact (@parseInstallString_not_negative exact_rounding exact_rounding_monotone
           exact_rounding_integers (Some (str "-2.5M"))).
Defined.




Section ParseInstallsAlgorithm.

Variable rnd : Q -> number.
Hypothesis rnd_integers : exact_on_integers rnd.


End ParseInstallsAlgorithm.



(* ===================================================================== *)
(** * Further properties: [cleanText] *)
(* ===================================================================== *)

Lemma trim_In (l : jsstring) (c : char) : In c (trim l) -> In c l.
Proof.
  intros H. destruct (trim_infix l) as [a [b Hab]]. rewrite Hab.
  apply in_or_app. right. apply in_or_app. now left.
Qed.

Lemma clean_nil : clean [].
Proof. repeat split; intros c []. Qed.

Lemma cleanText_is_clean (s : option jsstring) : clean (cleanText s).
Proof.
  unfold cleanText. destruct (negb (truthy_ostring s)); [apply clean_nil|].
  cbv zeta. set (t := match s with Some s0 => s0 | None => [] end).
  rewrite replace_all_class. repeat split.
  - intros c Hc Hsp. apply trim_In in Hc. apply filter_In in Hc as [Hc _].
    apply collapse_chars in Hc as [->|[_ Hn]]; [reflexivity | congruence].
  - intros c Hc. apply trim_In in Hc. apply filter_In in Hc as [_ Hc].
    now apply negb_true_iff in Hc.
  - apply trim_idempotent.
Qed.

(** X6.  Whatever the input, the result of [cleanText] holds no white
    space but the space character, no zero-width character, and neither
    starts nor ends with white space. *)
Theorem cleanText_clean (s : option jsstring) : clean (cleanText s).
Proof. apply cleanText_is_clean. Qed.

(** X7.  On a text without the code units U+200B to U+200D a second
    [cleanText] changes nothing. *)
Theorem cleanText_twice_without_zero_width (s : jsstring) :
  (forall c, In c s -> in_range 8203 8205 c = false) ->
  cleanText (Some (cleanText (Some s))) = cleanText (Some s).
Proof. apply cleanText_idempotent_without_zero_width. Qed.

Lemma cleanText_twice_without_zero_width_witness :
  (forall c, In c (str "  Photo   Editor  ") -> in_range 8203 8205 c = false)
  /\ cleanText (Some (cleanText (Some (str "  Photo   Editor  "))))
     = cleanText (Some (str "  Photo   Editor  ")).
Proof.
  assert (H : forall c, In c (str "  Photo   Editor  ") ->
                        in_range 8203 8205 c = false).
  { intros c Hc. simpl in Hc.
    repeat (destruct Hc as [<-|Hc]; [reflexivity|]). destruct Hc. }
  split; [exact H|].
  exact (@cleanText_twice_without_zero_width (str "  Photo   Editor  ") H).
Defined.

(* ===================================================================== *)
(** * Further properties: [GET /api/suggest] *)
(* ===================================================================== *)

Lemma search_group (j : nat) (r : regex) (i : nat) (s : jsstring)
    (m : match_result) :
  closes_with j r = true -> search r i s = Some m ->
  exists w, capture j (m_groups m) = Some w.
Proof.
  intros Hr. revert i. induction s as [|x t IH]; intros i; rewrite search_eq.
  - destruct (match_here r []) as [[s' c]|] eqn:E; [|discriminate].
    intros [= <-]. simpl. eapply closing_group; eassumption.
  - destruct (match_here r (x :: t)) as [[s' c]|] eqn:E; [|apply IH].
    intros [= <-]. simpl. eapply closing_group; eassumption.
Qed.

Lemma suggest_regex_groups : groups_ok (fun _ w => bracketed w) suggest_regex.
Proof.
  unfold suggest_regex. simpl. repeat split; auto.
  intros w L.
  apply lang_Seq_inv in L as [w1 [w2 [-> [L1 L2]]]].
  apply lang_Seq_inv in L2 as [w3 [w4 [-> [L3 L4]]]].
  apply lang_Chr_inv in L1 as [x [-> Hx]]. apply N.eqb_eq in Hx. subst x.
  apply lang_Chr_inv in L4 as [y [-> Hy]]. apply N.eqb_eq in Hy. subst y.
  apply lang_Plus_class in L3 as [Hne Hb].
  exists w3. auto.
Qed.

Section SuggestMore.

Variable JSON_parse : jsstring -> option json.

(** X8.  The handler fails on a response text only in one way: the text
    is not JSON (or is [null]), the pattern of the fallback finds in it a
    bracketed text, and that text is not JSON. *)
Theorem suggest_failure_only (txt : jsstring) :
  suggest_of_text JSON_parse txt = SuggestFailed ->
  (JSON_parse txt = None \/ JSON_parse txt = Some JNull)
  /\ exists m c, String_match suggest_regex txt = Some m
                 /\ capture 1 (m_groups m) = Some c
                 /\ bracketed c /\ JSON_parse c = None.
Proof.
  unfold suggest_of_text. destruct (suggest_try JSON_parse txt) as [r|] eqn:Et.
  - intros ->. unfold suggest_try in Et.
    destruct (JSON_parse txt) as [data|]; [|discriminate].
    destruct (index_1 data); discriminate.
  - intros H. split.
    + unfold suggest_try in Et. destruct (JSON_parse txt) as [data|]; [|now left].
      destruct data; try discriminate. now right.
    + unfold suggest_catch in H.
      destruct (String_match suggest_regex txt) as [m|] eqn:Em; [|discriminate].
      destruct (capture 1 (m_groups m)) as [c|] eqn:Ec.
      * exists m, c. split; [reflexivity|]. split; [exact Ec|]. split.
        -- destruct (@search_sound _ _ _ _ _ suggest_regex_groups Em)
             as [_ [Hc _]].
           apply (Hc 1). now apply capture_In.
        -- destruct (JSON_parse c); [discriminate | reflexivity].
      * destruct (@search_group 1 suggest_regex 0 txt m eq_refl Em) as [w Hw].
        congruence.
Qed.

End SuggestMore.

Section SuggestAnswers.

Variable JSON_parse : jsstring -> option json.

(** X9.  What the suggest handler answers when it does not fail: for
    a text that parses to a value other than [null], the second element
    when it is an array and the empty array otherwise; for a text that
    does not parse, the empty array when the pattern finds nothing, and
    the value of the captured array when that one parses. *)
Theorem suggest_answers (txt : jsstring) :
  (forall data, JSON_parse txt = Some data -> data <> JNull ->
     suggest_of_text JSON_parse txt
     = Suggestions (match index_1 data with
                    | Some (Some (JArr items)) => JArr items
                    | _ => JArr []
                    end))
  /\ (JSON_parse txt = None -> String_match suggest_regex txt = None ->
      suggest_of_text JSON_parse txt = Suggestions (JArr []))
  /\ (forall m c v, JSON_parse txt = None ->
        String_match suggest_regex txt = Some m ->
        capture 1 (m_groups m) = Some c -> JSON_parse c = Some v ->
        suggest_of_text JSON_parse txt = Suggestions v).
Proof.
  split; [|split].
  - intros data. apply suggest_json.
  - apply suggest_no_match.
  - intros m c v. apply suggest_match.
Qed.

End SuggestAnswers.

Lemma suggest_answers_witness :
  json_parse suggest_json_text
  = Some (JArr [JStr (str "photo");
                JArr [JStr (str "photo editor"); JStr (str "photo lab")]])
  /\ JArr [JStr (str "photo");
           JArr [JStr (str "photo editor"); JStr (str "photo lab")]] <> JNull
  /\ suggest_of_text json_parse suggest_json_text
     = Suggestions (JArr [JStr (str "photo editor"); JStr (str "photo lab")]).
Proof.
  assert (Hp : json_parse suggest_json_text
               = Some (JArr [JStr (str "photo");
                             JArr [JStr (str "photo editor"); JStr (str "photo lab")]]))
    by reflexivity.
  assert (Hn : JArr [JStr (str "photo");
                     JArr [JStr (str "photo editor"); JStr (str "photo lab")]]
               <> JNull) by discriminate.
  split; [exact Hp|]. split; [exact Hn|].
  exact (proj1 (@suggest_answers json_parse suggest_json_text) _ Hp Hn).
Defined.

Lemma suggest_failure_only_witness :
  suggest_of_text json_parse broken_array = SuggestFailed
  /\ (json_parse broken_array = None \/ json_parse broken_array = Some JNull)
  /\ exists m c, String_match suggest_regex broken_array = Some m
                 /\ capture 1 (m_groups m) = Some c
                 /\ bracketed c /\ json_parse c = None.
Proof.
  assert (H : suggest_of_text json_parse broken_array = SuggestFailed)
    by reflexivity.
  split; [exact H|]. exact (@suggest_failure_only json_parse broken_array H).
Defined.

(* ===================================================================== *)
(** * Further properties: the sequential loop *)
(* ===================================================================== *)

Section LoopMore.

Variable rnd : Q -> number.
Variable browser : jsstring -> page_outcome.

Lemma visit_records (pkg : jsstring) (rs : list competitor) :
  visit rnd browser pkg rs = (Some tt, rs ++ records_for rnd browser pkg).
Proof.
  unfold visit, records_for, try_catch, bind, load, close, push, ret, throw.
  destruct (browser pkg) as [|page [|]]; simpl; try reflexivity.
  now rewrite <- app_assoc.
Qed.

Lemma visit_all_records (packages : list jsstring) (rs : list competitor) :
  visit_all rnd browser packages rs
  = (Some tt, rs ++ flat_map (records_for rnd browser) packages).
Proof.
  revert rs. induction packages as [|pkg rest IH]; intros rs.
  - simpl. unfold ret. now rewrite app_nil_r.
  - cbn [visit_all flat_map]. unfold bind. rewrite visit_records, IH.
    now rewrite app_assoc.
Qed.


End LoopMore.

(** X11.  When every page that loads also closes, the competitors of
    the response are the candidates in their order, with the ranks 1 to
    the number of candidates. *)
Theorem competitors_follow_candidates (rnd : Q -> number)
    (browser : jsstring -> page_outcome) (packages : list jsstring) :
  pages_close browser packages ->
  map r_package (competitors (detail_results rnd browser packages)) = packages
  /\ map rank (competitors (detail_results rnd browser packages))
     = seq 1 (length packages).
Proof. apply ranks_when_pages_close. Qed.

Lemma competitors_follow_candidates_witness :
  pages_close
    (load_fails_on_b (page_with (Some (str "10M+")) (Some (str "Rated 4.5 stars"))))
    three_candidates
  /\ map title
       (detail_results exact_rounding
          (load_fails_on_b (page_with (Some (str "10M+")) (Some (str "Rated 4.5 stars"))))
          three_candidates)
     = [str "Sample App"; str "com.b"; str "Sample App"]
  /\ map r_package
       (competitors
          (detail_results exact_rounding
             (load_fails_on_b (page_with (Some (str "10M+")) (Some (str "Rated 4.5 stars"))))
             three_candidates))
     = three_candidates
  /\ map rank
       (competitors
          (detail_results exact_rounding
             (load_fails_on_b (page_with (Some (str "10M+")) (Some (str "Rated 4.5 stars"))))
             three_candidates))
     = seq 1 (length three_candidates).
Proof.
  assert (H : pages_close
                (load_fails_on_b
                   (page_with (Some (str "10M+")) (Some (str "Rated 4.5 stars"))))
                three_candidates).
  { intros pkg page _. unfold load_fails_on_b.
    destruct (jsstring_eqb pkg (str "com.b")); discriminate. }
  split; [exact H|]. split; [reflexivity|].
  exact (@competitors_follow_candidates exact_rounding
           (load_fails_on_b (page_with (Some (str "10M+")) (Some (str "Rated 4.5 stars"))))
           three_candidates H).
Defined.

(* ===================================================================== *)
(** * Further properties: the record of a loaded page *)
(* ===================================================================== *)

Lemma rating_regex_groups :
  groups_ok (fun _ w => forallb digit_or_dot w = true) rating_out_of_5
  /\ groups_ok (fun _ w => forallb digit_or_dot w = true) rating_star
  /\ groups_ok (fun _ w => forallb digit_or_dot w = true) rating_rated.
Proof.
  assert (H : forall w, lang (Plus (Chr digit_or_dot)) w ->
                        forallb digit_or_dot w = true)
    by (intros w L; now apply lang_Plus_class in L).
  unfold rating_out_of_5, rating_star, rating_rated.
  repeat split; try exact H; try apply groups_ok_LitI; simpl; auto.
Qed.

Lemma digit_or_dot_unsigned (w : jsstring) (c : char) :
  forallb digit_or_dot w = true -> In c w -> c <> 45%N.
Proof.
  rewrite forallb_forall. intros H Hc. apply H in Hc. intros ->. discriminate.
Qed.

(** X12.  In the record of a loaded page the package is the candidate,
    the title is the candidate or a clean text that is not empty, so that
    it is empty only if the candidate is; the description is clean; and
    the developer is never the empty string. *)
Theorem extract_texts (rnd : Q -> number) (pkg : jsstring) (page : detail_page) :
  let r := extract rnd pkg page in
  package r = pkg
  /\ (title r = pkg \/ (clean (title r) /\ title r <> []))
  /\ (pkg <> [] -> title r <> [])
  /\ clean (description r)
  /\ developer r <> Some [].
Proof.
  intros r.
  assert (Ht : title r = pkg \/ (clean (title r) /\ title r <> [])).
  { subst r. unfold extract. cbn [title].
    destruct (truthy_ostring (meta_title (dp_meta page))) eqn:Et.
    - cbn [truthy_ostring].
      destruct (truthy_string (cleanText (meta_title (dp_meta page)))) eqn:E;
        [|now left].
      right. split; [apply cleanText_is_clean|].
      intros H. rewrite H in E. discriminate.
    - destruct (meta_title (dp_meta page)) as [[|x t]|];
        [now left | discriminate | now left]. }
  split; [reflexivity|]. split; [exact Ht|]. split; [|split].
  - intros Hp. destruct Ht as [->|[_ H]]; assumption.
  - subst r. unfold extract. cbn [description].
    match goal with
    | |- clean (if ?b then cleanText ?d else []) =>
        destruct b; [apply cleanText_is_clean | apply clean_nil]
    end.
  - subst r. unfold extract. cbn [developer].
    destruct (meta_developer (dp_meta page)) as [[|x t]|]; simpl; discriminate.
Qed.

Section ExtractNumbers.

Variable rnd : Q -> number.
Hypothesis rnd_monotone : monotone rnd.
Hypothesis rnd_integers : exact_on_integers rnd.

Lemma truthy_positive (n : number) :
  n = NaN \/ num_leb (Fin 0) n = true -> truthy_number n = true ->
  num_ltb (Fin 0) n = true.
Proof.
  intros [->|H] Ht; [discriminate|].
  destruct n as [| | |q]; try discriminate; [reflexivity|].
  simpl in *. apply negb_true_iff. apply negb_true_iff in Ht.
  destruct (Qle_bool q 0) eqn:E; [|reflexivity].
  apply Qle_bool_iff in E, H.
  assert (Hq : (q == 0)%Q) by (apply Qle_antisym; assumption).
  apply Qeq_bool_iff in Hq. congruence.
Qed.

(** X13.  In the record of a loaded page the install count is [null] or a
    number above zero, and the rating is [null], [NaN] or a number from
    zero up: neither is ever negative. *)
Theorem extract_numbers (pkg : jsstring) (page : detail_page) :
  (installs (extract rnd pkg page) = None
   \/ exists n, installs (extract rnd pkg page) = Some n
                /\ num_ltb (Fin 0) n = true)
  /\ not_negative (rating (extract rnd pkg page)).
Proof.
  split.
  - unfold extract. cbn [installs].
    match goal with
    | |- context [parseInstallString rnd ?i] =>
        pose proof (@parseInstallString_sign rnd rnd_monotone rnd_integers i) as Hs;
        destruct (parseInstallString rnd i) as [n|]; [|now left]
    end.
    destruct (truthy_number n) eqn:E; [|now left].
    right. exists n. split; [reflexivity|]. now apply truthy_positive.
  - unfold extract. cbn [rating].
    match goal with
    | |- not_negative (if ?b then Some (parseFloat rnd ?r) else None) =>
        destruct b eqn:Eb; [|exact I];
        assert (Hr : forall c, In c r -> c <> 45%N)
    end.
    + destruct (truthy_ostring (meta_rating (dp_meta page))); [|discriminate].
      set (label := match meta_rating (dp_meta page) with
                    | Some r => r | None => [] end) in *.
      destruct rating_regex_groups as [G1 [G2 G3]].
      assert (Hm : forall re m, groups_ok (fun _ w => forallb digit_or_dot w = true) re ->
                   String_match re label = Some m ->
                   forall w, capture 1 (m_groups m) = Some w ->
                   forall c, In c w -> c <> 45%N).
      { intros re m Hg Hm w Hw c Hin.
        destruct (@search_sound _ _ _ _ _ Hg Hm) as [_ [Hc _]].
        apply (@digit_or_dot_unsigned w c); [|exact Hin].
        apply (Hc 1). now apply capture_In. }
      unfold or_else.
      destruct (String_match rating_out_of_5 label) as [m1|] eqn:E1.
      { destruct (capture 1 (m_groups m1)) as [w|] eqn:Ew; [|intros c []].
        exact (Hm _ _ G1 E1 w Ew). }
      destruct (String_match rating_star label) as [m2|] eqn:E2.
      { destruct (capture 1 (m_groups m2)) as [w|] eqn:Ew; [|intros c []].
        exact (Hm _ _ G2 E2 w Ew). }
      destruct (String_match rating_rated label) as [m3|] eqn:E3;
        [|intros c []].
      destruct (capture 1 (m_groups m3)) as [w|] eqn:Ew; [|intros c []].
      exact (Hm _ _ G3 E3 w Ew).
    + apply (@parseFloat_unsigned rnd rnd_monotone rnd_integers). exact Hr.
Qed.

End ExtractNumbers.

Lemma extract_numbers_witness :
  monotone exact_rounding /\ exact_on_integers exact_rounding
  /\ (installs (extract exact_rounding (str "com.a")
                  (page_with (Some (str "1,000+ downloads"))
                             (Some (str "Rated 4.5 out of 5 stars")))) = None
      \/ exists n, installs (extract exact_rounding (str "com.a")
                     (page_with (Some (str "1,000+ downloads"))
                                (Some (str "Rated 4.5 out of 5 stars")))) = Some n
                   /\ num_ltb (Fin 0) n = true)
  /\ not_negative (rating (extract exact_rounding (str "com.a")
                     (page_with (Some (str "1,000+ downloads"))
                                (Some (str "Rated 4.5 out of 5 stars"))))).
Proof.
  split; [exact exact_rounding_monotone|].
  split; [exact exact_rounding_integers|].
  exact (@extract_numbers exact_rounding exact_rounding_monotone
           exact_rounding_integers (str "com.a")
           (page_with (Some (str "1,000+ downloads"))
                      (Some (str "Rated 4.5 out of 5 stars")))).
Defined.

(* ===================================================================== *)
(** * Further properties: tokens and frequencies *)
(* ===================================================================== *)

Lemma replace_all_chars (p : char -> bool) (by_ : jsstring) (k : nat)
    (s : jsstring) (c : char) :
  In c (replace_all (Chr p) by_ k s) -> In c by_ \/ (In c s /\ p c = false).
Proof.
  revert k; induction s as [|x t IH]; intros k; [intros []|].
  cbn [replace_all]. destruct k as [|k].
  - rewrite match_here_Chr. destruct (p x) eqn:Ex.
    + intros H. apply in_app_or in H as [H|H]; [now left|].
      apply IH in H. simpl. tauto.
    + intros [<-|H]; [right; simpl; auto|]. apply IH in H. simpl. tauto.
  - intros H. apply IH in H. simpl. tauto.
Qed.

Lemma split_pieces (k : nat) (cur s piece : jsstring) :
  (forall c, In c cur -> is_space c = false) ->
  In piece (split_re (Plus (Chr is_space)) k cur s) ->
  forall c, In c piece -> is_space c = false /\ (In c cur \/ In c s).
Proof.
  revert k cur; induction s as [|x t IH]; intros k cur Hcur.
  - intros [<-|[]] c Hc. apply in_rev in Hc. auto.
  - cbn [split_re]. destruct k as [|k].
    + rewrite match_here_Plus. destruct (is_space x) eqn:Ex.
      * intros [<-|H] c Hc.
        -- apply in_rev in Hc. auto.
        -- destruct (IH _ [] (fun c0 (F : In c0 []) => match F with end) H c Hc)
             as [H1 [[]|H2]].
           split; [assumption|]. right. now right.
      * intros H c Hc.
        assert (Hcur' : forall c0, In c0 (x :: cur) -> is_space c0 = false)
          by (intros c0 [<-|H0]; auto).
        destruct (IH _ _ Hcur' H c Hc) as [H1 [[<-|H2]|H2]].
        -- split; [assumption|]. right. now left.
        -- auto.
        -- split; [assumption|]. right. now right.
    + intros H c Hc. destruct (IH _ _ Hcur H c Hc) as [H1 [H2|H2]]; auto.
      split; [assumption|]. right. now right.
Qed.

Section TokensMore.

Variable toLowerCase : jsstring -> jsstring.

Lemma tokenize_tokens (s tk : jsstring) :
  In tk (tokenize toLowerCase s) ->
  tk <> [] /\ forallb token_char tk = true.
Proof.
  unfold tokenize. destruct (negb (truthy_string s)); [intros []|].
  intros H. apply filter_In in H as [H Hne]. split.
  - intros ->. discriminate.
  - apply in_map_iff in H as [piece [<- Hp]].
    apply forallb_forall. intros c Hc. apply trim_In in Hc.
    unfold String_split in Hp.
    destruct (@split_pieces 0 [] _ piece (fun c0 (F : In c0 []) => match F with end)
                Hp c Hc) as [Hsp [[]|Hin]].
    apply replace_all_chars in Hin as [Hin|[_ Hn]].
    + destruct Hin as [<-|[]]. discriminate.
    + unfold not_token_char in Hn. apply negb_false_iff in Hn.
      unfold token_char. rewrite Hsp in Hn.
      now rewrite orb_false_r in Hn.
Qed.

(** X14.  Whatever [toLowerCase] does, each token of a text is a
    non-empty string of the code units [a-z], [0-9] and ['] alone. *)
Theorem tokenize_shape (s tk : jsstring) :
  In tk (tokenize toLowerCase s) ->
  tk <> [] /\ forallb token_char tk = true.
Proof. apply tokenize_tokens. Qed.

End TokensMore.

Lemma tokenize_shape_witness :
  In (str "editor") (tokenize toLowerCase_ascii (str "Photo-Editor: Pro!"))
  /\ str "editor" <> []
  /\ forallb token_char (str "editor") = true.
Proof.
  assert (H : In (str "editor")
                (tokenize toLowerCase_ascii (str "Photo-Editor: Pro!")))
    by (right; left; reflexivity).
  split; [exact H|].
  exact (@tokenize_shape toLowerCase_ascii (str "Photo-Editor: Pro!")
           (str "editor") H).
Defined.

Lemma trim_fixes (x : jsstring) :
  (forall c, In c x -> is_space c = false) -> trim x = x.
Proof.
  intros H. unfold trim, trimEnd.
  assert (Hs : forall l : jsstring,
             (forall c, In c l -> is_space c = false) -> trimStart l = l).
  { intros l Hl. apply trimStart_fixes. destruct l as [|y l]; [exact I|].
    apply Hl. now left. }
  rewrite (Hs x H), Hs; [apply rev_involutive|].
  intros c Hc. apply H. now apply in_rev.
Qed.

Section KeywordsFacts.

Variable toLowerCase : jsstring -> jsstring.

Lemma baseTokens_seed_tokens (keyword : jsstring) :
  baseTokens toLowerCase keyword = seed_tokens toLowerCase keyword.
Proof.
  unfold baseTokens, seed_tokens. f_equal. apply map_ext_in.
  intros x Hx. f_equal. apply trim_fixes. intros c Hc.
  unfold String_split in Hx.
  now destruct (@split_pieces 0 [] keyword x
                  (fun c0 (F : In c0 []) => match F with end) Hx c Hc).
Qed.

(** C6.  After the competitors, each token of the keyword, split on white
    space and put in lower case, that has three code units or more adds 6
    to its entry once per occurrence, stopword or not; the seed
    ["the app"] without competitors gives ["the"] and ["app"] the score
    6, and so does the seed ["THE App"]. *)
Theorem seed_tokens_weight (keyword : jsstring) (results : list competitor)
    (key : jsstring) :
  let before := fold_left (count_record toLowerCase) results [] in
  let n := count_occ jsstring_eq_dec (counted (seed_tokens toLowerCase keyword)) key in
  Map_get key (frequencies toLowerCase results keyword)
  = (if Nat.eqb n 0 then Map_get key before
     else Some (get_or_0 key before + 6 * Z.of_nat n)%Z)
  /\ (TITLE_BOOST * 2 = 6)%Z
  /\ (toLowerCase (str "the") = str "the" ->
      toLowerCase (str "app") = str "app" ->
      Set_has (str "the") stopwords = true
      /\ Set_has (str "app") stopwords = true
      /\ frequencies toLowerCase [] (str "the app")
         = [(str "the", 6%Z); (str "app", 6%Z)])
  /\ (toLowerCase (str "THE") = str "the" ->
      toLowerCase (str "App") = str "app" ->
      frequencies toLowerCase [] (str "THE App")
      = [(str "the", 6%Z); (str "app", 6%Z)]).
Proof.
  intros before n. split; [|split; [reflexivity|split]].
  - unfold frequencies, add_seed. fold before.
    rewrite count_seed_fold, baseTokens_seed_tokens.
    fold n. destruct n; [reflexivity|].
    cbn [Nat.eqb]. reflexivity.
  - intros Hthe Happ. split; [reflexivity|]. split; [reflexivity|].
    unfold frequencies, add_seed, baseTokens.
    change (String_split (Plus (Chr is_space)) (str "the app"))
      with [str "the"; str "app"].
    change (map (fun x => toLowerCase (trim x)) [str "the"; str "app"])
      with [toLowerCase (str "the"); toLowerCase (str "app")].
    rewrite Hthe, Happ. reflexivity.
  - intros Hthe Happ.
    unfold frequencies, add_seed, baseTokens.
    change (String_split (Plus (Chr is_space)) (str "THE App"))
      with [str "THE"; str "App"].
    change (map (fun x => toLowerCase (trim x)) [str "THE"; str "App"])
      with [toLowerCase (str "THE"); toLowerCase (str "App")].
    rewrite Hthe, Happ. reflexivity.
Qed.

End KeywordsFacts.

Lemma seed_tokens_weight_witness :
  toLowerCase_ascii (str "THE") = str "the"
  /\ toLowerCase_ascii (str "App") = str "app"
  /\ Map_get (str "the") (frequencies toLowerCase_ascii [] (str "THE App  the"))
     = Some 12%Z
  /\ Set_has (str "the") stopwords = true
  /\ frequencies toLowerCase_ascii [] (str "THE App")
     = [(str "the", 6%Z); (str "app", 6%Z)].
Proof.
  split; [reflexivity|]. split; [reflexivity|].
  split.
  - exact (proj1 (seed_tokens_weight toLowerCase_ascii (str "THE App  the") []
                    (str "the"))).
  - split; [reflexivity|].
    apply (proj2 (proj2 (proj2 (seed_tokens_weight toLowerCase_ascii
                                  (str "THE App") [] (str "the")))));
      reflexivity.
Defined.

Lemma get_or_0_default (k : jsstring) (m : freq_map) :
  get_or_0 k m = match Map_get k m with Some v => v | None => 0%Z end.
Proof.
  unfold get_or_0. destruct (Map_get k m) as [v|]; [|reflexivity].
  destruct (Z.eqb_spec v 0); congruence.
Qed.

Lemma grew_by_refl (key : jsstring) (m : freq_map) : grew_by key 0 m m.
Proof. split; [lia | reflexivity]. Qed.

Lemma grew_by_trans (key : jsstring) (a b : Z) (m1 m2 m3 : freq_map) :
  grew_by key a m1 m2 -> grew_by key b m2 m3 -> grew_by key (a + b) m1 m3.
Proof.
  intros [Ha H1] [Hb H2]. split; [lia|].
  rewrite H2. destruct (Z.eqb_spec b 0) as [->|Nb].
  - rewrite Z.add_0_r. exact H1.
  - destruct (Z.eqb_spec (a + b) 0) as [E|_]; [lia|].
    f_equal. rewrite (get_or_0_default key m2), H1.
    destruct (Z.eqb_spec a 0) as [->|Na].
    + rewrite <- get_or_0_default. lia.
    + lia.
Qed.

Lemma grew_by_set (key : jsstring) (w : Z) (m : freq_map) :
  (0 < w)%Z -> grew_by key w m (Map_set key (get_or_0 key m + w) m).
Proof.
  intros Hw. split; [lia|]. rewrite Map_get_set_same.
  destruct (Z.eqb_spec w 0); [lia | reflexivity].
Qed.

Lemma grew_by_other (key k : jsstring) (v : Z) (m : freq_map) :
  k <> key -> grew_by key 0 m (Map_set k v m).
Proof.
  intros Hne. split; [lia|]. now rewrite Map_get_set_other.
Qed.

Lemma occurrences_cons (key tk : jsstring) (tokens : list jsstring) :
  occurrences key (tk :: tokens)
  = ((if jsstring_eq_dec tk key then 1 else 0) + occurrences key tokens)%Z.
Proof.
  unfold occurrences. cbn [count_occ].
  destruct (jsstring_eq_dec tk key); lia.
Qed.

Lemma occurrences_not_negative (key : jsstring) (tokens : list jsstring) :
  (0 <= occurrences key tokens)%Z.
Proof. unfold occurrences. lia. Qed.

Lemma count_token_fold (w : Z) (key : jsstring) (tokens : list jsstring) :
  (0 < w)%Z ->
  forall m : freq_map,
    grew_by key (if qualifies key then w * occurrences key tokens else 0) m
      (fold_left (count_token w) tokens m).
Proof.
  intros Hw. induction tokens as [|tk tokens IH]; intros m.
  - cbn [fold_left]. unfold occurrences. cbn [count_occ].
    replace (w * Z.of_nat 0)%Z with 0%Z by lia.
    destruct (qualifies key); apply grew_by_refl.
  - cbn [fold_left].
    assert (Hstep : grew_by key
              (if qualifies key then (if jsstring_eq_dec tk key then w else 0) else 0)
              m (count_token w m tk)).
    { unfold count_token. destruct (jsstring_eq_dec tk key) as [->|Hne].
      - unfold qualifies.
        destruct (Nat.ltb (length key) 3 || Set_has key stopwords); cbn [negb].
        + apply grew_by_refl.
        + now apply grew_by_set.
      - destruct (Nat.ltb (length tk) 3 || Set_has tk stopwords).
        + destruct (qualifies key); apply grew_by_refl.
        + destruct (qualifies key); now apply grew_by_other. }
    pose proof (grew_by_trans Hstep (IH (count_token w m tk))) as H.
    rewrite occurrences_cons.
    match goal with
    | H : grew_by _ ?a _ _ |- grew_by _ ?b _ _ => replace b with a; [exact H|]
    end.
    destruct (qualifies key); [|reflexivity].
    destruct (jsstring_eq_dec tk key); lia.
Qed.

Lemma count_seed_grows (key : jsstring) (tokens : list jsstring) :
  forall m : freq_map,
    grew_by key (if Nat.leb 3 (length key) then 6 * occurrences key tokens else 0) m
      (fold_left count_seed tokens m).
Proof.
  induction tokens as [|t tokens IH]; intros m.
  - cbn [fold_left]. unfold occurrences. cbn [count_occ].
    replace (6 * Z.of_nat 0)%Z with 0%Z by lia.
    destruct (Nat.leb 3 (length key)); apply grew_by_refl.
  - cbn [fold_left].
    assert (Hstep : grew_by key
              (if Nat.leb 3 (length key)
               then (if jsstring_eq_dec t key then 6 else 0) else 0)
              m (count_seed m t)).
    { unfold count_seed. destruct (jsstring_eq_dec t key) as [->|Hne].
      - destruct (Nat.leb 3 (length key)).
        + apply grew_by_set. reflexivity.
        + apply grew_by_refl.
      - destruct (Nat.leb 3 (length t)).
        + destruct (Nat.leb 3 (length key)); now apply grew_by_other.
        + destruct (Nat.leb 3 (length key)); apply grew_by_refl. }
    pose proof (grew_by_trans Hstep (IH (count_seed m t))) as H.
    rewrite occurrences_cons.
    match goal with
    | H : grew_by _ ?a _ _ |- grew_by _ ?b _ _ => replace b with a; [exact H|]
    end.
    destruct (Nat.leb 3 (length key)); [|reflexivity].
    destruct (jsstring_eq_dec t key); lia.
Qed.

Section FrequenciesMore.

Variable toLowerCase : jsstring -> jsstring.

Lemma count_record_grows (key : jsstring) (r : competitor) (m : freq_map) :
  grew_by key
    (if qualifies key
     then 3 * occurrences key (tokenize toLowerCase (title r))
          + occurrences key (tokenize toLowerCase (description r))
     else 0) m (count_record toLowerCase m r).
Proof.
  unfold count_record. cbv zeta.
  pose proof (@count_token_fold TITLE_BOOST key (tokenize toLowerCase (title r))
                eq_refl m) as H1.
  pose proof (@count_token_fold 1 key (tokenize toLowerCase (description r))
                eq_refl
                (fold_left (count_token TITLE_BOOST)
                   (tokenize toLowerCase (title r)) m)) as H2.
  pose proof (grew_by_trans H1 H2) as H.
  match goal with
  | H : grew_by _ ?a _ _ |- grew_by _ ?b _ _ => replace b with a; [exact H|]
  end.
  unfold TITLE_BOOST. destruct (qualifies key); lia.
Qed.

Lemma count_records_grow (key : jsstring) (results : list competitor) :
  forall m : freq_map,
    grew_by key
      (if qualifies key
       then sum (map (fun r => 3 * occurrences key (tokenize toLowerCase (title r))
                               + occurrences key (tokenize toLowerCase (description r)))
                     results)
       else 0)%Z m (fold_left (count_record toLowerCase) results m).
Proof.
  induction results as [|r results IH]; intros m.
  - cbn. destruct (qualifies key); apply grew_by_refl.
  - cbn [fold_left map sum fold_right].
    pose proof (grew_by_trans (count_record_grows key r m)
                  (IH (count_record toLowerCase m r))) as H.
    match goal with
    | H : grew_by _ ?a _ _ |- grew_by _ ?b _ _ => replace b with a; [exact H|]
    end.
    fold (sum (map (fun r0 => 3 * occurrences key (tokenize toLowerCase (title r0))
                 + occurrences key (tokenize toLowerCase (description r0)))%Z results)).
    destruct (qualifies key); lia.
Qed.

Lemma frequencies_grow (results : list competitor) (keyword key : jsstring) :
  grew_by key (score_of toLowerCase results keyword key) []
    (frequencies toLowerCase results keyword).
Proof.
  unfold frequencies, add_seed, score_of.
  exact (grew_by_trans (count_records_grow key results [])
           (count_seed_grows key (baseTokens toLowerCase keyword) _)).
Qed.

(** X15.  The score of a key once the competitors and the keyword are
    counted: 3 for each occurrence among the tokens of a title and 1 for
    each occurrence among those of a description, when the key has three
    code units or more and is no stopword, and 6 for each occurrence
    among the tokens of the keyword when it has three code units or more.
    A key whose score would be 0 has no entry. *)
Theorem frequencies_score (results : list competitor) (keyword key : jsstring) :
  Map_get key (frequencies toLowerCase results keyword)
  = (if Z.eqb (score_of toLowerCase results keyword key) 0 then None
     else Some (score_of toLowerCase results keyword key)).
Proof.
  destruct (frequencies_grow results keyword key) as [_ H].
  rewrite H. destruct (Z.eqb _ 0); reflexivity.
Qed.

End FrequenciesMore.

(* ===================================================================== *)
(** * Further properties: the entries of the frequency map *)
(* ===================================================================== *)

Lemma Map_set_keys (k : jsstring) (v : Z) (m : freq_map) :
  keys (Map_set k v m) = keys m
  \/ (~ In k (keys m) /\ keys (Map_set k v m) = keys m ++ [k]).
Proof.
  induction m as [|[k' v'] m IH]; cbn [Map_set].
  - right. split; [intros [] | reflexivity].
  - destruct (jsstring_eqb_spec k' k) as [->|Hne]; [now left|].
    unfold keys in *. cbn [map fst]. destruct IH as [->|[Hn ->]]; [now left|].
    right. split; [|reflexivity]. intros [H|H]; [congruence | contradiction].
Qed.

Lemma Map_set_NoDup (k : jsstring) (v : Z) (m : freq_map) :
  NoDup (keys m) -> NoDup (keys (Map_set k v m)).
Proof.
  intros H. destruct (Map_set_keys k v m) as [->|[Hn ->]]; [assumption|].
  apply NoDup_app; [assumption | repeat constructor; intros [] |].
  intros x Hx [<-|[]]. contradiction.
Qed.

Lemma Map_get_In (k : jsstring) (v : Z) (m : freq_map) :
  NoDup (keys m) -> In (k, v) m -> Map_get k m = Some v.
Proof.
  induction m as [|[k' v'] m IH]; [intros _ []|].
  unfold keys. cbn [map fst Map_get]. intros Hd [E|Hin].
  - injection E as -> ->. now rewrite jsstring_eqb_refl.
  - inversion Hd as [|? ? Hn Hd']; subst.
    destruct (jsstring_eqb_spec k' k) as [->|Hne].
    + exfalso. apply Hn. change (In (fst (k, v)) (map fst m)). now apply in_map.
    + now apply IH.
Qed.

Lemma fold_left_invariant (A B : Type) (P : A -> Prop) (f : A -> B -> A)
    (l : list B) :
  (forall a b, P a -> P (f a b)) -> forall a, P a -> P (fold_left f l a).
Proof.
  intros Hf. induction l as [|b l IH]; intros a Ha; [exact Ha|].
  cbn [fold_left]. apply IH, Hf, Ha.
Qed.

Lemma sum_positive (A : Type) (f : A -> Z) (l : list A) :
  (forall a, (0 <= f a)%Z) -> sum (map f l) <> 0%Z ->
  exists a, In a l /\ (0 < f a)%Z.
Proof.
  intros Hf. induction l as [|a l IH]; cbn [map sum fold_right]; [congruence|].
  fold (sum (map f l)). intros H.
  destruct (Z.eq_dec (f a) 0) as [E|E].
  - destruct IH as [b [Hb Hp]]; [lia|]. exists b. split; [now right | exact Hp].
  - exists a. split; [now left|]. specialize (Hf a). lia.
Qed.

Lemma occurrences_In (key : jsstring) (tokens : list jsstring) :
  (0 < occurrences key tokens)%Z -> In key tokens.
Proof.
  unfold occurrences. intros H.
  apply (count_occ_In jsstring_eq_dec). lia.
Qed.

Lemma qualifies_length (key : jsstring) : qualifies key = true -> 3 <= length key.
Proof.
  unfold qualifies. intros H. apply negb_true_iff, orb_false_elim in H.
  destruct H as [H _]. apply Nat.ltb_ge in H. exact H.
Qed.

Section EntriesMore.

Variable toLowerCase : jsstring -> jsstring.

Lemma frequencies_NoDup (results : list competitor) (keyword : jsstring) :
  NoDup (keys (frequencies toLowerCase results keyword)).
Proof.
  assert (Ht : forall w m tk, NoDup (keys m) -> NoDup (keys (count_token w m tk))).
  { intros w m tk H. unfold count_token.
    destruct (Nat.ltb (length tk) 3 || Set_has tk stopwords);
      [assumption | now apply Map_set_NoDup]. }
  unfold frequencies, add_seed.
  apply fold_left_invariant.
  - intros m t H. unfold count_seed.
    destruct (Nat.leb 3 (length t)); [now apply Map_set_NoDup | assumption].
  - apply fold_left_invariant; [|constructor].
    intros m r H. unfold count_record. cbv zeta.
    apply fold_left_invariant; [apply Ht|].
    apply fold_left_invariant; [apply Ht | assumption].
Qed.

Lemma frequencies_entry (results : list competitor) (keyword k : jsstring) (v : Z) :
  In (k, v) (frequencies toLowerCase results keyword) ->
  v = score_of toLowerCase results keyword k /\ (1 <= v)%Z.
Proof.
  intros Hin. apply Map_get_In in Hin; [|apply frequencies_NoDup].
  destruct (frequencies_grow toLowerCase results keyword k) as [H0 H].
  rewrite Hin in H.
  destruct (Z.eqb_spec (score_of toLowerCase results keyword k) 0) as [E|E];
    [discriminate|].
  injection H as ->. cbn. split; [reflexivity|].
  change (get_or_0 k []) with 0%Z. lia.
Qed.

Lemma score_origin (results : list competitor) (keyword k : jsstring) :
  score_of toLowerCase results keyword k <> 0%Z ->
  (3 <= length k /\ In k (baseTokens toLowerCase keyword))
  \/ (qualifies k = true
      /\ exists r, In r results
           /\ (In k (tokenize toLowerCase (title r))
               \/ In k (tokenize toLowerCase (description r)))).
Proof.
  unfold score_of. intros H.
  destruct (Nat.leb 3 (length k)) eqn:El.
  - destruct (Z.eq_dec (occurrences k (baseTokens toLowerCase keyword)) 0) as [E|E].
    + right. destruct (qualifies k); [|lia]. split; [reflexivity|].
      rewrite E in H.
      destruct (@sum_positive _
                  (fun r => 3 * occurrences k (tokenize toLowerCase (title r))
                            + occurrences k (tokenize toLowerCase (description r)))%Z
                  results) as [r [Hr Hp]].
      * intros r. pose proof (occurrences_not_negative k (tokenize toLowerCase (title r))).
        pose proof (occurrences_not_negative k (tokenize toLowerCase (description r))).
        lia.
      * lia.
      * exists r. split; [assumption|].
        destruct (Z.eq_dec (occurrences k (tokenize toLowerCase (title r))) 0) as [E0|E0].
        -- right. apply occurrences_In. lia.
        -- left. apply occurrences_In.
           pose proof (occurrences_not_negative k (tokenize toLowerCase (title r))).
           lia.
    + left. split; [now apply Nat.leb_le|]. apply occurrences_In.
      pose proof (occurrences_not_negative k (baseTokens toLowerCase keyword)). lia.
  - destruct (qualifies k) eqn:Eq; [|lia].
    apply qualifies_length in Eq. apply Nat.leb_gt in El. lia.
Qed.

(** X16.  The entries of the frequency map have pairwise distinct keys;
    each key has three code units or more and a score of 1 or more, the
    one that the counting rules give it; and a key is a token of the
    keyword, or a token of a title or of a description that is no
    stopword and is made of [a-z], [0-9] and ['] alone. *)
Theorem frequencies_entries (results : list competitor) (keyword : jsstring) :
  NoDup (keys (frequencies toLowerCase results keyword))
  /\ forall k v,
       In (k, v) (frequencies toLowerCase results keyword) ->
       v = score_of toLowerCase results keyword k
       /\ (1 <= v)%Z
       /\ 3 <= length k
       /\ (In k (baseTokens toLowerCase keyword)
           \/ (Set_has k stopwords = false
               /\ forallb token_char k = true
               /\ exists r, In r results
                    /\ (In k (tokenize toLowerCase (title r))
                        \/ In k (tokenize toLowerCase (description r))))).
Proof.
  split; [apply frequencies_NoDup|].
  intros k v Hin. destruct (frequencies_entry _ _ _ _ Hin) as [Ev Hv].
  split; [exact Ev|]. split; [exact Hv|].
  assert (Hs : score_of toLowerCase results keyword k <> 0%Z) by lia.
  destruct (score_origin _ _ _ Hs) as [[Hl Hb]|[Hq [r [Hr Ht]]]].
  - split; [exact Hl | now left].
  - split; [now apply qualifies_length|]. right.
    split.
    + unfold qualifies in Hq. apply negb_true_iff, orb_false_elim in Hq. tauto.
    + split.
      * destruct Ht as [Ht|Ht]; now apply (tokenize_tokens toLowerCase _ _ Ht).
      * exists r. auto.
Qed.

End EntriesMore.

(* ===================================================================== *)
(** * Further properties: the sort and the suggestions *)
(* ===================================================================== *)

Lemma insert_by_score_In (e x : jsstring * Z) (l : freq_map) :
  In x (insert_by_score e l) <-> x = e \/ In x l.
Proof.
  induction l as [|h t IH]; cbn [insert_by_score].
  - simpl. intuition congruence.
  - destruct (Z.ltb (snd e) (snd h)); simpl in *; rewrite ?IH; intuition congruence.
Qed.

Lemma insert_by_score_descending (e : jsstring * Z) (l : freq_map) :
  descending (map snd l) -> descending (map snd (insert_by_score e l)).
Proof.
  induction l as [|h t IH]; cbn [insert_by_score map descending].
  - intros _. split; [intros y [] | exact I].
  - intros [Hh Ht]. destruct (Z.ltb_spec (snd e) (snd h)) as [Hlt|Hge];
      cbn [map descending].
    + split; [|now apply IH].
      intros y Hy. apply in_map_iff in Hy as [x [<- Hx]].
      apply insert_by_score_In in Hx as [->|Hx]; [lia|].
      apply Hh. now apply in_map.
    + split; [|split; assumption].
      intros y [<-|Hy]; [assumption|]. specialize (Hh y Hy). lia.
Qed.

Lemma insert_by_score_of_score (z : Z) (e : jsstring * Z) (l : freq_map) :
  of_score z (insert_by_score e l)
  = if Z.eqb (snd e) z then e :: of_score z l else of_score z l.
Proof.
  unfold of_score. induction l as [|h t IH]; cbn [insert_by_score filter].
  - reflexivity.
  - destruct (Z.ltb_spec (snd e) (snd h)) as [Hlt|Hge]; cbn [filter].
    + rewrite IH. destruct (Z.eqb_spec (snd e) z) as [E|E]; [|reflexivity].
      destruct (Z.eqb_spec (snd h) z); [lia | reflexivity].
    + reflexivity.
Qed.

Lemma sort_by_score_In (x : jsstring * Z) (m : freq_map) :
  In x (sort_by_score m) <-> In x m.
Proof.
  unfold sort_by_score. induction m as [|e m IH]; cbn [fold_right]; [tauto|].
  rewrite insert_by_score_In, IH. simpl. intuition congruence.
Qed.

Lemma sort_by_score_descending (m : freq_map) :
  descending (map snd (sort_by_score m)).
Proof.
  unfold sort_by_score. induction m as [|e m IH]; cbn [fold_right]; [exact I|].
  now apply insert_by_score_descending.
Qed.

Lemma sort_by_score_of_score (z : Z) (m : freq_map) :
  of_score z (sort_by_score m) = of_score z m.
Proof.
  unfold sort_by_score. induction m as [|e m IH]; cbn [fold_right]; [reflexivity|].
  rewrite insert_by_score_of_score, IH. reflexivity.
Qed.

Lemma sort_by_score_length (m : freq_map) : length (sort_by_score m) = length m.
Proof.
  unfold sort_by_score. induction m as [|e m IH]; cbn [fold_right length];
    [reflexivity|].
  rewrite <- IH. generalize (fold_right insert_by_score [] m). intros l.
  induction l as [|h t IHl]; cbn [insert_by_score]; [reflexivity|].
  destruct (Z.ltb (snd e) (snd h)); cbn [length]; [rewrite IHl|]; reflexivity.
Qed.

Lemma descending_app (a b : list Z) :
  descending (a ++ b) ->
  descending a /\ forall x y, In x a -> In y b -> (y <= x)%Z.
Proof.
  induction a as [|h a IH]; cbn [app descending].
  - intros _. split; [exact I | intros x y []].
  - intros [Hh Hd]. destruct (IH Hd) as [Ha Hab]. split.
    + split; [|exact Ha]. intros y Hy. apply Hh, in_or_app. now left.
    + intros x y [<-|Hx] Hy; [apply Hh, in_or_app; now right | now apply Hab].
Qed.

(** X17.  The sort puts the scores from the highest to the lowest and
    keeps the entries of equal score in the order of the map; nothing is
    added or lost. *)
Theorem sort_by_score_stable (m : freq_map) :
  descending (map snd (sort_by_score m))
  /\ (forall z, of_score z (sort_by_score m) = of_score z m)
  /\ length (sort_by_score m) = length m
  /\ (forall e, In e (sort_by_score m) <-> In e m).
Proof.
  split; [apply sort_by_score_descending|].
  split; [intros z; apply sort_by_score_of_score|].
  split; [apply sort_by_score_length|].
  intros e. apply sort_by_score_In.
Qed.

Section SuggestionsMore.

Variable rnd : Q -> number.

Lemma suggestions_entries (results : list competitor) (freqMap : freq_map) :
  map entry (suggestions rnd results freqMap) = firstn 120 (sort_by_score freqMap).
Proof.
  unfold suggestions. cbv zeta. rewrite map_map. unfold entry. cbn [s_keyword s_score].
  rewrite <- (map_id (firstn 120 (sort_by_score freqMap))) at 2.
  apply map_ext. intros [k v]. reflexivity.
Qed.

(** X18.  The suggestions are the 120 entries of the highest scores, or
    all the entries when there are fewer: their scores go from the
    highest to the lowest, each one is an entry of the map, and an entry
    that is left out has a score that is not above any score kept. *)
Theorem suggestions_top (results : list competitor) (freqMap : freq_map) :
  let kept := suggestions rnd results freqMap in
  length kept = Nat.min 120 (length freqMap)
  /\ descending (map s_score kept)
  /\ (forall s, In s kept -> In (entry s) freqMap)
  /\ (forall e, In e freqMap ->
        In e (map entry kept) \/ forall s, In s kept -> (snd e <= s_score s)%Z).
Proof.
  intros kept. pose proof (suggestions_entries results freqMap) as He. fold kept in He.
  pose proof (sort_by_score_descending freqMap) as Hd.
  rewrite <- (firstn_skipn 120 (sort_by_score freqMap)), map_app in Hd.
  apply descending_app in Hd as [Hd1 Hd2].
  assert (Hs : map s_score kept = map snd (firstn 120 (sort_by_score freqMap))).
  { rewrite <- He, map_map. reflexivity. }
  split.
  - rewrite <- (length_map entry), He, length_firstn, sort_by_score_length. reflexivity.
  - split; [rewrite Hs; exact Hd1|]. split.
    + intros s Hin. apply sort_by_score_In.
      apply (firstn_In 120). rewrite <- He. now apply in_map.
    + intros e Hin. apply sort_by_score_In in Hin.
      rewrite <- (firstn_skipn 120 (sort_by_score freqMap)) in Hin.
      apply in_app_or in Hin as [Hin|Hin]; [left; now rewrite He|].
      right. intros s Hsin. apply Hd2.
      * rewrite <- Hs. now apply in_map.
      * now apply in_map.
Qed.

End SuggestionsMore.

(* ===================================================================== *)
(** * Further properties: the average and the response *)
(* ===================================================================== *)

Section AverageMore.

Variable rnd : Q -> number.
Hypothesis rnd_monotone : monotone rnd.
Hypothesis rnd_integers : exact_on_integers rnd.

Lemma positive_cases (n : number) :
  num_ltb (Fin 0) n = true -> n = PInf \/ exists q, n = Fin q /\ (0 < q)%Q.
Proof.
  destruct n as [| | |q]; simpl; try discriminate; auto.
  intros H. right. exists q. split; [reflexivity|].
  apply negb_true_iff in H.
  destruct (Qlt_le_dec 0 q) as [Hlt|Hle]; [assumption|].
  apply Qle_bool_iff in Hle. congruence.
Qed.

Lemma sum_not_negative (l : list number) :
  (forall n, In n l -> num_ltb (Fin 0) n = true) ->
  forall acc, num_leb (Fin 0) acc = true ->
    num_leb (Fin 0) (fold_left (num_add rnd) l acc) = true.
Proof.
  induction l as [|n l IH]; intros Hl acc Hacc; [exact Hacc|].
  cbn [fold_left]. apply IH; [intros x Hx; apply Hl; now right|].
  destruct (@positive_cases n (Hl n (or_introl eq_refl))) as [->|[q [-> Hq]]].
  - destruct acc; try discriminate; reflexivity.
  - destruct acc as [| | |a]; try discriminate; [reflexivity|].
    simpl in *. apply (rnd_not_negative rnd_monotone rnd_integers).
    apply Qle_bool_iff in Hacc. lra.
Qed.

Lemma installsList_positive (results : list competitor) (n : number) :
  In n (installsList results) -> num_ltb (Fin 0) n = true.
Proof.
  unfold installsList. intros H. apply filter_In in H. tauto.
Qed.

Lemma avgInstalls_sign (results : list competitor) :
  num_leb (Fin 0) (avgInstalls rnd results) = true.
Proof.
  unfold avgInstalls. cbv zeta.
  pose proof (installsList_positive results) as Hp.
  destruct (installsList results) as [|n l] eqn:El; [reflexivity|].
  pose proof (@sum_not_negative (n :: l) Hp (Fin 0) eq_refl) as Hs.
  set (total := fold_left (num_add rnd) (n :: l) (Fin 0)) in *.
  assert (Hn : (0 < Z.of_nat (length (n :: l)))%Z) by (cbn [length]; lia).
  assert (Hq : (0 < inject_Z (Z.of_nat (length (n :: l))))%Q).
  { change 0%Q with (inject_Z 0). now rewrite <- Zlt_Qlt. }
  unfold num_of_Z.
  assert (Hz : Qzero_b (inject_Z (Z.of_nat (length (n :: l)))) = false).
  { unfold Qzero_b, inject_Z, Qnum. apply Z.eqb_neq. lia. }
  assert (Hpos : Qpos_b (inject_Z (Z.of_nat (length (n :: l)))) = true).
  { unfold Qpos_b, inject_Z, Qnum. now apply Z.ltb_lt. }
  set (d := inject_Z (Z.of_nat (length (n :: l)))) in *.
  destruct total as [| | |p]; try discriminate.
  - unfold num_div. rewrite Hpos. reflexivity.
  - simpl in Hs. apply Qle_bool_iff in Hs. unfold num_div. rewrite Hz.
    apply (rnd_not_negative rnd_monotone rnd_integers).
    apply Qle_shift_div_l; [assumption | lra].
Qed.

(** X19.  The average of the install counts is never [NaN] and never
    below zero, whatever the records hold; so the [avgInstalls] of the
    response is [Infinity] or an integer that is zero or more. *)
Theorem avgInstalls_not_negative (results : list competitor) :
  num_leb (Fin 0) (avgInstalls rnd results) = true
  /\ (Math_round (avgInstalls rnd results) = PInf
      \/ exists z : Z, (0 <= z)%Z
           /\ Math_round (avgInstalls rnd results) = num_of_Z z).
Proof.
  pose proof (avgInstalls_sign results) as H. split; [exact H|].
  destruct (avgInstalls rnd results) as [| | |q]; try discriminate; [now left|].
  right. exists (Qfloor (q + (1 # 2))). split; [|reflexivity].
  apply round_lower. simpl in H. now apply Qle_bool_iff.
Qed.

Variable toLowerCase : jsstring -> jsstring.
Variable anchor_hrefs : jsstring -> list (option jsstring).
Variable browser : jsstring -> page_outcome.

(** X20.  In the response every suggestion has a keyword of three code
    units or more, a score of 1 or more and a difficulty that is an
    integer from 1 to 100, whatever the pages hold and whatever the
    average of the install counts is. *)
Theorem analyze_suggestions_bounds (keyword country : jsstring) (limit : Z)
    (searchHtml : jsstring) :
  Forall (fun s => 3 <= length (s_keyword s)
                   /\ (1 <= s_score s)%Z
                   /\ exists z : Z, (1 <= z <= 100)%Z /\ s_difficulty s = num_of_Z z)
    (a_suggestions
       (analyze rnd toLowerCase anchor_hrefs browser keyword country limit searchHtml)).
Proof.
  apply Forall_forall. intros s Hs. unfold analyze in Hs. cbv zeta in Hs.
  cbn [a_suggestions] in Hs. unfold suggestions in Hs. cbv zeta in Hs.
  apply in_map_iff in Hs as [[k v] [<- Hin]]. cbn [fst snd s_keyword s_score s_difficulty].
  apply firstn_In in Hin. apply -> sort_by_score_In in Hin.
  destruct (frequencies_entry _ _ _ _ _ Hin) as [Ev Hv].
  split; [|split; [exact Hv|]].
  - assert (Hne : score_of toLowerCase
                    (detail_results rnd browser (packages anchor_hrefs searchHtml limit))
                    keyword k <> 0%Z) by lia.
    destruct (score_origin _ _ _ _ Hne) as [[Hl _]|[Hq _]];
      [exact Hl | now apply qualifies_length].
  - unfold difficulty. cbv zeta.
    match goal with
    | |- context [if ?b then _ else _] => destruct b eqn:E
    end.
    + apply (substitute_estimate rnd_monotone rnd_integers).
      unfold num_of_Z, num_leb. apply Qle_bool_iff. unfold Qle. simpl. lia.
    + now apply kept_estimate.
Qed.

End AverageMore.

Lemma avgInstalls_not_negative_witness :
  monotone exact_rounding /\ exact_on_integers exact_rounding
  /\ installsList installs_sample = [Fin 1000; Fin 2001]
  /\ avgInstalls exact_rounding installs_sample = Fin (3001 # 2)
  /\ Math_round (avgInstalls exact_rounding installs_sample) = num_of_Z 1501
  /\ num_leb (Fin 0) (avgInstalls exact_rounding installs_sample) = true
  /\ (Math_round (avgInstalls exact_rounding installs_sample) = PInf
      \/ exists z : Z, (0 <= z)%Z
           /\ Math_round (avgInstalls exact_rounding installs_sample) = num_of_Z z).
Proof.
  split; [exact exact_rounding_monotone|].
  split; [exact exact_rounding_integers|].
  split; [reflexivity|]. split; [reflexivity|]. split; [reflexivity|].
  exact (@avgInstalls_not_negative exact_rounding exact_rounding_monotone
           exact_rounding_integers installs_sample).
Defined.

Lemma analyze_suggestions_bounds_witness :
  monotone exact_rounding /\ exact_on_integers exact_rounding
  /\ Forall (fun s => 3 <= length (s_keyword s)
                      /\ (1 <= s_score s)%Z
                      /\ exists z : Z, (1 <= z <= 100)%Z
                           /\ s_difficulty s = num_of_Z z)
       (a_suggestions
          (analyze exact_rounding toLowerCase_ascii sample_hrefs
             (same_page (page_with (Some (str "10M+")) (Some (str "Rated 4.5 stars"))))
             (str "photo editor") (str "us") 20 sample_html)).
Proof.
  split; [exact exact_rounding_monotone|].
  split; [exact exact_rounding_integers|].
  apply (@analyze_suggestions_bounds exact_rounding exact_rounding_monotone
           exact_rounding_integers).
Defined.

(* ===================================================================== *)
(** * Further properties: the delay and the parameters of a request *)
(* ===================================================================== *)

Lemma trimStart_nil (s : jsstring) :
  trimStart s = [] <-> forallb is_space s = true.
Proof.
  induction s as [|c s IH]; cbn [trimStart forallb]; [tauto|].
  destruct (is_space c); cbn [andb]; [exact IH|]. split; discriminate.
Qed.

Lemma trim_nil (s : jsstring) : trim s = [] <-> forallb is_space s = true.
Proof.
  rewrite <- trimStart_nil. unfold trim, trimEnd. split.
  - intros H.
    assert (Hr : trimStart (rev (trimStart s)) = []).
    { rewrite <- (rev_involutive (trimStart (rev (trimStart s)))), H. reflexivity. }
    pose proof (trimStart_head s) as Hh.
    destruct (trimStart s) as [|y t] eqn:E; [reflexivity|].
    apply trimStart_nil in Hr. rewrite forallb_forall in Hr.
    rewrite (Hr y) in Hh; [discriminate|]. apply -> in_rev. now left.
  - intros ->. reflexivity.
Qed.

(** X21.  A request is refused for its keyword exactly when the
    parameter is absent or holds white space only. *)
Theorem keyword_required_blank (keyword : option jsstring) :
  keyword_required keyword = true
  <-> keyword = None \/ exists s, keyword = Some s /\ forallb is_space s = true.
Proof.
  unfold keyword_required, request_keyword, or_default.
  destruct keyword as [s|].
  - assert (Hs : (if truthy_string s then s else []) = s) by now destruct s.
    rewrite Hs. split.
    + intros H. right. exists s. split; [reflexivity|]. apply trim_nil.
      destruct (trim s); [reflexivity | discriminate].
    + intros [H|[s' [E H]]]; [discriminate|]. injection E as <-.
      apply trim_nil in H. now rewrite H.
  - split; [now left | reflexivity].
Qed.

Section RequestMore.

Variable rnd : Q -> number.

Lemma request_limit_cases (limit : option jsstring) :
  request_limit rnd limit = NaN
  \/ request_limit rnd limit = Fin 50
  \/ (request_limit rnd limit = parseInt rnd (or_default limit (str "20"))
      /\ num_leb (Fin 50) (request_limit rnd limit) = false
      /\ num_leb (request_limit rnd limit) (Fin 50) = true).
Proof.
  unfold request_limit. destruct (parseInt rnd (or_default limit (str "20")))
    as [| | |q]; cbn; auto.
  destruct (Qle_bool 50 q) eqn:E; auto.
  right. right. split; [reflexivity|]. split; [exact E|].
  apply Qle_bool_iff. destruct (Qlt_le_dec q 50) as [H|H]; [lra|].
  apply Qle_bool_iff in H. congruence.
Qed.

Variable anchor_hrefs : jsstring -> list (option jsstring).
Variable browser : jsstring -> page_outcome.

Lemma packages_length (searchHtml : jsstring) (limit : Z) :
  length (packages anchor_hrefs searchHtml limit) <= Z.to_nat limit.
Proof.
  destruct (Z.le_gt_cases limit 0) as [H|H].
  - rewrite packages_not_positive by assumption. simpl. lia.
  - rewrite packages_first_appearances by lia. rewrite length_firstn. lia.
Qed.

Lemma detail_results_length (packages : list jsstring) :
  length (detail_results rnd browser packages) <= 2 * length packages.
Proof.
  unfold detail_results. rewrite visit_all_records. cbn [snd app].
  induction packages as [|pkg rest IH]; cbn [flat_map]; [simpl; lia|].
  rewrite length_app.
  assert (length (records_for rnd browser pkg) <= 2).
  { unfold records_for. destruct (browser pkg) as [|page [|]]; simpl; lia. }
  cbn [length]. lia.
Qed.

(** X22.  When the limit of a request is an integer, it is 50 or less,
    at most 50 detail pages are visited, and the response holds at most
    100 competitors. *)
Theorem at_most_50_pages (limit : option jsstring) (l : Z)
    (keyword country searchHtml : jsstring)
    (toLowerCase : jsstring -> jsstring) :
  request_limit rnd limit = num_of_Z l ->
  (l <= 50)%Z
  /\ length (packages anchor_hrefs searchHtml l) <= 50
  /\ a_topCount (analyze rnd toLowerCase anchor_hrefs browser keyword country l
                   searchHtml) <= 100.
Proof.
  intros H.
  assert (Hl : (l <= 50)%Z).
  { destruct (request_limit_cases limit) as [E|[E|[_ [_ E]]]]; rewrite H in E.
    - discriminate.
    - injection E as ->. lia.
    - unfold num_of_Z, num_leb in E. apply Qle_bool_iff in E.
      now apply (@inject_Z_le_inv l 50). }
  pose proof (packages_length searchHtml l) as Hp.
  split; [exact Hl|]. split; [lia|].
  unfold analyze. cbv zeta. cbn [a_topCount].
  pose proof (detail_results_length (packages anchor_hrefs searchHtml l)). lia.
Qed.

Hypothesis rnd_integers : exact_on_integers rnd.

(** X23.  The limit of a request is never above 50: it is [NaN] when
    the parameter does not start with an integer, and a number of 50 or
    less otherwise; it is 20 when the parameter is absent or empty. *)
Theorem request_limit_cap (limit : option jsstring) :
  (request_limit rnd limit = NaN
   \/ num_leb (request_limit rnd limit) (Fin 50) = true)
  /\ (request_limit rnd limit = NaN
      <-> parseInt rnd (or_default limit (str "20")) = NaN)
  /\ (truthy_ostring limit = false -> request_limit rnd limit = Fin 20).
Proof.
  split; [|split].
  - destruct (request_limit_cases limit) as [H|[H|[_ [_ H]]]]; auto.
    right. rewrite H. reflexivity.
  - unfold request_limit.
    destruct (parseInt rnd (or_default limit (str "20"))) as [| | |q]; cbn;
      try (split; [discriminate | discriminate]); [tauto|].
    destruct (Qle_bool 50 q); split; discriminate.
  - intros Hl. unfold request_limit.
    assert (Hd : or_default limit (str "20") = str "20").
    { destruct limit as [[|c s]|]; [reflexivity | discriminate | reflexivity]. }
    rewrite Hd.
    assert (Hp : parseInt rnd (str "20") = Fin 20).
    { change (parseInt rnd (str "20")) with (rnd (inject_Z 20)).
      apply rnd_integers. simpl. lia. }
    rewrite Hp. reflexivity.
Qed.

Hypothesis rnd_monotone : monotone rnd.

(** X24.  The delay between two pages is a whole number of milliseconds
    from 700 to 1300, for every value from 0 to 1 that [Math.random]
    returns. *)
Theorem randDelay_bounds (random : Q) :
  (0 <= random < 1)%Q ->
  exists z : Z, (700 <= z <= 1300)%Z /\ randDelay rnd random = num_of_Z z.
Proof.
  intros [H0 H1]. unfold randDelay, REQUEST_DELAY_MS, EXTRA_DELAY_VARIATION.
  unfold num_of_Z at 2. cbn [num_mul].
  destruct (@between rnd rnd_monotone rnd_integers 0 600 (random * inject_Z 600))
    as [y [-> [Hy0 Hy1]]]; try (simpl; lia).
  { change (inject_Z 0) with 0%Q. change (inject_Z 600) with 600%Q. split; lra. }
  cbn [Math_floor]. unfold num_of_Z. cbn [num_add].
  rewrite <- inject_Z_plus.
  assert (Hf0 : (0 <= Qfloor y)%Z).
  { change 0%Z with (Qfloor (inject_Z 0)). now apply Qfloor_resp_le. }
  assert (Hf1 : (Qfloor y <= 600)%Z).
  { rewrite <- (Qfloor_Z 600). now apply Qfloor_resp_le. }
  exists (700 + Qfloor y)%Z. split; [lia|].
  apply rnd_integers. apply Z.abs_le.
  change (2 ^ 53)%Z with 9007199254740992%Z. lia.
Qed.

End RequestMore.

Lemma randDelay_bounds_witness :
  monotone exact_rounding /\ exact_on_integers exact_rounding
  /\ (0 <= 1 # 2 < 1)%Q
  /\ exists z : Z, (700 <= z <= 1300)%Z
       /\ randDelay exact_rounding (1 # 2) = num_of_Z z.
Proof.
  assert (H : (0 <= 1 # 2 < 1)%Q) by (split; [discriminate | reflexivity]).
  split; [exact exact_rounding_monotone|].
  split; [exact exact_rounding_integers|].
  split; [exact H|].
  exact (@randDelay_bounds exact_rounding exact_rounding_integers
           exact_rounding_monotone (1 # 2) H).
Defined.

Lemma request_limit_cap_witness :
  exact_on_integers exact_rounding
  /\ truthy_ostring None = false
  /\ request_limit exact_rounding None = Fin 20.
Proof.
  split; [exact exact_rounding_integers|].
  split; [reflexivity|].
  exact (proj2 (proj2 (@request_limit_cap exact_rounding exact_rounding_integers
                         None)) eq_refl).
Defined.

Lemma at_most_50_pages_witness :
  request_limit exact_rounding (Some (str "200")) = num_of_Z 50
  /\ (50 <= 50)%Z
  /\ length (packages sample_hrefs sample_html 50) <= 50
  /\ a_topCount (analyze exact_rounding toLowerCase_ascii sample_hrefs
                   (fun _ => PageFails) (str "photo editor") (str "us") 50
                   sample_html) <= 100.
Proof.
  split; [reflexivity|].
  exact (@at_most_50_pages exact_rounding sample_hrefs (fun _ => PageFails)
           (Some (str "200")) 50 (str "photo editor") (str "us") sample_html
           toLowerCase_ascii eq_refl).
Defined.
